(** * paf client: the transaction multiplexing engine of [paf/client.py]

    A shallow embedding of the client side of the Pathfinder protocol:
    the per-transaction state machine ([Transaction]), the connection
    engine ([Client]) with its outgoing queue, its registry of live
    transactions and its bounded send/receive rounds, and the blocking
    call adapters ([Call] and its subclasses).

    Python objects that are mutated in place are modelled by explicit state
    passing: a function returns the mutated object next to its result, and
    an exception leaves the mutations made before it in place. *)

From Stdlib Require Import ZArith Lia Ascii.
From stdpp Require Import base option list gmap strings sorting.

Local Open Scope Z_scope.
Local Open Scope string_scope.

(** ** Values *)

(** What [json.loads] produces and [json.dumps] consumes. Python's [None]
    is JSON's null. *)
#[warnings="-register-all"] Inductive json :=
| JNull
| JBool (b : bool)
| JInt (n : Z)
| JStr (s : string)
| JList (l : list json)
| JObj (l : list (string * json)).

(** A decoded message, and a keyword-argument dictionary. *)
Abbreviation msg := (gmap string json).

(** [v is None] *)
Definition is_None (v : json) : bool :=
  match v with JNull => true | _ => false end.

(** [v == s] for a [str] constant [s] *)
Definition eq_str (v : json) (s : string) : bool :=
  match v with JStr s' => bool_decide (s' = s) | _ => false end.

(** [v == n] for an [int] constant [n]; [True] is 1 and [False] is 0. *)
Definition eq_int (v : json) (n : Z) : bool :=
  match v with
  | JInt n' => bool_decide (n' = n)
  | JBool b => bool_decide ((if b then 1 else 0) = n)
  | _ => false
  end.

(** ** String formatting *)

(** The number of conversion specifiers of a format string ([%%] is a
    literal percent sign). *)
Fixpoint conversions (fmt : string) : nat :=
  match fmt with
  | String "%"%char rest =>
      match rest with
      | String "%"%char rest' => conversions rest'
      | String _ rest' => S (conversions rest')
      | EmptyString => 0%nat
      end
  | String _ rest => conversions rest
  | EmptyString => 0%nat
  end.

(** The text of an exception: a format string and the value it is applied
    to with [%]. *)
Record text := Fmt { fmt : string; fmt_arg : json }.

(** ** Exceptions *)

(** The places where the client and the codec raise [ProtocolError]. *)
Inductive violation :=
| MissingField (field : string)
| InvalidField (field : string)
| WrongCommand (ta_id : Z) (expected : string) (got : json)
| InvalidMessageType (msg_type : json) (cmd : string) (ta_id : Z)
                     (state_name : string)
| UnknownFields (keys : list string)
| ServerClosed
| UnknownTransaction (ta_id : json)
| DecodingFailed
| EstablishmentFailed (reason : json)
| UnsupportedVersion (selected : json) (required : Z).

Inductive exn :=
| ProtocolError (v : violation)
| TransportError (errno : Z)
| TransactionError (message : text)
| AssertionError (condition : string)
| TypeError (message : string)
| AttributeError (attribute : string)
| IndexError.

(** [except Error]: the three error kinds of the protocol derive from
    [proto.Error]. *)
Definition is_Error (e : exn) : bool :=
  match e with
  | ProtocolError _ | TransportError _ | TransactionError _ => true
  | _ => false
  end.

Inductive result (A : Type) :=
| Ok (a : A)
| Raise (e : exn).
Arguments Ok {A} a.
Arguments Raise {A} e.

(** [fmt % v] for a value [v] that is not a tuple: the value is the single
    argument of the format. A dictionary may stay unused, any other value
    must be consumed by exactly one conversion. *)
Definition percent (fmt : string) (v : json) : result text :=
  match conversions fmt, v with
  | 0%nat, JObj _ => Ok (Fmt fmt v)
  | 0%nat, _ =>
      Raise (TypeError "not all arguments converted during string formatting")
  | 1%nat, _ => Ok (Fmt fmt v)
  | _, _ => Raise (TypeError "not enough arguments for format string")
  end.

(** ** The schema contract, [paf.proto] *)

Module proto.

Inductive InteractionType := SINGLE_RESPONSE | MULTI_RESPONSE.

#[global] Instance InteractionType_eq_dec : EqDecision InteractionType.
Proof. solve_decision. Defined.

(** Modelled from the spec: [paf/proto.py] is not part of the sources. A
    field has a name on the wire, the name under which its value is
    handed to a handler as a keyword argument, and the type its value
    must have. *)
Record Field := {
  name : string;
  python_name : string;
  python_type : json → bool
}.

(** Modelled from the spec: [Field.put] of the absent [paf/proto.py],
    "serialize": the value is stored in the message under the field's
    name. *)
Definition put (field : Field) (value : json) (m : msg) : msg :=
  <[name field := value]> m.

(** Modelled from the spec: [Field.pull] of the absent [paf/proto.py],
    "validate-and-extract": the value under the field's name is checked
    against the field's type and taken out of the message; a missing field
    is a protocol violation, unless [opt] is set, and then the result is
    [None]. *)
Definition pull (field : Field) (opt : bool) (m : msg) : result json * msg :=
  match m !! name field with
  | Some value =>
      if python_type field value
      then (Ok value, delete (name field) m)
      else (Raise (ProtocolError (InvalidField (name field))), m)
  | None =>
      if opt then (Ok JNull, m)
      else (Raise (ProtocolError (MissingField (name field))), m)
  end.

(** Modelled from the spec: the schema entry of one command, with its
    interaction pattern and, for each of the five message kinds, the
    ordered mandatory fields and the optional fields. *)
Record TransactionType := {
  cmd : string;
  ia_type : InteractionType;
  request_fields : list Field;
  opt_request_fields : list Field;
  accept_fields : list Field;
  opt_accept_fields : list Field;
  notify_fields : list Field;
  opt_notify_fields : list Field;
  complete_fields : list Field;
  opt_complete_fields : list Field;
  fail_fields : list Field;
  opt_fail_fields : list Field
}.

Definition is_str (v : json) : bool :=
  match v with JStr _ => true | _ => false end.
Definition is_int (v : json) : bool :=
  match v with JInt _ => true | _ => false end.

Definition StrField (n pn : string) : Field :=
  {| name := n; python_name := pn; python_type := is_str |}.
Definition IntField (n pn : string) : Field :=
  {| name := n; python_name := pn; python_type := is_int |}.

(** Modelled from the spec: the constants of the absent [paf/proto.py]
    that the client names. Every message carries "a message-kind marker,
    the command name, the transaction id"; the spellings on the wire are
    not fixed by the spec. *)
Definition MSG_TYPE_REQUEST := "request".
Definition MSG_TYPE_ACCEPT := "accept".
Definition MSG_TYPE_NOTIFY := "notify".
Definition MSG_TYPE_COMPLETE := "complete".
Definition MSG_TYPE_FAIL := "fail".

Definition FIELD_TA_CMD := StrField "ta-cmd" "ta_cmd".
Definition FIELD_TA_ID := IntField "ta-id" "ta_id".
Definition FIELD_MSG_TYPE := StrField "msg-type" "msg_type".
Definition FIELD_FAIL_REASON := StrField "fail-reason" "fail_reason".
Definition FIELD_CLIENT_ID := IntField "client-id" "client_id".
Definition FIELD_PROTO_MIN_VERSION :=
  IntField "protocol-minimum-version" "protocol_minimum_version".
Definition FIELD_PROTO_MAX_VERSION :=
  IntField "protocol-maximum-version" "protocol_maximum_version".
Definition FIELD_PROTO_VERSION :=
  IntField "protocol-version" "protocol_version".

(** Modelled from the spec: the protocol version the client requires. *)
Definition VERSION : Z := 2.

(** Modelled from the spec: the handshake, "command hello, arguments:
    client id, minimum and preferred protocol version", a
    single-response transaction whose completion carries the version the
    server selected and whose failure may carry a reason. *)
Definition TA_HELLO : TransactionType :=
  {| cmd := "hello";
     ia_type := SINGLE_RESPONSE;
     request_fields :=
       [FIELD_CLIENT_ID; FIELD_PROTO_MIN_VERSION; FIELD_PROTO_MAX_VERSION];
     opt_request_fields := [];
     accept_fields := [];
     opt_accept_fields := [];
     notify_fields := [];
     opt_notify_fields := [];
     complete_fields := [FIELD_PROTO_VERSION];
     opt_complete_fields := [];
     fail_fields := [];
     opt_fail_fields := [FIELD_FAIL_REASON] |}.

(** Modelled from the spec: "unsubscribe(sub_id)", a single-response
    transaction that the client runs with the plain [Call] adapter. *)
Definition FIELD_SUBSCRIPTION_ID :=
  IntField "subscription-id" "subscription_id".
Definition FIELD_FILTER := StrField "filter" "filter".

Definition TA_UNSUBSCRIBE : TransactionType :=
  {| cmd := "unsubscribe";
     ia_type := SINGLE_RESPONSE;
     request_fields := [FIELD_SUBSCRIPTION_ID];
     opt_request_fields := [];
     accept_fields := [];
     opt_accept_fields := [];
     notify_fields := [];
     opt_notify_fields := [];
     complete_fields := [];
     opt_complete_fields := [];
     fail_fields := [];
     opt_fail_fields := [FIELD_FAIL_REASON] |}.

(** Modelled from the spec: "subscribe(sub_id, filter?)", multi-response.
    The spec does not give the fields of its notifications; they are left
    out here, and nothing below depends on them. *)
Definition TA_SUBSCRIBE : TransactionType :=
  {| cmd := "subscribe";
     ia_type := MULTI_RESPONSE;
     request_fields := [FIELD_SUBSCRIPTION_ID];
     opt_request_fields := [FIELD_FILTER];
     accept_fields := [];
     opt_accept_fields := [];
     notify_fields := [];
     opt_notify_fields := [];
     complete_fields := [];
     opt_complete_fields := [];
     fail_fields := [];
     opt_fail_fields := [FIELD_FAIL_REASON] |}.

End proto.

(** ** The transport contract, [paf.xcm] *)

Module xcm.

(** Modelled from the spec: the readiness conditions of the absent
    transport binding, one bit each. *)
Definition SO_RECEIVABLE : Z := 1.
Definition SO_SENDABLE : Z := 2.

(** [errno.EAGAIN], the would-block signal. *)
Definition EAGAIN : Z := 11.

(** The payload of one wire message. The text encoding is an external
    collaborator: a payload is the encoding of a message, or empty, or
    bytes that [json.loads] rejects with [ValueError]. *)
Inductive bytes :=
| Encoded (m : msg)
| Empty
| Malformed (raw : string).

(** [len(b) == 0] *)
Definition is_empty (b : bytes) : bool :=
  match b with Empty => true | _ => false end.

(** [json.dumps(m).encode('utf-8')] *)
Definition dumps (m : msg) : bytes := Encoded m.

(** [json.loads(b.decode('utf-8'))]; [None] stands for [ValueError]. *)
Definition loads (b : bytes) : option msg :=
  match b with Encoded m => Some m | _ => None end.

(** What the client asked of the transport, in order. A failed call
    carries the [errno] of the [xcm.error] it raised. *)
Inductive call :=
| Send (b : bytes) (failure : option Z)
| Receive (outcome : bytes + Z)
| Update (condition : Z)
| Close.

(** Modelled from the spec: the transport handle. The peer and the
    network are a script: the outcome of each coming [send] and of each
    coming [receive]; when a script has run out the call would block. *)
Record socket := {
  sends : list (option Z);
  receives : list (bytes + Z);
  condition : Z;
  closed : bool;
  calls : list call
}.

Definition send (b : bytes) (s : socket) : option Z * socket :=
  let failure := match sends s with [] => Some EAGAIN | o :: _ => o end in
  (failure,
   {| sends := tail (sends s); receives := receives s;
      condition := condition s; closed := closed s;
      calls := calls s ++ [Send b failure] |}).

Definition receive (s : socket) : (bytes + Z) * socket :=
  let outcome :=
    match receives s with [] => inr EAGAIN | o :: _ => o end in
  (outcome,
   {| sends := sends s; receives := tail (receives s);
      condition := condition s; closed := closed s;
      calls := calls s ++ [Receive outcome] |}).

Definition update (c : Z) (s : socket) : socket :=
  {| sends := sends s; receives := receives s;
     condition := c; closed := closed s;
     calls := calls s ++ [Update c] |}.

Definition close (s : socket) : socket :=
  {| sends := sends s; receives := receives s;
     condition := condition s; closed := true;
     calls := calls s ++ [Close] |}.

(** The payloads handed to [send] that did not come back with
    would-block: they have left the client for good. *)
Fixpoint departed (cs : list call) : list bytes :=
  match cs with
  | Send b failure :: rest =>
      if bool_decide (failure = Some EAGAIN) then departed rest
      else b :: departed rest
  | _ :: rest => departed rest
  | [] => []
  end.

(** The payloads the transport accepted. *)
Fixpoint transmitted (cs : list call) : list bytes :=
  match cs with
  | Send b None :: rest => b :: transmitted rest
  | _ :: rest => transmitted rest
  | [] => []
  end.

(** The attempts to send and to receive, without the readiness
    updates. *)
Definition is_io (c : call) : bool :=
  match c with Send _ _ | Receive _ => true | _ => false end.

End xcm.

(** ** Transactions *)

Inductive EventType := ACCEPT | NOTIFY | COMPLETE | FAIL.

Inductive TransactionState := IDLE | REQUESTING | ACCEPTED | TERMINATED.

#[export] Instance EventType_eq_dec : EqDecision EventType.
Proof. solve_decision. Defined.
#[export] Instance TransactionState_eq_dec : EqDecision TransactionState.
Proof. solve_decision. Defined.

(** [state.name] *)
Definition state_name (s : TransactionState) : string :=
  match s with
  | IDLE => "IDLE"
  | REQUESTING => "REQUESTING"
  | ACCEPTED => "ACCEPTED"
  | TERMINATED => "TERMINATED"
  end.

(** The handlers a transaction can hold: the connection's own
    [initial_hello_cb], a [Call] adapter (an object of the store, by
    reference), or a handler of the caller. *)
Inductive callback :=
| initial_hello_cb
| call_object (ref : nat)
| user_handler (h : nat).

(** [cb] is unset until [produce_request] stores the handler. *)
Record Transaction := {
  ta_id : Z;
  ta_type : proto.TransactionType;
  state : TransactionState;
  cb : option callback
}.

(** [Transaction.__init__] *)
Definition Transaction_init (ta_type : proto.TransactionType) (ta_id : Z)
  : Transaction :=
  {| ta_id := ta_id; ta_type := ta_type; state := IDLE; cb := None |}.

Definition set_state (s : TransactionState) (t : Transaction) : Transaction :=
  {| ta_id := ta_id t; ta_type := ta_type t; state := s; cb := cb t |}.

(** One round of the loop over [opt_request_fields]: the argument is
    looked for under the field's [name], its value is read under the
    field's [python_name()], and the entry under [name] is deleted. *)
Definition put_optarg (acc : msg * msg) (opt_field : proto.Field) : msg * msg :=
  let '(request_msg, request_optargs) := acc in
  if bool_decide (is_Some (request_optargs !! proto.name opt_field)) then
    let field_value :=
      default JNull (request_optargs !! proto.python_name opt_field) in
    (if is_None field_value then request_msg
     else proto.put opt_field field_value request_msg,
     delete (proto.name opt_field) request_optargs)
  else acc.

(** [Transaction.produce_request]: the transaction as it is left, and the
    request message or the exception. [request_args[i]] exists for every
    field once the first assertion has passed. *)
Definition produce_request (self : Transaction) (request_args : list json)
    (request_optargs : msg) (response_cb : callback)
  : Transaction * result msg :=
  let request_msg : msg := ∅ in
  let request_msg :=
    proto.put proto.FIELD_TA_CMD (JStr (proto.cmd (ta_type self))) request_msg in
  let request_msg :=
    proto.put proto.FIELD_TA_ID (JInt (ta_id self)) request_msg in
  let request_msg :=
    proto.put proto.FIELD_MSG_TYPE (JStr proto.MSG_TYPE_REQUEST) request_msg in
  if negb (bool_decide (length request_args =
                        length (proto.request_fields (ta_type self))))
  then (self, Raise (AssertionError
                       "len(request_args) == len(self.ta_type.request_fields)"))
  else
    let request_msg :=
      foldl (λ m fv, proto.put fv.1 fv.2 m) request_msg
            (zip (proto.request_fields (ta_type self)) request_args) in
    let '(request_msg, request_optargs) :=
      foldl put_optarg (request_msg, request_optargs)
            (proto.opt_request_fields (ta_type self)) in
    if negb (bool_decide (size request_optargs = 0%nat))
    then (self, Raise (AssertionError "len(request_optargs) == 0"))
    else ({| ta_id := ta_id self; ta_type := ta_type self;
             state := REQUESTING; cb := Some response_cb |},
          Ok request_msg).

(** The [if]/[elif] chain of [consume_message]: the event, the mandatory
    and the optional fields to extract, and the state the transaction
    takes; [None] is the final [else]. *)
Definition select (self : Transaction) (msg_type : json)
  : option (EventType * list proto.Field * list proto.Field * TransactionState) :=
  let ty := ta_type self in
  if eq_str msg_type proto.MSG_TYPE_ACCEPT
     && bool_decide (state self = REQUESTING)
     && bool_decide (proto.ia_type ty = proto.MULTI_RESPONSE)
  then Some (ACCEPT, proto.accept_fields ty, proto.opt_accept_fields ty,
             ACCEPTED)
  else if eq_str msg_type proto.MSG_TYPE_NOTIFY
          && bool_decide (state self = ACCEPTED)
  then Some (NOTIFY, proto.notify_fields ty, proto.opt_notify_fields ty,
             state self)
  else if eq_str msg_type proto.MSG_TYPE_COMPLETE
          && (bool_decide (state self = REQUESTING)
              && bool_decide (proto.ia_type ty = proto.SINGLE_RESPONSE)
              || bool_decide (state self = ACCEPTED)
                 && bool_decide (proto.ia_type ty = proto.MULTI_RESPONSE))
  then Some (COMPLETE, proto.complete_fields ty, proto.opt_complete_fields ty,
             TERMINATED)
  else if eq_str msg_type proto.MSG_TYPE_FAIL
  then Some (FAIL, proto.fail_fields ty, proto.opt_fail_fields ty, TERMINATED)
  else None.

(** [[field.pull(in_msg) for field in fields]] *)
Fixpoint pull_fields (fields : list proto.Field) (in_msg : msg)
  : result (list json) * msg :=
  match fields with
  | [] => (Ok [], in_msg)
  | field :: rest =>
      match proto.pull field false in_msg with
      | (Ok value, in_msg) =>
          match pull_fields rest in_msg with
          | (Ok values, in_msg) => (Ok (value :: values), in_msg)
          | (Raise e, in_msg) => (Raise e, in_msg)
          end
      | (Raise e, in_msg) => (Raise e, in_msg)
      end
  end.

(** The loop over [opt_fields], which fills [optargs]. *)
Fixpoint pull_opt_fields (opt_fields : list proto.Field) (optargs in_msg : msg)
  : result msg * msg :=
  match opt_fields with
  | [] => (Ok optargs, in_msg)
  | opt_field :: rest =>
      match proto.pull opt_field true in_msg with
      | (Ok opt_value, in_msg) =>
          let optargs :=
            if is_None opt_value then optargs
            else <[proto.python_name opt_field := opt_value]> optargs in
          pull_opt_fields rest optargs in_msg
      | (Raise e, in_msg) => (Raise e, in_msg)
      end
  end.

(** ** The call adapters, the connection and the world around them *)

Inductive call_cls := Call | LatencyCall | NotifyCall | CompleteCall.

#[export] Instance call_cls_eq_dec : EqDecision call_cls.
Proof. solve_decision. Defined.

(** A [Call] object (of the class [cls]). [reason], [latency] and [complete]
    are attributes that do not exist until they are first assigned. A
    notification is [list(args)], with the keyword arguments appended when
    there are any. *)
Record CallObject := {
  cls : call_cls;
  Call_ta_id : option Z;
  Call_result : option EventType;
  reason : option json;
  start : Z;
  latency : option Z;
  notifications : list (list json * option msg);
  complete : option (list json)
}.

(** The attributes of a [Client]; its [ta_id] is [Client_ta_id] here, as
    the fields of all records share one name space. [ready_cb] is a handler
    of the caller, and [proto_version] is [None] until the handshake. *)
Record Client := {
  client_id : Z;
  conn_sock : xcm.socket;
  ready_cb : option nat;
  Client_ta_id : Z;
  out_wire_msgs : list xcm.bytes;
  transactions : gmap Z Transaction;
  proto_version : json
}.

(** The code of the caller is not part of the client: a handler of the
    caller is taken to return normally and to leave the connection alone,
    and what it was called with is recorded. *)
Inductive user_call :=
| Handled (h : nat) (ta_id : Z) (event : EventType) (args : list json)
          (optargs : msg)
| Ready (h : nat).

(** The connection, the store of the [Call] objects, the record of the
    calls into the caller's code, and the clock that [time.time()] reads. *)
Record World := {
  client : Client;
  objects : gmap nat CallObject;
  user_calls : list user_call;
  now : Z
}.

Definition set_conn_sock (s : xcm.socket) (c : Client) : Client :=
  {| client_id := client_id c; conn_sock := s; ready_cb := ready_cb c;
     Client_ta_id := Client_ta_id c; out_wire_msgs := out_wire_msgs c;
     transactions := transactions c; proto_version := proto_version c |}.

Definition set_Client_ta_id (n : Z) (c : Client) : Client :=
  {| client_id := client_id c; conn_sock := conn_sock c;
     ready_cb := ready_cb c;
     Client_ta_id := n; out_wire_msgs := out_wire_msgs c;
     transactions := transactions c; proto_version := proto_version c |}.

Definition set_out_wire_msgs (q : list xcm.bytes) (c : Client) : Client :=
  {| client_id := client_id c; conn_sock := conn_sock c;
     ready_cb := ready_cb c;
     Client_ta_id := Client_ta_id c; out_wire_msgs := q;
     transactions := transactions c; proto_version := proto_version c |}.

Definition set_transactions (ts : gmap Z Transaction) (c : Client) : Client :=
  {| client_id := client_id c; conn_sock := conn_sock c;
     ready_cb := ready_cb c;
     Client_ta_id := Client_ta_id c; out_wire_msgs := out_wire_msgs c;
     transactions := ts; proto_version := proto_version c |}.

Definition set_proto_version (v : json) (c : Client) : Client :=
  {| client_id := client_id c; conn_sock := conn_sock c;
     ready_cb := ready_cb c;
     Client_ta_id := Client_ta_id c; out_wire_msgs := out_wire_msgs c;
     transactions := transactions c; proto_version := v |}.

Definition set_client (c : Client) (w : World) : World :=
  {| client := c; objects := objects w; user_calls := user_calls w;
     now := now w |}.

Definition set_objects (os : gmap nat CallObject) (w : World) : World :=
  {| client := client w; objects := os; user_calls := user_calls w;
     now := now w |}.

Definition record_call (u : user_call) (w : World) : World :=
  {| client := client w; objects := objects w;
     user_calls := user_calls w ++ [u]; now := now w |}.

(** [TransactionError(reason=reason)]: the exception that comes out of
    evaluating the constructor. *)
Definition TransactionError_init (reason : json) : exn :=
  let message :=
    if negb (is_None reason)
    then percent "Protocol transaction failed: '%s'." reason
    else percent "Protocol transaction failed for unknown reason." reason in
  match message with
  | Ok message => TransactionError message
  | Raise e => e
  end.

(** [Call.__init__] and those of its subclasses; [LatencyCall] reads the
    clock. *)
Definition Call_init (c : call_cls) (now : Z) : CallObject :=
  {| cls := c; Call_ta_id := None; Call_result := None; reason := None;
     start := now; latency := None; notifications := []; complete := None |}.

(** [Call.__call__] *)
Definition Call__call__ (self : CallObject) (ta_id : Z) (event : EventType)
    (optargs : msg) : result unit * CallObject :=
  match Call_ta_id self with
  | None => (Raise (AssertionError "self.ta_id is not None"), self)
  | Some own =>
      if negb (bool_decide (own = ta_id))
      then (Raise (AssertionError "self.ta_id == ta_id"), self)
      else
        (Ok (),
         {| cls := cls self; Call_ta_id := Call_ta_id self;
            Call_result := Some event;
            reason :=
              if bool_decide (event = FAIL)
              then Some (default JNull (optargs !! "fail_reason"))
              else reason self;
            start := start self; latency := latency self;
            notifications := notifications self;
            complete := complete self |})
  end.

Definition unexpected_keyword : exn :=
  TypeError "__call__() got an unexpected keyword argument".

(** [__call__] as the class of the object has it. [LatencyCall] and
    [CompleteCall] declare no keyword arguments, so a call with one is a
    [TypeError]; they hand none on to [Call.__call__]. *)
Definition adapter__call__ (self : CallObject) (now : Z) (ta_id : Z)
    (event : EventType) (args : list json) (optargs : msg)
  : result unit * CallObject :=
  match cls self with
  | Call => Call__call__ self ta_id event optargs
  | LatencyCall =>
      if negb (bool_decide (size optargs = 0%nat))
      then (Raise unexpected_keyword, self)
      else
        let self :=
          if bool_decide (event = COMPLETE)
          then {| cls := cls self; Call_ta_id := Call_ta_id self;
                  Call_result := Call_result self; reason := reason self;
                  start := start self; latency := Some (now - start self);
                  notifications := notifications self;
                  complete := complete self |}
          else self in
        Call__call__ self ta_id event ∅
  | NotifyCall =>
      let self :=
        if bool_decide (event = NOTIFY)
        then
          let notification :=
            (args, if bool_decide (0 < size optargs)%nat
                   then Some optargs else None) in
          {| cls := cls self; Call_ta_id := Call_ta_id self;
             Call_result := Call_result self; reason := reason self;
             start := start self; latency := latency self;
             notifications := notifications self ++ [notification];
             complete := complete self |}
        else self in
      Call__call__ self ta_id event optargs
  | CompleteCall =>
      if negb (bool_decide (size optargs = 0%nat))
      then (Raise unexpected_keyword, self)
      else
        let self :=
          if bool_decide (event = COMPLETE)
          then {| cls := cls self; Call_ta_id := Call_ta_id self;
                  Call_result := Call_result self; reason := reason self;
                  start := start self; latency := latency self;
                  notifications := notifications self;
                  complete := Some args |}
          else self in
        Call__call__ self ta_id event ∅
  end.

(** [%d] wants a number. *)
Definition is_number (v : json) : bool :=
  match v with JInt _ | JBool _ => true | _ => false end.

Definition not_a_number : exn := TypeError "%d format: a number is required".

(** [Client.initial_hello_cb] *)
Definition Client_initial_hello_cb (ta_id : Z) (event : EventType)
    (args : list json) (optargs : msg) (w : World) : result unit * World :=
  match event with
  | FAIL =>
      let reason := default JNull (optargs !! "fail_reason") in
      let reason := if is_None reason then JStr "reason unknown" else reason in
      (Raise (ProtocolError (EstablishmentFailed reason)), w)
  | COMPLETE =>
      match args with
      | [] => (Raise IndexError, w)
      | selected_version :: _ =>
          if negb (eq_int selected_version proto.VERSION)
          then
            if is_number selected_version
            then (Raise (ProtocolError
                           (UnsupportedVersion selected_version proto.VERSION)),
                  w)
            else (Raise not_a_number, w)
          else
            let w := set_client (set_proto_version selected_version (client w))
                                w in
            match ready_cb (client w) with
            | Some h => (Ok (), record_call (Ready h) w)
            | None => (Ok (), w)
            end
      end
  | _ => (Ok (), w)
  end.

(** [self.cb(self.ta_id, event, *args, **optargs)] *)
Definition invoke (cb : callback) (ta_id : Z) (event : EventType)
    (args : list json) (optargs : msg) (w : World) : result unit * World :=
  match cb with
  | initial_hello_cb => Client_initial_hello_cb ta_id event args optargs w
  | call_object ref =>
      match objects w !! ref with
      | Some self =>
          let '(r, self) :=
            adapter__call__ self (now w) ta_id event args optargs in
          (r, set_objects (<[ref := self]> (objects w)) w)
      | None => (Raise (AttributeError "__call__"), w)
      end
  | user_handler h => (Ok (), record_call (Handled h ta_id event args optargs) w)
  end.

(** The last line of [consume_message]; the attribute [cb] must exist. *)
Definition call_cb (self : Transaction) (event : EventType)
    (args : list json) (optargs : msg) (w : World) : result unit * World :=
  match cb self with
  | Some cb => invoke cb (ta_id self) event args optargs w
  | None => (Raise (AttributeError "cb"), w)
  end.

(** [Transaction.consume_message]: the transaction as it is left, the
    outcome, and the world as the handler left it. *)
Definition consume_message (self : Transaction) (in_msg : msg) (w : World)
  : Transaction * result unit * World :=
  match proto.pull proto.FIELD_TA_CMD false in_msg with
  | (Raise e, _) => (self, Raise e, w)
  | (Ok ta_cmd, in_msg) =>
  if negb (eq_str ta_cmd (proto.cmd (ta_type self)))
  then (self,
        Raise (ProtocolError
                 (WrongCommand (ta_id self) (proto.cmd (ta_type self)) ta_cmd)),
        w)
  else
  match proto.pull proto.FIELD_MSG_TYPE false in_msg with
  | (Raise e, _) => (self, Raise e, w)
  | (Ok msg_type, in_msg) =>
  match select self msg_type with
  | None =>
      (self,
       Raise (ProtocolError
                (InvalidMessageType msg_type (proto.cmd (ta_type self))
                                    (ta_id self) (state_name (state self)))),
       w)
  | Some (event, fields, opt_fields, new_state) =>
  let self := set_state new_state self in
  match pull_fields fields in_msg with
  | (Raise e, _) => (self, Raise e, w)
  | (Ok args, in_msg) =>
  match pull_opt_fields opt_fields ∅ in_msg with
  | (Raise e, _) => (self, Raise e, w)
  | (Ok optargs, in_msg) =>
  if bool_decide (0 < size in_msg)%nat
  then (self, Raise (ProtocolError (UnknownFields (map_to_list in_msg).*1)), w)
  else
    let '(r, w) := call_cb self event args optargs w in
    (self, r, w)
  end end end end end.

(** ** The connection engine *)

Definition MAX_MSGS_PER_ROUND : nat := 128.

Definition on_client (f : Client → Client) (w : World) : World :=
  set_client (f (client w)) w.

(** [Client.update] *)
Definition update (w : World) : World :=
  let condition := xcm.SO_RECEIVABLE in
  let condition :=
    if bool_decide (0 < length (out_wire_msgs (client w)))%nat
    then Z.lor condition xcm.SO_SENDABLE
    else condition in
  on_client (λ c, set_conn_sock (xcm.update condition (conn_sock c)) c) w.

(** [Client.next_ta_id] *)
Definition next_ta_id (w : World) : Z * World :=
  let ta_id := Client_ta_id (client w) in
  (ta_id, on_client (set_Client_ta_id (Client_ta_id (client w) + 1)) w).

(** [Client.try_send]; the [finally] clause runs on every way out. *)
Definition try_send (w : World) : result bool * World :=
  let '(r, w) :=
    match out_wire_msgs (client w) with
    | out_wire_msg :: rest =>
        let w := on_client (set_out_wire_msgs rest) w in
        let '(failure, sock) := xcm.send out_wire_msg (conn_sock (client w)) in
        let w := on_client (set_conn_sock sock) w in
        match failure with
        | None => (Ok true, w)
        | Some errno =>
            if bool_decide (errno = xcm.EAGAIN)
            then (Ok false,
                  on_client (λ c, set_out_wire_msgs
                                    (out_wire_msg :: out_wire_msgs c) c) w)
            else (Raise (TransportError errno), w)
        end
    | [] => (Ok false, w)
    end in
  (r, update w).

(** The key under which a transaction id looks up the registry:
    [True] and [False] are the integers 1 and 0, no other value equals an
    integer. *)
Definition key (v : json) : option Z :=
  match v with
  | JInt n => Some n
  | JBool b => Some (if b then 1 else 0)
  | _ => None
  end.

(** [Client.try_receive]. The transaction is an object of the registry:
    what [consume_message] did to it is there also when it raised. *)
Definition try_receive (w : World) : result bool * World :=
  let '(r, w) :=
    let '(outcome, sock) := xcm.receive (conn_sock (client w)) in
    let w := on_client (set_conn_sock sock) w in
    match outcome with
    | inr errno =>
        if bool_decide (errno = xcm.EAGAIN) then (Ok false, w)
        else (Raise (TransportError errno), w)
    | inl in_wire_msg =>
        if xcm.is_empty in_wire_msg
        then (Raise (ProtocolError ServerClosed), w)
        else
          match xcm.loads in_wire_msg with
          | None => (Raise (ProtocolError DecodingFailed), w)
          | Some in_msg =>
              match proto.pull proto.FIELD_TA_ID false in_msg with
              | (Raise e, _) => (Raise e, w)
              | (Ok ta_id, in_msg) =>
                  match key ta_id ≫= λ k, (k,.) <$> transactions (client w) !! k with
                  | None =>
                      if is_number ta_id
                      then (Raise (ProtocolError (UnknownTransaction ta_id)), w)
                      else (Raise not_a_number, w)
                  | Some (k, transaction) =>
                      let '(transaction, r, w) :=
                        consume_message transaction in_msg w in
                      let w :=
                        on_client (λ c, set_transactions
                                          (<[k := transaction]> (transactions c))
                                          c) w in
                      match r with
                      | Raise e => (Raise e, w)
                      | Ok _ =>
                          if bool_decide (state transaction = TERMINATED)
                          then (Ok true,
                                on_client (λ c, set_transactions
                                                  (delete k (transactions c)) c)
                                          w)
                          else (Ok true, w)
                      end
                  end
              end
          end
    end in
  (r, update w).

(** [for i in range(0, n): if not attempt(): break] *)
Fixpoint attempts (n : nat) (attempt : World → result bool * World)
    (w : World) : result unit * World :=
  match n with
  | O => (Ok (), w)
  | S n =>
      match attempt w with
      | (Ok true, w) => attempts n attempt w
      | (Ok false, w) => (Ok (), w)
      | (Raise e, w) => (Raise e, w)
      end
  end.

(** [Client.process] *)
Definition process (w : World) : result unit * World :=
  match attempts MAX_MSGS_PER_ROUND try_send w with
  | (Ok _, w) => attempts MAX_MSGS_PER_ROUND try_receive w
  | (Raise e, w) => (Raise e, w)
  end.

(** [Client.async_request] *)
Definition async_request (ta_type : proto.TransactionType)
    (request_args : list json) (request_optargs : msg) (response_cb : callback)
    (w : World) : result Z * World :=
  let '(ta_id, w) := next_ta_id w in
  let transaction := Transaction_init ta_type ta_id in
  match produce_request transaction request_args request_optargs response_cb with
  | (_, Raise e) => (Raise e, w)
  | (transaction, Ok request_msg) =>
      let out_wire_msg := xcm.dumps request_msg in
      let w := on_client (λ c, set_out_wire_msgs
                                 (out_wire_msgs c ++ [out_wire_msg]) c) w in
      let w := on_client (λ c, set_transactions
                                 (<[ta_id := transaction]> (transactions c)) c)
                         w in
      match try_send w with
      | (Ok _, w) => (Ok ta_id, w)
      | (Raise e, w) => (Raise e, w)
      end
  end.

(** [wait]. [poll.poll()] blocks until the transport is ready and changes
    nothing that the client holds. The loop need not end: the outcome is
    [None] when the caller is still waiting after [fuel] rounds. *)
Fixpoint wait (fuel : nat) (criteria : World → bool) (w : World)
  : option (result unit) * World :=
  if criteria w then (Some (Ok ()), w)
  else
    match fuel with
    | O => (None, w)
    | S fuel =>
        match process w with
        | (Ok _, w) => wait fuel criteria w
        | (Raise e, w) => (Some (Raise e), w)
        end
    end.

(** What a call into the client gives back: the transaction id of an
    asynchronous request, the flag of a send or receive attempt, or what
    [get()] of the adapter returns. *)
Inductive retval :=
| RId (ta_id : Z)
| RBool (b : bool)
| RNone
| RLatency (latency : Z)
| RNotifications (notifications : list (list json * option msg))
| RComplete (args : list json).

(** The criterion that [Call.get] waits for. *)
Definition terminal (ref : nat) (w : World) : bool :=
  match objects w !! ref with
  | Some self =>
      bool_decide (Call_result self = Some COMPLETE)
      || bool_decide (Call_result self = Some FAIL)
  | None => false
  end.

(** [Call.get] *)
Definition Call_get (ref : nat) (fuel : nat) (w : World)
  : option (result unit) * World :=
  match wait fuel (terminal ref) w with
  | (Some (Ok _), w) =>
      match objects w !! ref with
      | Some self =>
          if bool_decide (Call_result self = Some FAIL)
          then
            match reason self with
            | Some reason => (Some (Raise (TransactionError_init reason)), w)
            | None => (Some (Raise (AttributeError "reason")), w)
            end
          else (Some (Ok ()), w)
      | None => (Some (Raise (AttributeError "result")), w)
      end
  | other => other
  end.

(** [get] as the class of the object has it. *)
Definition get (ref : nat) (fuel : nat) (w : World)
  : option (result retval) * World :=
  match Call_get ref fuel w with
  | (Some (Ok _), w) =>
      match objects w !! ref with
      | Some self =>
          match cls self with
          | Call => (Some (Ok RNone), w)
          | LatencyCall =>
              match latency self with
              | Some l => (Some (Ok (RLatency l)), w)
              | None => (Some (Raise (AttributeError "latency")), w)
              end
          | NotifyCall => (Some (Ok (RNotifications (notifications self))), w)
          | CompleteCall =>
              match complete self with
              | Some args => (Some (Ok (RComplete args)), w)
              | None => (Some (Raise (AttributeError "complete")), w)
              end
          end
      | None => (Some (Raise (AttributeError "result")), w)
      end
  | (Some (Raise e), w) => (Some (Raise e), w)
  | (None, w) => (None, w)
  end.

(** [self.ta_id = ta_id] on a [Call] object *)
Definition set_Call_ta_id (ta_id : Z) (self : CallObject) : CallObject :=
  {| cls := cls self; Call_ta_id := Some ta_id;
     Call_result := Call_result self; reason := reason self;
     start := start self; latency := latency self;
     notifications := notifications self; complete := complete self |}.

(** [Client.sync_request]; [call_cls(self)] makes a new object. *)
Definition sync_request (ta_type : proto.TransactionType)
    (request_args : list json) (request_optargs : msg) (c : call_cls)
    (fuel : nat) (w : World) : option (result retval) * World :=
  let ref := fresh (dom (objects w)) in
  let w := set_objects (<[ref := Call_init c (now w)]> (objects w)) w in
  match async_request ta_type request_args request_optargs (call_object ref) w
  with
  | (Raise e, w) => (Some (Raise e), w)
  | (Ok ta_id, w) =>
      let w := set_objects (alter (set_Call_ta_id ta_id) ref (objects w)) w in
      get ref fuel w
  end.

(** [Client.issue_request] *)
Definition issue_request (ta_type : proto.TransactionType)
    (request_args : list json) (request_optargs : msg) (c : option call_cls)
    (response_cb : option callback) (fuel : nat) (w : World)
  : option (result retval) * World :=
  match response_cb with
  | Some response_cb =>
      match async_request ta_type request_args request_optargs response_cb w
      with
      | (Ok ta_id, w) => (Some (Ok (RId ta_id)), w)
      | (Raise e, w) => (Some (Raise e), w)
      end
  | None =>
      match c with
      | None => (Some (Raise (AssertionError "call_cls is not None")), w)
      | Some c => sync_request ta_type request_args request_optargs c fuel w
      end
  end.

(** [Client.hello] *)
Definition hello (response_cb : option callback) (fuel : nat) (w : World)
  : option (result retval) * World :=
  issue_request proto.TA_HELLO
    [JInt (client_id (client w)); JInt proto.VERSION; JInt proto.VERSION] ∅
    (Some CompleteCall) response_cb fuel w.

(** [Client.subscribe]; [filter] is [None] when the caller gives none. *)
Definition subscribe (sub_id : Z) (response_cb : callback) (filter : json)
    (w : World) : result Z * World :=
  async_request proto.TA_SUBSCRIBE [JInt sub_id] {[ "filter" := filter ]}
                response_cb w.

(** [Client.unsubscribe] *)
Definition unsubscribe (sub_id : Z) (response_cb : option callback)
    (fuel : nat) (w : World) : option (result retval) * World :=
  issue_request proto.TA_UNSUBSCRIBE [JInt sub_id] ∅ (Some Call) response_cb
                fuel w.

(** [Client.initial_hello] *)
Definition initial_hello (fuel : nat) (w : World)
  : option (result unit) * World :=
  match hello (Some initial_hello_cb) fuel w with
  | (Some (Ok _), w) =>
      match ready_cb (client w) with
      | None => wait fuel (λ w, negb (is_None (proto_version (client w)))) w
      | Some _ => (Some (Ok ()), w)
      end
  | (Some (Raise e), w) => (Some (Raise e), w)
  | (None, w) => (None, w)
  end.

(** [Client.close] *)
Definition close (w : World) : World :=
  on_client (λ c, set_conn_sock (xcm.close (conn_sock c)) c) w.

(** [Client.__init__]. [connected] is what [xcm.connect(addr,
    xcm.NONBLOCK)] gave: the handle, or the [errno] of the [xcm.error];
    [w] holds what exists beside the new connection. When the constructor
    raises there is no [Client], but the handle it opened is in the world
    that is left. *)
Definition Client_init (client_id : Z) (connected : xcm.socket + Z)
    (ready_cb : option nat) (fuel : nat) (w : World)
  : option (result unit) * World :=
  match connected with
  | inr errno => (Some (Raise (TransportError errno)), w)
  | inl conn_sock =>
      let self :=
        {| client_id := client_id; conn_sock := conn_sock;
           ready_cb := ready_cb; Client_ta_id := 0; out_wire_msgs := [];
           transactions := ∅; proto_version := JNull |} in
      let w := update (set_client self w) in
      match initial_hello fuel w with
      | (Some (Raise e), w) =>
          if is_Error e then (Some (Raise e), close w)
          else (Some (Raise e), w)
      | other => other
      end
  end.

(** ** Finding the server *)

(** A character of a [string] is a code point below 256; these are the
    ones for which [str.isspace()] holds. *)
Definition isspace (c : ascii) : bool :=
  let n := nat_of_ascii c in
  ((9 <=? n) && (n <=? 13) || (28 <=? n) && (n <=? 32)
   || (n =? 133) || (n =? 160))%nat.

Fixpoint lstrip (s : string) : string :=
  match s with
  | String c rest => if isspace c then lstrip rest else s
  | EmptyString => EmptyString
  end.

Fixpoint rstrip (s : string) : string :=
  match s with
  | String c rest =>
      match rstrip rest with
      | EmptyString => if isspace c then EmptyString else String c EmptyString
      | rest => String c rest
      end
  | EmptyString => EmptyString
  end.

(** [s.strip()] *)
Definition strip (s : string) : string := rstrip (lstrip s).

(** How reading a text file ends: at the end of the file, with an
    [IOError] (there is no such file, or it cannot be read), or with
    another exception. *)
Inductive ending := EOF | IOError | Failure (e : exn).

(** What [connect] finds outside the program: the environment variables,
    the text files (the lines that the loop over [open(path)] gets, and
    how reading ends), what [xcm.connect] gives for an address, and the
    number that [random] draws. *)
Record Env := {
  environ : gmap string string;
  files : string → list string * ending;
  network : string → xcm.socket + Z;
  draw : Z
}.

Definition DOMAINS_ENV := "PAF_DOMAINS".
Definition DEFAULT_DOMAINS_DIR := "/run/paf/domains.d".

(** The file of a domain: ["%s/%s" % (domains_dir, domain)]. *)
Definition domains_file (env : Env) (domain : string) : string :=
  let domains_dir := DEFAULT_DOMAINS_DIR in
  let domains_dir :=
    match environ env !! DOMAINS_ENV with
    | Some dir => dir
    | None => domains_dir
    end in
  domains_dir ++ "/" ++ domain.

(** The loop of [domain_addrs] and the [except] clause around it.
    [addr[0]] of an empty string is an [IndexError], which the clause does
    not catch; an [IOError] gives the empty list, whatever was read. *)
Fixpoint read_addrs (lines : list string) (stop : ending)
    (addrs : list string) : result (list string) :=
  match lines with
  | line :: lines =>
      let addr := strip line in
      match addr with
      | EmptyString => Raise IndexError
      | String c _ =>
          if bool_decide (c = "#"%char) then read_addrs lines stop addrs
          else read_addrs lines stop (addrs ++ [addr])%list
      end
  | [] =>
      match stop with
      | EOF => Ok addrs
      | IOError => Ok []
      | Failure e => Raise e
      end
  end.

(** [domain_addrs] *)
Definition domain_addrs (env : Env) (domain : string) : result (list string) :=
  let '(lines, stop) := files env (domains_file env domain) in
  read_addrs lines stop [].

(** [domain_addr] *)
Definition domain_addr (env : Env) (domain : string)
  : result (option string) :=
  match domain_addrs env domain with
  | Ok addrs =>
      if bool_decide (0 < length addrs)%nat then Ok (head addrs) else Ok None
  | Raise e => Raise e
  end.

(** [random.randint(a, b)]: a number from [a] to [b], both included. *)
Definition randint (env : Env) (a b : Z) : Z := a + draw env `mod` (b - a + 1).

(** [allocate_client_id] *)
Definition allocate_client_id (env : Env) : Z :=
  randint env 0 (Z.shiftl 1 63 - 1).

(** [connect]; [client_id] and [ready_cb] are [None] when the caller
    gives none. *)
Definition connect (env : Env) (domain_or_addr : string)
    (client_id : option Z) (ready_cb : option nat) (fuel : nat) (w : World)
  : option (result unit) * World :=
  match domain_addr env domain_or_addr with
  | Raise e => (Some (Raise e), w)
  | Ok addr =>
      let addr :=
        match addr with None => domain_or_addr | Some addr => addr end in
      let client_id :=
        match client_id with
        | None => allocate_client_id env
        | Some client_id => client_id
        end in
      Client_init client_id (network env addr) ready_cb fuel w
  end.

(** ** Runs of the connection *)

(** The calls a caller makes on a connection. The calls of a caller with an
    event loop of its own do not block; a request may, when it is given no
    handler. A run goes on after a call that raised, and ends with a call
    that is still waiting after its [fuel] rounds. *)
Inductive op :=
| do_next_ta_id
| do_async_request (ta_type : proto.TransactionType) (request_args : list json)
                   (request_optargs : msg) (response_cb : callback)
| do_issue_request (ta_type : proto.TransactionType) (request_args : list json)
                   (request_optargs : msg) (c : option call_cls)
                   (response_cb : option callback) (fuel : nat)
| do_try_send
| do_try_receive
| do_process.

Definition returning {A} (f : A → retval) (x : result A * World)
  : option (result retval) * World :=
  match x with
  | (Ok a, w) => (Some (Ok (f a)), w)
  | (Raise e, w) => (Some (Raise e), w)
  end.

Definition perform (o : op) (w : World) : option (result retval) * World :=
  match o with
  | do_next_ta_id =>
      let '(ta_id, w) := next_ta_id w in (Some (Ok (RId ta_id)), w)
  | do_async_request ta_type request_args request_optargs response_cb =>
      returning RId
        (async_request ta_type request_args request_optargs response_cb w)
  | do_issue_request ta_type request_args request_optargs c response_cb fuel =>
      issue_request ta_type request_args request_optargs c response_cb fuel w
  | do_try_send => returning RBool (try_send w)
  | do_try_receive => returning RBool (try_receive w)
  | do_process => returning (λ _, RNone) (process w)
  end.

(** What each call came to, and the world at the end. *)
Fixpoint run (ops : list op) (w : World)
  : list (option (result retval)) * World :=
  match ops with
  | [] => ([], w)
  | o :: ops =>
      let '(r, w) := perform o w in
      match r with
      | Some _ => let '(rs, w) := run ops w in (r :: rs, w)
      | None => ([None], w)
      end
  end.

(** The transaction ids that a run handed out. *)
Fixpoint ids (rs : list (option (result retval))) : list Z :=
  match rs with
  | Some (Ok (RId ta_id)) :: rs => ta_id :: ids rs
  | _ :: rs => ids rs
  | [] => []
  end.

(** The request that a call puts on the queue, if [produce_request] does
    not raise. *)
Definition request (ta_type : proto.TransactionType)
    (request_args : list json) (request_optargs : msg) (response_cb : callback)
    (w : World) : list xcm.bytes :=
  match produce_request (Transaction_init ta_type (Client_ta_id (client w)))
                        request_args request_optargs response_cb with
  | (_, Ok request_msg) => [xcm.dumps request_msg]
  | (_, Raise _) => []
  end.

Definition request_of (o : op) (w : World) : list xcm.bytes :=
  match o with
  | do_async_request ta_type request_args request_optargs response_cb =>
      request ta_type request_args request_optargs response_cb w
  | do_issue_request ta_type request_args request_optargs c response_cb _ =>
      match response_cb, c with
      | Some response_cb, _ =>
          request ta_type request_args request_optargs response_cb w
      | None, Some _ =>
          request ta_type request_args request_optargs
                  (call_object (fresh (dom (objects w)))) w
      | None, None => []
      end
  | _ => []
  end.

(** The requests that a run issued, in the order of the calls. *)
Fixpoint issued (ops : list op) (w : World) : list xcm.bytes :=
  match ops with
  | [] => []
  | o :: ops =>
      request_of o w
      ++ match (perform o w).1 with
         | Some _ => issued ops (perform o w).2
         | None => []
         end
  end.

(** The readiness interest that goes with an outgoing queue: receivable
    always, sendable when there is something to send. *)
Definition interest (q : list xcm.bytes) : Z :=
  match q with
  | [] => xcm.SO_RECEIVABLE
  | _ :: _ => Z.lor xcm.SO_RECEIVABLE xcm.SO_SENDABLE
  end.

(** The interest registered with the transport is the one of the queue. *)
Definition ready (w : World) : Prop :=
  xcm.condition (conn_sock (client w)) = interest (out_wire_msgs (client w)).

(** The interest of the queue is registered, and registering it was the
    last thing asked of the transport. *)
Definition recomputed (w : World) : Prop :=
  ready w
  ∧ last (xcm.calls (conn_sock (client w)))
    = Some (xcm.Update (interest (out_wire_msgs (client w)))).

(** The registry holds only ids that the allocator has handed out. *)
Definition registry_ok (w : World) : Prop :=
  (0 ≤ Client_ta_id (client w))%Z
  ∧ ∀ k, is_Some (transactions (client w) !! k) →
         (0 ≤ k < Client_ta_id (client w))%Z.

(** What has left the queue for good, then what is still in it. *)
Definition outgoing (w : World) : list xcm.bytes :=
  xcm.departed (xcm.calls (conn_sock (client w))) ++ out_wire_msgs (client w).

(** ** Notions that the properties are stated with *)

(** The combinations of message kind, state and interaction pattern that
    [consume_message] takes, with the event and the state that follow:
    ACCEPT when requesting in a multi-response transaction, NOTIFY when
    accepted, COMPLETE when requesting in a single-response transaction or
    when accepted in a multi-response one, and FAIL in any state. *)
Inductive legal
  : string → TransactionState → proto.InteractionType →
    EventType → TransactionState → Prop :=
| legal_accept :
    legal proto.MSG_TYPE_ACCEPT REQUESTING proto.MULTI_RESPONSE ACCEPT ACCEPTED
| legal_notify ia :
    legal proto.MSG_TYPE_NOTIFY ACCEPTED ia NOTIFY ACCEPTED
| legal_complete_single :
    legal proto.MSG_TYPE_COMPLETE REQUESTING proto.SINGLE_RESPONSE
          COMPLETE TERMINATED
| legal_complete_multi :
    legal proto.MSG_TYPE_COMPLETE ACCEPTED proto.MULTI_RESPONSE
          COMPLETE TERMINATED
| legal_fail s ia :
    legal proto.MSG_TYPE_FAIL s ia FAIL TERMINATED.

(** The fields of a message kind in a schema entry. *)
Definition fields_of (ty : proto.TransactionType) (event : EventType)
  : list proto.Field * list proto.Field :=
  match event with
  | ACCEPT => (proto.accept_fields ty, proto.opt_accept_fields ty)
  | NOTIFY => (proto.notify_fields ty, proto.opt_notify_fields ty)
  | COMPLETE => (proto.complete_fields ty, proto.opt_complete_fields ty)
  | FAIL => (proto.fail_fields ty, proto.opt_fail_fields ty)
  end.

(** The error of the final [else] of [consume_message]. *)
Definition invalid_message_type (self : Transaction) (kind : string) : exn :=
  ProtocolError
    (InvalidMessageType (JStr kind) (proto.cmd (ta_type self)) (ta_id self)
                        (state_name (state self))).

(** What the caller of [consume_message] finds when the handler was called
    with [args] and [optargs]. *)
Definition delivered (self : Transaction) (event : EventType)
    (args : list json) (optargs : msg) (w : World)
  : Transaction * result unit * World :=
  (self, (call_cb self event args optargs w).1,
   (call_cb self event args optargs w).2).

(** What of the connection a handler cannot reach. *)
Definition engine (w : World) :=
  (conn_sock (client w), out_wire_msgs (client w), transactions (client w),
   Client_ta_id (client w)).

(** A step that hands out no id, puts nothing on the queue and registers no
    transaction. *)
Definition quiet (w w' : World) : Prop :=
  Client_ta_id (client w') = Client_ta_id (client w)
  ∧ outgoing w' = outgoing w
  ∧ (∀ k, is_Some (transactions (client w') !! k) →
          is_Some (transactions (client w) !! k)).

(** The send and receive attempts made on the transport so far. *)
Definition io (w : World) : list xcm.call :=
  filter (λ c, xcm.is_io c = true) (xcm.calls (conn_sock (client w))).



(** The script of a transport on which no send fails for good. *)
Definition sendable (script : list (option Z)) : Prop :=
  Forall (λ o, o = None ∨ o = Some xcm.EAGAIN) script.

(** The errors of the codec. *)
Definition field_error (e : exn) : Prop :=
  ∃ n, e = ProtocolError (MissingField n) ∨ e = ProtocolError (InvalidField n).

(** The handshake transaction as [initial_hello] registers it. *)
Definition hello_transaction : Transaction :=
  {| ta_id := 0; ta_type := proto.TA_HELLO; state := REQUESTING;
     cb := Some initial_hello_cb |}.

(** A reply to the handshake that ends it badly: a COMPLETE that selects
    another version than the client requires, or a FAIL. *)
Definition handshake_failure (reply : msg) : Prop :=
  reply !! "ta-id" = Some (JInt 0)
  ∧ reply !! "ta-cmd" = Some (JStr "hello")
  ∧ ((reply !! "msg-type" = Some (JStr "complete")
      ∧ ∃ v, reply !! "protocol-version" = Some (JInt v)
             ∧ v ≠ proto.VERSION)
     ∨ reply !! "msg-type" = Some (JStr "fail")).

(** A connection that waits for the reply to its handshake, on a transport
    that will deliver [recvs]. *)
Definition handshaking (recvs : list (xcm.bytes + Z)) (w : World) : Prop :=
  transactions (client w) !! 0 = Some hello_transaction
  ∧ proto_version (client w) = JNull
  ∧ ready_cb (client w) = None
  ∧ sendable (xcm.sends (conn_sock (client w)))
  ∧ xcm.receives (conn_sock (client w)) = recvs.

(** ** Concrete connections *)

(** A new transport handle with its scripts. *)
Definition socket_of (sends : list (option Z)) (receives : list (xcm.bytes + Z))
  : xcm.socket :=
  {| xcm.sends := sends; xcm.receives := receives; xcm.condition := 0;
     xcm.closed := false; xcm.calls := [] |}.

(** The world before there is a connection; its [client] is a place
    holder. *)
Definition blank : World :=
  {| client :=
       {| client_id := 0; conn_sock := socket_of [] []; ready_cb := None;
          Client_ta_id := 0; out_wire_msgs := []; transactions := ∅;
          proto_version := JNull |};
     objects := ∅; user_calls := []; now := 0 |}.

(** A message of the server. *)
Definition message (ta_id : Z) (cmd kind : string)
    (fields : list (string * json)) : msg :=
  <["ta-id" := JInt ta_id]>
    (<["ta-cmd" := JStr cmd]> (<["msg-type" := JStr kind]> (list_to_map fields))).

(** The world that [Client(7, addr, ready_cb)] leaves when the transport
    takes the request and will deliver [receives]. *)
Definition connected (ready_cb : option nat) (receives : list (xcm.bytes + Z))
  : World :=
  (Client_init 7 (inl (socket_of [None] receives)) ready_cb 0 blank).2.

(** The handshake transaction after its end, with a handler of the
    caller. *)
Definition ended_transaction : Transaction :=
  {| ta_id := 0; ta_type := proto.TA_HELLO; state := TERMINATED;
     cb := Some (user_handler 0) |}.

(** The replies to the handshake. *)
Definition hello_complete (version : Z) (more : list (string * json)) : msg :=
  message 0 "hello" "complete" (("protocol-version", JInt version) :: more).

Definition hello_fail : msg := message 0 "hello" "fail" [].

(** What [consume_message] gets of a message: [try_receive] has pulled the
    transaction id. *)
Definition routed (m : msg) : msg := delete "ta-id" m.

(** The connection after an asynchronous handshake that went well, with
    what the transport will deliver next. *)
Definition after_handshake (next : list (xcm.bytes + Z)) : World :=
  (try_receive
     (connected (Some 0%nat)
        (inl (xcm.Encoded (hello_complete proto.VERSION [])) :: next))).2.

(** Such a connection, which is to receive the failure of the transaction
    that it issues next. *)
Definition before_unsubscribe (fail_fields : list (string * json)) : World :=
  after_handshake
    [inl (xcm.Encoded (message 1 "unsubscribe" "fail" fail_fields))].

(** After the handshake the caller unsubscribes with a handler of its own;
    the transport will deliver [next]. *)
Definition unsubscribing (next : list (xcm.bytes + Z)) : World :=
  (async_request proto.TA_UNSUBSCRIBE [JInt 5] ∅ (user_handler 1)
                 (after_handshake next)).2.

(** A completion with a field that the schema does not have, and then a
    failure, both for transaction 1. *)
Definition bogus_then_fail : list (xcm.bytes + Z) :=
  [inl (xcm.Encoded (message 1 "unsubscribe" "complete" [("bogus", JNull)]));
   inl (xcm.Encoded (message 1 "unsubscribe" "fail" []))].

(** A transport that would block once each way and then delivers a
    handshake reply that selects version 3. *)
Definition version_3_socket : xcm.socket :=
  socket_of [Some xcm.EAGAIN; None]
            [inr xcm.EAGAIN; inl (xcm.Encoded (hello_complete 3 []))].

(** A subscription request with a filter. *)
Definition filter_optargs : msg := {[ "filter" := JStr "(name=x)" ]}.

(** ** Further notions *)

(** A line of a domains file that is a comment, once stripped. *)
Definition comment (addr : string) : bool :=
  match addr with
  | String c _ => bool_decide (c = "#"%char)
  | EmptyString => false
  end.

(** A line with nothing on it but white space. *)
Definition empty_line (line : string) : Prop := strip line = "".

(** An address as a domains file should give it: not empty, no comment,
    and no white space around it. *)
Definition clean (addr : string) : Prop :=
  addr ≠ "" ∧ comment addr = false ∧ strip addr = addr.

(** The names of the fields that every message has. *)
Definition header : list string := ["ta-cmd"; "ta-id"; "msg-type"].

(** The error that [consume_message] raises for a message that is not of
    the transaction's command, by what the message has for a command. *)
Definition command_error (self : Transaction) (ta_cmd : option json)
  : violation :=
  match ta_cmd with
  | None => MissingField "ta-cmd"
  | Some (JStr c) => WrongCommand (ta_id self) (proto.cmd (ta_type self)) (JStr c)
  | Some _ => InvalidField "ta-cmd"
  end.

(** The registered transactions are as the requests made them: each is
    under its own id, has left the state IDLE, and has its handler. *)
Definition well_formed (w : World) : Prop :=
  ∀ k t, transactions (client w) !! k = Some t →
         ta_id t = k ∧ state t ≠ IDLE ∧ is_Some (cb t).

(** Nothing has changed but the queue and what the transport has been
    asked to send and to receive: the registry, the id counter, the
    protocol version, the [Call] objects and the record of the handler
    calls are the same, and the transport handle is as open as it was. *)
Definition untouched (w w' : World) : Prop :=
  transactions (client w') = transactions (client w)
  ∧ Client_ta_id (client w') = Client_ta_id (client w)
  ∧ proto_version (client w') = proto_version (client w)
  ∧ ready_cb (client w') = ready_cb (client w)
  ∧ client_id (client w') = client_id (client w)
  ∧ objects w' = objects w
  ∧ user_calls w' = user_calls w
  ∧ now w' = now w
  ∧ xcm.closed (conn_sock (client w')) = xcm.closed (conn_sock (client w)).

(** The outcome of a receive attempt that gets no message: the transport
    would block or fails, the peer has closed the connection, or what it
    sent is no JSON. *)
Definition no_message (outcome : xcm.bytes + Z) : result bool :=
  match outcome with
  | inr errno =>
      if bool_decide (errno = xcm.EAGAIN) then Ok false
      else Raise (TransportError errno)
  | inl xcm.Empty => Raise (ProtocolError ServerClosed)
  | inl _ => Raise (ProtocolError DecodingFailed)
  end.

(** What the transport gives to the next [receive]. *)
Definition coming (w : World) : xcm.bytes + Z :=
  default (inr xcm.EAGAIN) (head (xcm.receives (conn_sock (client w)))).

(** The registry after a message was handed to the transaction [k], which
    [consume_message] left as [t] with the outcome [r]. *)
Definition routed_registry (k : Z) (t : Transaction) (r : result unit)
    (ts : gmap Z Transaction) : gmap Z Transaction :=
  match r with
  | Ok _ =>
      if bool_decide (state t = TERMINATED) then delete k ts
      else <[k := t]> ts
  | Raise _ => <[k := t]> ts
  end.

(** The new [Client] as the constructor has it before the handshake. *)
Definition new_client (client_id : Z) (conn_sock : xcm.socket)
    (ready_cb : option nat) : Client :=
  {| client_id := client_id; conn_sock := conn_sock; ready_cb := ready_cb;
     Client_ta_id := 0; out_wire_msgs := []; transactions := ∅;
     proto_version := JNull |}.

(** The world after the handler of the handshake has taken the version. *)
Definition greeted (w : World) : World :=
  let w := set_client (set_proto_version (JInt proto.VERSION) (client w)) w in
  match ready_cb (client w) with
  | Some h => record_call (Ready h) w
  | None => w
  end.

(** An exception that is not an [AttributeError]: no attribute was read
    before it was assigned. *)
Definition fine {A} (r : result A) : Prop :=
  ∀ a, r ≠ Raise (AttributeError a).

(** The [Call] objects stay, each of its class. *)
Definition persist (w w' : World) : Prop :=
  ∀ ref o, objects w !! ref = Some o →
           ∃ o', objects w' !! ref = Some o' ∧ cls o' = cls o.

(** A [Call] object has the attributes that [get()] reads for the result
    it has: the reason of a FAIL, and for a COMPLETE the latency of a
    [LatencyCall] and the arguments of a [CompleteCall]. *)
Definition adapter_ok (o : CallObject) : Prop :=
  (Call_result o = Some FAIL → is_Some (reason o))
  ∧ (cls o = LatencyCall → Call_result o = Some COMPLETE →
     is_Some (latency o))
  ∧ (cls o = CompleteCall → Call_result o = Some COMPLETE →
     is_Some (complete o)).

(** A handler that is there to be called. *)
Definition callable (w : World) (handler : callback) : Prop :=
  match handler with
  | call_object ref => is_Some (objects w !! ref)
  | _ => True
  end.

(** A connection in which every attribute that will be read has been
    assigned. *)
Definition sound (w : World) : Prop :=
  well_formed w
  ∧ (∀ ref o, objects w !! ref = Some o → adapter_ok o)
  ∧ (∀ k t handler, transactions (client w) !! k = Some t →
                    cb t = Some handler → callable w handler).

(** A value that is no [Call] object: the handlers that a caller has of
    its own. *)
Definition own_handler (handler : callback) : Prop :=
  match handler with call_object _ => False | _ => True end.

(** A call with a handler of the caller's own, or with none. *)
Definition own_handlers (o : op) : Prop :=
  match o with
  | do_async_request _ _ _ response_cb => own_handler response_cb
  | do_issue_request _ _ _ _ (Some response_cb) _ => own_handler response_cb
  | _ => True
  end.

(** What [get()] returns for a [Call] object, by its class. *)
Definition returned (self : CallObject) (v : retval) : Prop :=
  match cls self with
  | Call => v = RNone
  | LatencyCall => ∃ l, latency self = Some l ∧ v = RLatency l
  | NotifyCall => v = RNotifications (notifications self)
  | CompleteCall => ∃ args, complete self = Some args ∧ v = RComplete args
  end.

(** What a [NotifyCall] keeps of a NOTIFY event. *)
Definition notification (args : list json) (optargs : msg)
  : list json * option msg :=
  (args, if bool_decide (0 < size optargs)%nat then Some optargs else None).

(** A [Call] object after a series of calls, each with a transaction id,
    an event, and the arguments; an exception that a call raises goes to
    its caller. *)
Definition called (now : Z) (self : CallObject)
    (calls : list (Z * EventType * list json * msg)) : CallObject :=
  foldl (λ self c,
           (adapter__call__ self now c.1.1.1 c.1.1.2 c.1.2 c.2).2) self calls.

(** The notifications among a series of calls. *)
Definition notified (calls : list (Z * EventType * list json * msg))
  : list (list json * option msg) :=
  omap (λ c, if bool_decide (c.1.1.2 = NOTIFY)
             then Some (notification c.1.2 c.2) else None) calls.

(** A schema entry whose transactions end with a COMPLETE without fields
    or with a FAIL that may give a reason: the kind of the requests that
    the client waits for with the plain [Call] adapter. *)
Definition plain (ty : proto.TransactionType) : Prop :=
  proto.ia_type ty = proto.SINGLE_RESPONSE
  ∧ proto.complete_fields ty = [] ∧ proto.opt_complete_fields ty = []
  ∧ proto.fail_fields ty = []
  ∧ proto.opt_fail_fields ty = [proto.FIELD_FAIL_REASON].

(** The transaction of a request that is waited for, and its [Call]
    object, as [sync_request] has made them when it begins to wait. *)
Definition waited_for (ty : proto.TransactionType) (w : World) : Transaction :=
  {| ta_id := Client_ta_id (client w); ta_type := ty; state := REQUESTING;
     cb := Some (call_object (fresh (dom (objects w)))) |}.

Definition waiting (w : World) : CallObject :=
  set_Call_ta_id (Client_ta_id (client w)) (Call_init Call (now w)).

(** The [Call] object after the event that ended the transaction. *)
Definition ended (event : EventType) (reason : option json)
    (self : CallObject) : CallObject :=
  {| cls := cls self; Call_ta_id := Call_ta_id self;
     Call_result := Some event; reason := reason;
     start := start self; latency := latency self;
     notifications := notifications self; complete := complete self |}.


(** ** Further concrete connections *)

(** [ECONNREFUSED] and [EPIPE]: nobody listens, and the peer is gone. *)
Definition ECONNREFUSED : Z := 111.

Definition EPIPE : Z := 32.

(** A machine on which [PAF_DOMAINS] names a directory with one domains
    file, [lab]; the first server of the domain refuses connections. *)
Definition lab_env : Env :=
  {| environ := {[ "PAF_DOMAINS" := "/etc/paf" ]};
     files := λ path,
       if bool_decide (path = "/etc/paf/lab")
       then (["# the servers of the lab";
              "  tls:10.0.0.1:4711 ";
              "tls:10.0.0.2:4711"], EOF)
       else ([], IOError);
     network := λ addr,
       if bool_decide (addr = "tls:10.0.0.1:4711") then inr ECONNREFUSED
       else inl (socket_of [] []);
     draw := 0 |}.

(** A connection whose transport would not take the handshake request at
    first: the request waits on the queue with the one behind it. The
    transport will take the first of them and fail for good on the
    second. *)
Definition congested : World :=
  (async_request proto.TA_UNSUBSCRIBE [JInt 5] ∅ (user_handler 1)
     (Client_init 7
        (inl (socket_of [Some xcm.EAGAIN; Some xcm.EAGAIN; None; Some EPIPE]
                        []))
        (Some 0%nat) 0 blank).2).2.

(** A transport that would block once each way and then delivers a
    handshake reply that selects the version of the client. *)
Definition version_2_socket : xcm.socket :=
  socket_of [Some xcm.EAGAIN; None]
            [inr xcm.EAGAIN;
             inl (xcm.Encoded (hello_complete proto.VERSION []))].

(** After the handshake: the transport would block once and then
    delivers the reply that ends the transaction 1. *)
Definition replying (kind : string) (fields : list (string * json)) : World :=
  after_handshake
    [inr xcm.EAGAIN; inl (xcm.Encoded (message 1 "unsubscribe" kind fields))].

(** * Properties *)

Local Close Scope string_scope.

(** The body of a send or receive attempt, before its [finally] clause:
    name its outcome and the world it leaves. *)
Ltac name_body r w :=
  match goal with
  | |- context [let '(_, _) := ?X in _] => destruct X as [r w] eqn:?
  end.

(** ** What a handler and the transport leave alone *)

(** A handler does not touch the transport, the queue, the registry or the
    id counter. *)
Lemma invoke_engine cb ta_id event args optargs w r w' :
  invoke cb ta_id event args optargs w = (r, w') → engine w' = engine w.
Proof.
  unfold invoke, Client_initial_hello_cb.
  intros H; repeat case_match; simplify_eq; reflexivity.
Qed.

Lemma consume_message_engine self in_msg w self' r w' :
  consume_message self in_msg w = (self', r, w') → engine w' = engine w.
Proof.
  unfold consume_message, call_cb.
  intros H; repeat case_match; simplify_eq; try reflexivity.
  eauto using invoke_engine.
Qed.

Lemma engine_inv w w' :
  engine w' = engine w →
  conn_sock (client w') = conn_sock (client w)
  ∧ out_wire_msgs (client w') = out_wire_msgs (client w)
  ∧ transactions (client w') = transactions (client w)
  ∧ Client_ta_id (client w') = Client_ta_id (client w).
Proof. unfold engine. intros H. by simplify_eq. Qed.

(** Turn what is known of a call of [consume_message] into what it left
    alone. *)
Tactic Notation "handler_frame" "as" simple_intropattern(pat) :=
  match goal with
  | H : consume_message _ _ _ = _ |- _ =>
      apply consume_message_engine, engine_inv in H; destruct H as pat
  end.

Lemma departed_app a b :
  xcm.departed (a ++ b) = xcm.departed a ++ xcm.departed b.
Proof.
  induction a as [|c a IH]; [done|].
  destruct c; simpl; rewrite ?IH; try done. by case_bool_decide.
Qed.

(** [update] registers the interest that goes with the queue. *)
Lemma update_ready w : ready (update w).
Proof.
  unfold ready, update, interest; simpl.
  destruct (out_wire_msgs (client w)); simpl; [done|].
  done.
Qed.

Lemma update_engine w :
  out_wire_msgs (client (update w)) = out_wire_msgs (client w)
  ∧ transactions (client (update w)) = transactions (client w)
  ∧ Client_ta_id (client (update w)) = Client_ta_id (client w)
  ∧ xcm.departed (xcm.calls (conn_sock (client (update w))))
    = xcm.departed (xcm.calls (conn_sock (client w)))
  ∧ xcm.sends (conn_sock (client (update w)))
    = xcm.sends (conn_sock (client w)).
Proof.
  unfold update; simpl. rewrite departed_app; simpl. by rewrite app_nil_r.
Qed.

Lemma try_send_ready w : ready (try_send w).2.
Proof.
  unfold try_send. repeat case_match; simpl; apply update_ready.
Qed.

(** A send attempt changes neither the registry nor the id counter, and
    what has left the queue and what is in it stay the same sequence. *)
Lemma try_send_frame w :
  transactions (client (try_send w).2) = transactions (client w)
  ∧ Client_ta_id (client (try_send w).2) = Client_ta_id (client w)
  ∧ outgoing (try_send w).2 = outgoing w.
Proof.
  unfold try_send, outgoing.
  destruct (out_wire_msgs (client w)) as [|m rest] eqn:Hq; simpl.
  { rewrite Hq, departed_app; simpl. by rewrite !app_nil_r. }
  destruct (xcm.sends (conn_sock (client w))) as [|[errno|] script];
    simpl; repeat case_bool_decide; simpl;
    rewrite !departed_app; simpl; repeat case_bool_decide; simplify_eq;
    rewrite ?app_nil_r, <-?app_assoc; done.
Qed.

Lemma try_send_objects w :
  objects (try_send w).2 = objects w
  ∧ xcm.receives (conn_sock (client (try_send w).2))
    = xcm.receives (conn_sock (client w))
  ∧ xcm.closed (conn_sock (client (try_send w).2))
    = xcm.closed (conn_sock (client w))
  ∧ proto_version (client (try_send w).2) = proto_version (client w)
  ∧ ready_cb (client (try_send w).2) = ready_cb (client w).
Proof.
  unfold try_send.
  destruct (out_wire_msgs (client w)) as [|m rest] eqn:Hq; simpl; [done|].
  destruct (xcm.sends (conn_sock (client w))) as [|[errno|] script];
    simpl; repeat case_bool_decide; done.
Qed.

Lemma registered_Some (v : json) (ts : gmap Z Transaction) k t :
  key v ≫= (λ k, (k,.) <$> ts !! k) = Some (k, t) →
  key v = Some k ∧ ts !! k = Some t.
Proof.
  destruct (key v) as [k0|]; simpl; [|done].
  destruct (ts !! k0) eqn:H; simpl; [|done].
  intros ?; by simplify_eq.
Qed.

(** A receive attempt leaves the queue, the id counter and the send script
    alone and registers no transaction. *)
Lemma try_receive_frame w :
  out_wire_msgs (client (try_receive w).2) = out_wire_msgs (client w)
  ∧ Client_ta_id (client (try_receive w).2) = Client_ta_id (client w)
  ∧ xcm.sends (conn_sock (client (try_receive w).2))
    = xcm.sends (conn_sock (client w))
  ∧ outgoing (try_receive w).2 = outgoing w
  ∧ (∀ k, is_Some (transactions (client (try_receive w).2) !! k) →
          is_Some (transactions (client w) !! k)).
Proof.
  unfold try_receive, outgoing.
  destruct (xcm.receive (conn_sock (client w))) as [outcome sock] eqn:Hrecv.
  unfold xcm.receive in Hrecv. simplify_eq.
  set (w1 := on_client _ w).
  assert (Hw1 : out_wire_msgs (client w1) = out_wire_msgs (client w)
          ∧ Client_ta_id (client w1) = Client_ta_id (client w)
          ∧ xcm.sends (conn_sock (client w1)) = xcm.sends (conn_sock (client w))
          ∧ xcm.departed (xcm.calls (conn_sock (client w1)))
            = xcm.departed (xcm.calls (conn_sock (client w)))
          ∧ transactions (client w1) = transactions (client w)).
  { subst w1; simpl. rewrite departed_app; simpl. by rewrite app_nil_r. }
  clearbody w1. destruct Hw1 as (Hq & Hid & Hs & Hd & Ht).
  name_body r w2.
  assert (out_wire_msgs (client w2) = out_wire_msgs (client w1)
          ∧ Client_ta_id (client w2) = Client_ta_id (client w1)
          ∧ conn_sock (client w2) = conn_sock (client w1)
          ∧ (∀ k, is_Some (transactions (client w2) !! k) →
                  is_Some (transactions (client w1) !! k))) as (Hq2 & Hid2 & Hs2 & Ht2).
  { repeat case_match; simplify_eq; simpl; try done.
    all: handler_frame as (-> & -> & Ht' & ->).
    all: repeat split; try done.
    all: intros k'; rewrite Ht'.
    all: match goal with
         | H : _ ≫= _ = Some _ |- _ =>
             apply registered_Some in H; destruct H as [_ Hk]
         end.
    all: try (rewrite lookup_delete; destruct (decide (_ = k')); [by intros ?%is_Some_None|]).
    all: rewrite lookup_insert; destruct (decide (_ = k')); subst; eauto. }
  cbn [snd]. destruct (update_engine w2) as (Eq & Et & Ei & Ed & Es).
  repeat split.
  - by rewrite Eq, Hq2, Hq.
  - by rewrite Ei, Hid2, Hid.
  - by rewrite Es, Hs2, Hs.
  - by rewrite Ed, Eq, Hs2, Hd, Hq2, Hq.
  - intros k Hk. rewrite Et in Hk. rewrite <-Ht. eauto.
Qed.

Lemma try_receive_ready w : ready (try_receive w).2.
Proof.
  unfold try_receive.
  repeat (let r := fresh "r" in let w := fresh "w" in name_body r w).
  apply update_ready.
Qed.

(** ** Rounds and runs *)

(** What every attempt preserves, a round of attempts preserves. *)
Section attempts.
Variable R : World → World → Prop.
Variable attempt : World → result bool * World.
Hypothesis R_refl : ∀ w, R w w.
Hypothesis R_trans : ∀ a b c, R a b → R b c → R a c.
Hypothesis R_step : ∀ w, R w (attempt w).2.

Lemma attempts_closure n w : R w (attempts n attempt w).2.
Proof.
  revert w; induction n as [|n IH]; intros w; simpl; [done|].
  pose proof (R_step w) as Hs.
  destruct (attempt w) as [[[]|e] w']; simpl in *; eauto.
Qed.
End attempts.

Lemma quiet_refl w : quiet w w.
Proof. by unfold quiet. Qed.

Lemma quiet_trans a b c : quiet a b → quiet b c → quiet a c.
Proof.
  intros (? & ? & ?) (? & ? & ?). repeat split; [congruence..|eauto].
Qed.

Lemma try_send_quiet w : quiet w (try_send w).2.
Proof.
  destruct (try_send_frame w) as (Ht & ? & ?). repeat split; try done.
  by rewrite Ht.
Qed.

Lemma try_receive_quiet w : quiet w (try_receive w).2.
Proof.
  destruct (try_receive_frame w) as (? & ? & ? & ? & ?). by repeat split.
Qed.

Lemma process_quiet w : quiet w (process w).2.
Proof.
  unfold process. generalize MAX_MSGS_PER_ROUND; intros n.
  pose proof (attempts_closure quiet try_send quiet_refl quiet_trans
                try_send_quiet n w) as H1.
  destruct (attempts n try_send w) as [[[]|e] w1]; cbn [snd] in *; [|done].
  eapply quiet_trans; [done|].
  apply (attempts_closure quiet try_receive quiet_refl quiet_trans
           try_receive_quiet).
Qed.

(** A request hands out the next id, puts its message at the back of the
    queue and registers its transaction under the id. *)
Lemma async_request_spec ty args optargs cb w :
  let x := async_request ty args optargs cb w in
  Client_ta_id (client x.2) = Client_ta_id (client w) + 1
  ∧ (∀ id, x.1 = Ok id → id = Client_ta_id (client w))
  ∧ outgoing x.2 = outgoing w ++ request ty args optargs cb w
  ∧ (∀ k, is_Some (transactions (client x.2) !! k) →
          is_Some (transactions (client w) !! k) ∨ k = Client_ta_id (client w)).
Proof.
  unfold async_request, request; simpl.
  destruct (produce_request _ _ _ _) as [t [m|e]]; simpl.
  - match goal with |- context [try_send ?W] => set (w1 := W) end.
    destruct (try_send_frame w1) as (Ht & Hid & Ho).
    destruct (try_send w1) as [[b|e] w2] eqn:Hts; simpl in *.
    all: rewrite Ht, Hid, Ho; subst w1; unfold outgoing; simpl.
    all: repeat split; try done; try by rewrite app_assoc.
    all: try (intros; by simplify_eq).
    all: intros k; rewrite lookup_insert; destruct (decide (_ = k)); eauto.
  - unfold outgoing; simpl. rewrite app_nil_r. repeat split; eauto. done.
Qed.

(** Waiting is a number of rounds. *)
Lemma wait_quiet fuel criteria w : quiet w (wait fuel criteria w).2.
Proof.
  revert w; induction fuel as [|fuel IH]; intros w; cbn [wait];
    destruct (criteria w); cbn [snd]; try apply quiet_refl.
  pose proof (process_quiet w) as Hp.
  destruct (process w) as [[[]|e] w1]; cbn [snd] in *; [|done].
  eapply quiet_trans; [done|apply IH].
Qed.

Lemma get_quiet ref fuel w :
  quiet w (get ref fuel w).2
  ∧ ∀ id, (get ref fuel w).1 ≠ Some (Ok (RId id)).
Proof.
  unfold get, Call_get. pose proof (wait_quiet fuel (terminal ref) w) as Hw.
  destruct (wait fuel (terminal ref) w) as [[[[]|e]|] w1]; cbn [snd] in *.
  all: repeat case_match; simplify_eq; cbn [fst snd]; done.
Qed.

(** A request through [issue_request]: with a handler it is
    [async_request]; without one, the adapter that is made for it and the
    wait for its end change nothing of this. *)
Lemma issue_request_spec ty args optargs c cb fuel w :
  let x := issue_request ty args optargs c cb fuel w in
  Client_ta_id (client w) ≤ Client_ta_id (client x.2)
  ∧ (∀ id, x.1 = Some (Ok (RId id)) →
           Client_ta_id (client w) ≤ id < Client_ta_id (client x.2))
  ∧ outgoing x.2
    = outgoing w ++ request_of (do_issue_request ty args optargs c cb fuel) w
  ∧ (∀ k, is_Some (transactions (client x.2) !! k) →
          is_Some (transactions (client w) !! k)
          ∨ Client_ta_id (client w) ≤ k < Client_ta_id (client x.2)).
Proof.
  unfold issue_request, request_of. destruct cb as [cb|].
  - destruct (async_request_spec ty args optargs cb w) as (Hid & Hr & Ho & Ht).
    destruct (async_request ty args optargs cb w) as [[id|e] w1];
      cbn [fst snd] in *; rewrite Hid, Ho.
    all: split; [lia|]; split; [|split; [done|]].
    all: try (intros i [= <-]; specialize (Hr _ eq_refl); lia).
    all: try done.
    all: intros k Hk; apply Ht in Hk as [?| ->]; [eauto| right; lia].
  - destruct c as [c|]; cbn [fst snd].
    2:{ rewrite app_nil_r. split; [lia|]. split; [done|]. split; eauto. }
    unfold sync_request.
    set (ref := fresh (dom (objects w))).
    set (w0 := set_objects _ w).
    destruct (async_request_spec ty args optargs (call_object ref) w0)
      as (Hid & _ & Ho & Ht).
    change (Client_ta_id (client w0)) with (Client_ta_id (client w)) in *.
    change (outgoing w0) with (outgoing w) in *.
    change (transactions (client w0)) with (transactions (client w)) in *.
    change (request ty args optargs (call_object ref) w0)
      with (request ty args optargs (call_object ref) w) in *.
    destruct (async_request ty args optargs (call_object ref) w0)
      as [[id|e] w1]; cbn [fst snd] in *.
    + match goal with |- context [get ref fuel ?W] => set (w2 := W) end.
      destruct (get_quiet ref fuel w2) as [(Hid' & Ho' & Ht') Hno].
      change (Client_ta_id (client w2)) with (Client_ta_id (client w1)) in *.
      change (outgoing w2) with (outgoing w1) in *.
      change (transactions (client w2)) with (transactions (client w1)) in *.
      rewrite Hid', Ho', Hid, Ho.
      split; [lia|]. split; [by intros i Hi; destruct (Hno i)|].
      split; [done|].
      intros k Hk. apply Ht', Ht in Hk as [?| ->]; [eauto| right; lia].
    + rewrite Hid, Ho. split; [lia|]. split; [done|]. split; [done|].
      intros k Hk. apply Ht in Hk as [?| ->]; [eauto| right; lia].
Qed.

Lemma returning_spec {A} (f : A → retval) (x : result A * World) :
  (returning f x).2 = x.2
  ∧ is_Some (returning f x).1
  ∧ ∀ v, (returning f x).1 = Some (Ok v) → ∃ a, x.1 = Ok a ∧ v = f a.
Proof.
  destruct x as [[a|e] w]; simpl; repeat split; eauto; intros; simplify_eq;
    eauto.
Qed.

(** What any one call does to the id counter, the queue and the
    registry. *)
Lemma perform_spec o w :
  let x := perform o w in
  Client_ta_id (client w) ≤ Client_ta_id (client x.2)
  ∧ (∀ id, x.1 = Some (Ok (RId id)) →
           Client_ta_id (client w) ≤ id < Client_ta_id (client x.2))
  ∧ outgoing x.2 = outgoing w ++ request_of o w
  ∧ (∀ k, is_Some (transactions (client x.2) !! k) →
          is_Some (transactions (client w) !! k)
          ∨ Client_ta_id (client w) ≤ k < Client_ta_id (client x.2)).
Proof.
  destruct o as [|ty args optargs cb|ty args optargs c cb fuel| | |];
    cbn [perform].
  - unfold next_ta_id, outgoing; simpl. rewrite app_nil_r.
    split; [lia|]. split; [intros ? [= <-]; lia|]. split; [done|eauto].
  - destruct (returning_spec RId (async_request ty args optargs cb w))
      as (E1 & _ & E2).
    destruct (async_request_spec ty args optargs cb w) as (Hid & Hr & Ho & Ht).
    cbn zeta. rewrite E1, Hid. split; [lia|]. split; [|split; [done|]].
    + intros i Hx. apply E2 in Hx as (a & Ha & ?); simplify_eq.
      apply Hr in Ha. lia.
    + intros k Hk. apply Ht in Hk as [?| ->]; [eauto| right; lia].
  - apply issue_request_spec.
  - destruct (returning_spec RBool (try_send w)) as (E1 & _ & E2).
    destruct (try_send_quiet w) as (Hid & Ho & Ht).
    cbn zeta. rewrite E1, Hid, Ho. cbn [request_of]. rewrite app_nil_r.
    split; [lia|]. split; [|split; [done|eauto]].
    intros i Hx; apply E2 in Hx as (a & Ha & ?); simplify_eq.
  - destruct (returning_spec RBool (try_receive w)) as (E1 & _ & E2).
    destruct (try_receive_quiet w) as (Hid & Ho & Ht).
    cbn zeta. rewrite E1, Hid, Ho. cbn [request_of]. rewrite app_nil_r.
    split; [lia|]. split; [|split; [done|eauto]].
    intros i Hx; apply E2 in Hx as (a & Ha & ?); simplify_eq.
  - destruct (returning_spec (λ _, RNone) (process w)) as (E1 & _ & E2).
    destruct (process_quiet w) as (Hid & Ho & Ht).
    cbn zeta. rewrite E1, Hid, Ho. cbn [request_of]. rewrite app_nil_r.
    split; [lia|]. split; [|split; [done|eauto]].
    intros i Hx; apply E2 in Hx as (a & Ha & ?); simplify_eq.
Qed.

(** A run goes on after a call that came to an end, and ends with a call
    that did not. *)
Lemma run_cons o ops w :
  run (o :: ops) w
  = match (perform o w).1 with
    | Some r => (Some r :: (run ops (perform o w).2).1,
                 (run ops (perform o w).2).2)
    | None => ([None], (perform o w).2)
    end.
Proof.
  simpl. destruct (perform o w) as [[r|] w1]; simpl; [|done].
  by destruct (run ops w1).
Qed.

Lemma run_ids_bounds ops w :
  Client_ta_id (client w) ≤ Client_ta_id (client (run ops w).2)
  ∧ Forall (λ id, Client_ta_id (client w) ≤ id
                  < Client_ta_id (client (run ops w).2)) (ids (run ops w).1)
  ∧ StronglySorted Z.lt (ids (run ops w).1).
Proof.
  revert w; induction ops as [|o ops IH]; intros w.
  { simpl. split; [lia|]. split; constructor. }
  rewrite run_cons.
  destruct (perform_spec o w) as (Hle & Hid & _ & _).
  destruct (perform o w).1 as [r|] eqn:Hr; cbn [fst snd].
  2:{ split; [lia|]. split; constructor. }
  destruct (IH (perform o w).2) as (IH1 & IH2 & IH3).
  split; [lia|].
  assert (Forall (λ id, Client_ta_id (client w) ≤ id
            < Client_ta_id (client (run ops (perform o w).2).2))
            (ids (run ops (perform o w).2).1)) as Hall.
  { eapply Forall_impl; [exact IH2|]. simpl; intros; lia. }
  destruct r as [[id| | | | |]|e]; cbn [ids]; try done.
  specialize (Hid id eq_refl).
  split; [constructor; [lia|done]|].
  constructor; [done|].
  eapply Forall_impl; [exact IH2|]. simpl; intros; lia.
Qed.

Lemma StronglySorted_lt_NoDup (l : list Z) : StronglySorted Z.lt l → NoDup l.
Proof.
  induction 1 as [|x l _ IH Hx]; constructor; [|done].
  intros Hin. rewrite Forall_forall in Hx. apply Hx in Hin. lia.
Qed.


(** ** Transaction ids *)

(** C6. Whatever calls are made on a connection, in whatever order, the
    transaction ids that [next_ta_id] and the requests return are strictly
    increasing, so none is returned twice. *)
Theorem next_ta_id_strictly_increasing ops w :
  StronglySorted Z.lt (ids (run ops w).1) ∧ NoDup (ids (run ops w).1).
Proof.
  destruct (run_ids_bounds ops w) as (_ & _ & H).
  split; [done | by apply StronglySorted_lt_NoDup].
Qed.

(** ** The outgoing queue *)

(** A send attempt that reports failure, because the queue is empty or
    because the transport would block, leaves the queue as it was. *)
Lemma try_send_put_back w :
  (try_send w).1 = Ok false →
  out_wire_msgs (client (try_send w).2) = out_wire_msgs (client w).
Proof.
  unfold try_send.
  destruct (out_wire_msgs (client w)) as [|m rest] eqn:Hq; simpl; [done|].
  destruct (xcm.sends (conn_sock (client w))) as [|[errno|] script];
    simpl; repeat case_bool_decide; simpl; done.
Qed.

(** What the transport accepted is, in order, among what left the queue,
    and it is all of it when no send failed for good. *)
Lemma transmitted_departed cs :
  xcm.transmitted cs `sublist_of` xcm.departed cs
  ∧ (Forall (λ c, ∀ b e, c = xcm.Send b (Some e) → e = xcm.EAGAIN) cs →
     xcm.transmitted cs = xcm.departed cs).
Proof.
  induction cs as [|c cs [IH1 IH2]]; [done|].
  destruct c as [b [e|]| | |]; simpl.
  - case_bool_decide as He.
    + split; [done|]. intros Hall. apply IH2. by inversion Hall.
    + split; [by apply sublist_cons|]. intros Hall. inversion Hall as [|?? Hc].
      destruct He. by rewrite (Hc b e eq_refl).
  - split; [by apply sublist_skip|].
    intros Hall. f_equal. apply IH2. by inversion Hall.
  - split; [done|]. intros Hall. apply IH2. by inversion Hall.
  - split; [done|]. intros Hall. apply IH2. by inversion Hall.
  - split; [done|]. intros Hall. apply IH2. by inversion Hall.
Qed.

(** C5. The wire messages leave the outgoing queue in the order in which
    they were put on it: over any run of requests, with a handler or
    waited for, send and receive attempts and rounds, what has left the
    queue followed by what is in it
    is what it was before followed by the requests issued, in order. A send
    attempt that would block leaves the queue as it was, with the message
    at the front again, and what the transport accepted is, in that order,
    among what left the queue: all of it unless a send failed for good. *)
Theorem outgoing_queue_is_FIFO :
  (∀ ops w, outgoing (run ops w).2 = outgoing w ++ issued ops w)
  ∧ (∀ w, (try_send w).1 = Ok false →
          out_wire_msgs (client (try_send w).2) = out_wire_msgs (client w))
  ∧ (∀ w,
       let cs := xcm.calls (conn_sock (client w)) in
       xcm.transmitted cs `sublist_of` xcm.departed cs
       ∧ (Forall (λ c, ∀ b e, c = xcm.Send b (Some e) → e = xcm.EAGAIN) cs →
          xcm.transmitted cs = xcm.departed cs)).
Proof.
  split; [|split].
  - intros ops. induction ops as [|o ops IH]; intros w.
    { simpl. by rewrite app_nil_r. }
    rewrite run_cons; cbn [issued].
    destruct (perform_spec o w) as (_ & _ & Ho & _).
    destruct (perform o w).1 as [r|]; cbn [fst snd].
    + by rewrite IH, Ho, app_assoc.
    + by rewrite Ho, app_nil_r.
  - apply try_send_put_back.
  - intros w. apply transmitted_departed.
Qed.

(** ** Rounds are bounded *)









(** ** Readiness *)

Lemma ready_bits w :
  ready w →
  Z.land (xcm.condition (conn_sock (client w))) xcm.SO_RECEIVABLE
  = xcm.SO_RECEIVABLE
  ∧ (Z.land (xcm.condition (conn_sock (client w))) xcm.SO_SENDABLE
     = xcm.SO_SENDABLE ↔ out_wire_msgs (client w) ≠ []).
Proof.
  unfold ready, interest. intros ->.
  destruct (out_wire_msgs (client w)); simpl; split; try done.
Qed.

Lemma attempts_ready n attempt w :
  (∀ w, ready (attempt w).2) → ready w → ready (attempts n attempt w).2.
Proof.
  intros Hstep. revert w; induction n as [|n IH]; intros w Hw; cbn [attempts];
    [done|].
  pose proof (Hstep w) as Hs.
  destruct (attempt w) as [[[]|e] w']; cbn [snd] in *; eauto.
Qed.

Lemma process_ready w : ready w → ready (process w).2.
Proof.
  intros Hw. unfold process. generalize MAX_MSGS_PER_ROUND; intros n.
  pose proof (attempts_ready n try_send w try_send_ready Hw) as H1.
  destruct (attempts n try_send w) as [[[]|e] w1]; cbn [snd] in *; [|done].
  by apply attempts_ready; [apply try_receive_ready|].
Qed.

Lemma wait_ready fuel criteria w :
  ready w → ready (wait fuel criteria w).2.
Proof.
  revert w; induction fuel as [|fuel IH]; intros w Hw; cbn [wait];
    destruct (criteria w); cbn [snd]; try done.
  pose proof (process_ready w Hw) as Hp.
  destruct (process w) as [[[]|e] w1]; cbn [snd] in *; eauto.
Qed.

Lemma update_recomputed w : recomputed (update w).
Proof.
  split; [apply update_ready|].
  unfold update, interest; simpl. rewrite last_snoc.
  by destruct (out_wire_msgs (client w)).
Qed.

Lemma try_send_recomputed w : recomputed (try_send w).2.
Proof.
  unfold try_send.
  repeat (let r := fresh "r" in let w := fresh "w" in name_body r w).
  apply update_recomputed.
Qed.

Lemma try_receive_recomputed w : recomputed (try_receive w).2.
Proof.
  unfold try_receive.
  repeat (let r := fresh "r" in let w := fresh "w" in name_body r w).
  apply update_recomputed.
Qed.

(** A request is put on the queue and a send is attempted, unless
    [produce_request] fails an assertion, and then neither the queue nor
    the transport has been touched. *)
Lemma async_request_recomputed ty args optargs cb w :
  let x := async_request ty args optargs cb w in
  recomputed x.2
  ∨ ((∃ c, x.1 = Raise (AssertionError c))
     ∧ out_wire_msgs (client x.2) = out_wire_msgs (client w)
     ∧ conn_sock (client x.2) = conn_sock (client w)).
Proof.
  unfold async_request, produce_request; simpl.
  repeat case_match; simplify_eq; simpl; eauto.
  all: left.
  all: match goal with
       | H : try_send ?W = (_, ?w1) |- _ =>
           pose proof (try_send_recomputed W) as Hr; by rewrite H in Hr
       end.
Qed.

Lemma async_request_ready ty args optargs cb w :
  let x := async_request ty args optargs cb w in
  ready x.2
  ∨ ((∃ c, x.1 = Raise (AssertionError c))
     ∧ out_wire_msgs (client x.2) = out_wire_msgs (client w)
     ∧ conn_sock (client x.2) = conn_sock (client w)).
Proof.
  destruct (async_request_recomputed ty args optargs cb w) as [[? _]|?];
    [by left | by right].
Qed.

(** The constructor leaves the interest of the queue registered, however
    the handshake goes. *)
Lemma Client_init_ready cid sock rcb fuel w :
  ready (Client_init cid (inl sock) rcb fuel w).2.
Proof.
  unfold Client_init.
  match goal with |- context [initial_hello fuel ?W] =>
    pose proof (update_ready (set_client
      {| client_id := cid; conn_sock := sock; ready_cb := rcb;
         Client_ta_id := 0; out_wire_msgs := []; transactions := ∅;
         proto_version := JNull |} w)) as Hw1;
    set (w1 := W) in *; clearbody w1 end.
  assert (ready (initial_hello fuel w1).2) as Hih.
  { unfold initial_hello, hello, issue_request.
    assert (ready (async_request proto.TA_HELLO
                [JInt (client_id (client w1)); JInt proto.VERSION;
                 JInt proto.VERSION] ∅ initial_hello_cb w1).2) as Hr.
    { destruct (async_request_ready proto.TA_HELLO
                [JInt (client_id (client w1)); JInt proto.VERSION;
                 JInt proto.VERSION] ∅ initial_hello_cb w1)
        as [Hr|(_ & Hq & Hs)]; [done|].
      unfold ready in *. by rewrite Hq, Hs. }
    destruct (async_request _ _ _ _ w1) as [[id|e] w2]; cbn [snd] in *;
      [|done].
    destruct (ready_cb (client w2)); [done|]. by apply wait_ready. }
  destruct (initial_hello fuel w1) as [[[u|e]|] w2]; cbn [snd] in *;
    try done.
  by destruct (is_Error e).
Qed.

(** C10. The readiness interest registered with the transport is recomputed
    after every send attempt, after every receive attempt and after every
    request that is put on the queue, and it is the one of the queue when
    the constructor of the connection is done: receive interest is always
    registered, and send interest is registered exactly when the outgoing
    queue is not empty. *)
Theorem readiness_interest_is_recomputed :
  (∀ w, ready w →
        Z.land (xcm.condition (conn_sock (client w))) xcm.SO_RECEIVABLE
        = xcm.SO_RECEIVABLE
        ∧ (Z.land (xcm.condition (conn_sock (client w))) xcm.SO_SENDABLE
           = xcm.SO_SENDABLE ↔ out_wire_msgs (client w) ≠ []))
  ∧ (∀ w, recomputed (try_send w).2)
  ∧ (∀ w, recomputed (try_receive w).2)
  ∧ (∀ ty args optargs cb w,
       let x := async_request ty args optargs cb w in
       recomputed x.2
       ∨ ((∃ c, x.1 = Raise (AssertionError c))
          ∧ out_wire_msgs (client x.2) = out_wire_msgs (client w)
          ∧ conn_sock (client x.2) = conn_sock (client w)))
  ∧ (∀ client_id sock ready_cb fuel w,
       ready (Client_init client_id (inl sock) ready_cb fuel w).2).
Proof.
  split; [apply ready_bits|].
  split; [apply try_send_recomputed|].
  split; [apply try_receive_recomputed|].
  split; [apply async_request_recomputed|].
  apply Client_init_ready.
Qed.

(** ** The registry *)

(** A message for an id that is not in the registry is a protocol error. *)
Lemma try_receive_unknown w in_msg rest k :
  xcm.receives (conn_sock (client w)) = inl (xcm.Encoded in_msg) :: rest →
  in_msg !! "ta-id"%string = Some (JInt k) →
  transactions (client w) !! k = None →
  (try_receive w).1 = Raise (ProtocolError (UnknownTransaction (JInt k))).
Proof.
  intros Hrecv Hid Hk. unfold try_receive, xcm.receive, proto.pull.
  rewrite Hrecv. simpl. rewrite Hid. simpl. by rewrite Hk.
Qed.

(** A receive attempt that returns normally leaves no transaction in the
    registry that it has terminated. *)
Lemma try_receive_no_zombie w :
  (try_receive w).1 = Ok true →
  ∀ k t', transactions (client (try_receive w).2) !! k = Some t' →
          state t' = TERMINATED →
          transactions (client w) !! k = Some t'.
Proof.
  unfold try_receive.
  destruct (xcm.receive (conn_sock (client w))) as [outcome sock] eqn:Hrecv.
  unfold xcm.receive in Hrecv. simplify_eq.
  set (w1 := on_client _ w).
  assert (Ht : transactions (client w1) = transactions (client w)) by done.
  clearbody w1.
  name_body r w2.
  cbn [fst snd]. destruct (update_engine w2) as (_ & -> & _).
  intros ->. rewrite <-Ht. clear Ht.
  repeat case_match; simplify_eq.
  all: handler_frame as (_ & _ & Ht' & _).
  all: match goal with
       | H : _ ≫= _ = Some _ |- _ =>
           apply registered_Some in H; destruct H as [_ Hk]
       end.
  all: simpl; rewrite Ht'; intros k' t'.
  - rewrite lookup_delete. destruct (decide (_ = k')); [done|].
    by rewrite lookup_insert_ne.
  - rewrite lookup_insert. destruct (decide (_ = k')); [|done].
    intros [= <-] Hst. by case_bool_decide.
Qed.

(** The ids in the registry after a run were there before, or were handed
    out during the run. *)
Lemma run_registry ops w k :
  is_Some (transactions (client (run ops w).2) !! k) →
  is_Some (transactions (client w) !! k)
  ∨ Client_ta_id (client w) ≤ k < Client_ta_id (client (run ops w).2).
Proof.
  revert w; induction ops as [|o ops IH]; intros w; [by left|].
  rewrite run_cons.
  destruct (perform_spec o w) as (Hle & _ & _ & Ht).
  destruct (run_ids_bounds ops (perform o w).2) as (Hle' & _).
  destruct (perform o w).1 as [r|]; cbn [snd]; intros Hk.
  - destruct (IH _ Hk) as [Hk'|?]; [|right; lia].
    destruct (Ht k Hk') as [?|?]; [by left | right; lia].
  - destruct (Ht k Hk) as [?|?]; [by left | right; lia].
Qed.

(** [registry_ok] holds of every connection: the constructor establishes
    it and every call keeps it. *)
Lemma run_registry_ok ops w : registry_ok w → registry_ok (run ops w).2.
Proof.
  intros [H0 Hw]. destruct (run_ids_bounds ops w) as (Hle & _).
  split; [lia|]. intros k Hk.
  destruct (run_registry ops w k Hk) as [Hk'|?]; [|lia].
  specialize (Hw k Hk'). lia.
Qed.

Lemma quiet_registry_ok w w' : quiet w w' → registry_ok w → registry_ok w'.
Proof.
  intros (Hid & _ & Ht) [H0 Hw]. unfold registry_ok. rewrite Hid.
  split; [done|]. intros k Hk. apply Hw. eauto.
Qed.

Lemma wait_registry_ok fuel criteria w :
  registry_ok w → registry_ok (wait fuel criteria w).2.
Proof. apply quiet_registry_ok, wait_quiet. Qed.

Lemma async_request_registry_ok ty args optargs cb w :
  registry_ok w → registry_ok (async_request ty args optargs cb w).2.
Proof.
  intros [H0 Hw].
  destruct (async_request_spec ty args optargs cb w) as (Hid & _ & _ & Ht).
  unfold registry_ok. rewrite Hid. split; [lia|]. intros k Hk.
  destruct (Ht k Hk) as [Hk'| ->]; [|lia]. specialize (Hw k Hk'). lia.
Qed.

Lemma Client_init_registry_ok cid sock rcb fuel w :
  registry_ok (Client_init cid (inl sock) rcb fuel w).2.
Proof.
  unfold Client_init.
  match goal with |- context [initial_hello fuel ?W] =>
    assert (registry_ok W) as Hw1;
    [|set (w1 := W) in *; clearbody w1] end.
  { split; simpl; [done|]. intros k Hk. rewrite lookup_empty in Hk.
    by destruct Hk. }
  assert (registry_ok (initial_hello fuel w1).2) as Hih.
  { unfold initial_hello, hello, issue_request.
    pose proof (async_request_registry_ok proto.TA_HELLO
                [JInt (client_id (client w1)); JInt proto.VERSION;
                 JInt proto.VERSION] ∅ initial_hello_cb w1 Hw1) as Hr.
    destruct (async_request _ _ _ _ w1) as [[id|e] w2]; cbn [snd] in *;
      [|done].
    destruct (ready_cb (client w2)); [done|]. by apply wait_registry_ok. }
  destruct (initial_hello fuel w1) as [[[u|e]|] w2]; cbn [snd] in *;
    try done.
  by destruct (is_Error e).
Qed.

(** C2, as the code has it. When a receive attempt returns normally, no
    transaction that it terminated is left in the registry. A message that
    arrives later, after any further calls, and bears the id of a
    transaction that was issued and is no longer registered makes the
    receive attempt raise the unknown-transaction protocol error, and so
    does a message that bears an id that was never issued. (A receive
    attempt that raises, because the message was malformed or the handler
    failed, returns before the registry is touched.) *)
Theorem terminated_transactions_are_unknown w :
  registry_ok w →
  ((try_receive w).1 = Ok true →
   ∀ k t', transactions (client (try_receive w).2) !! k = Some t' →
           state t' = TERMINATED →
           transactions (client w) !! k = Some t')
  ∧ (∀ k ops in_msg rest,
       transactions (client w) !! k = None →
       k < Client_ta_id (client w) →
       xcm.receives (conn_sock (client (run ops w).2))
       = inl (xcm.Encoded in_msg) :: rest →
       in_msg !! "ta-id"%string = Some (JInt k) →
       (try_receive (run ops w).2).1
       = Raise (ProtocolError (UnknownTransaction (JInt k))))
  ∧ (∀ k in_msg rest,
       ¬ (0 ≤ k < Client_ta_id (client w)) →
       xcm.receives (conn_sock (client w)) = inl (xcm.Encoded in_msg) :: rest →
       in_msg !! "ta-id"%string = Some (JInt k) →
       (try_receive w).1
       = Raise (ProtocolError (UnknownTransaction (JInt k)))).
Proof.
  intros [H0 Hw]. split; [apply try_receive_no_zombie|]. split.
  - intros k ops in_msg rest Hk Hlt Hrecv Hid.
    eapply try_receive_unknown; [done..|].
    destruct (transactions (client (run ops w).2) !! k) as [t|] eqn:Ht; [|done].
    destruct (run_registry ops w k) as [[? ?]|?]; [by eauto|congruence|lia].
  - intros k in_msg rest Hk Hrecv Hid.
    eapply try_receive_unknown; [done..|].
    destruct (transactions (client w) !! k) as [t|] eqn:Ht; [|done].
    destruct Hk. apply Hw. eauto.
Qed.

(** ** The transaction state machine *)

Lemma eq_str_refl s : eq_str (JStr s) s = true.
Proof. simpl. by case_bool_decide. Qed.

(** [consume_message] on a message for the command of the transaction,
    with its message kind. *)
Lemma consume_message_header self in_msg w kind :
  in_msg !! "ta-cmd"%string = Some (JStr (proto.cmd (ta_type self))) →
  in_msg !! "msg-type"%string = Some (JStr kind) →
  consume_message self in_msg w =
    match select self (JStr kind) with
    | None => (self, Raise (invalid_message_type self kind), w)
    | Some (event, fields, opt_fields, new_state) =>
        let self' := set_state new_state self in
        match pull_fields fields
                (delete "msg-type"%string (delete "ta-cmd"%string in_msg)) with
        | (Raise e, _) => (self', Raise e, w)
        | (Ok args, m1) =>
            match pull_opt_fields opt_fields ∅ m1 with
            | (Raise e, _) => (self', Raise e, w)
            | (Ok optargs, m2) =>
                if bool_decide (0 < size m2)%nat
                then (self',
                      Raise (ProtocolError (UnknownFields (map_to_list m2).*1)),
                      w)
                else delivered self' event args optargs w
            end
        end
    end.
Proof.
  intros Hcmd Hkind. unfold consume_message, proto.pull; simpl.
  rewrite Hcmd; simpl. rewrite bool_decide_true by done; simpl.
  rewrite lookup_delete_ne by done. rewrite Hkind; simpl.
  destruct (select self (JStr kind)) as [[[[event fields] opt_fields] s']|];
    [|done].
  destruct (pull_fields _ _) as [[args|e] m1]; [|done].
  destruct (pull_opt_fields _ _ _) as [[optargs|e] m2]; [|done].
  case_bool_decide; [done|]. unfold delivered.
  by destruct (call_cb _ _ _ _ _).
Qed.

(** The [if]/[elif] chain takes the legal combinations and no other. *)
Lemma select_Some self kind event fields opt_fields s' :
  select self (JStr kind) = Some (event, fields, opt_fields, s') →
  legal kind (state self) (proto.ia_type (ta_type self)) event s'
  ∧ (fields, opt_fields) = fields_of (ta_type self) event.
Proof.
  unfold select, eq_str.
  destruct (state self) eqn:Hs, (proto.ia_type (ta_type self)) eqn:Hia;
    repeat (case_bool_decide; simpl); intros ?; simplify_eq;
    split; try done; constructor.
Qed.

Lemma select_None self kind :
  select self (JStr kind) = None →
  ∀ event s',
    ¬ legal kind (state self) (proto.ia_type (ta_type self)) event s'.
Proof.
  unfold select, eq_str. intros H event s' Hl.
  destruct Hl; simpl in H; repeat (case_bool_decide; simpl in H); done.
Qed.

Lemma legal_functional kind s ia e1 s1 e2 s2 :
  legal kind s ia e1 s1 → legal kind s ia e2 s2 → e1 = e2 ∧ s1 = s2.
Proof. intros H1 H2. destruct H1; inversion H2; done. Qed.


Lemma pull_Raise field opt m e m' :
  proto.pull field opt m = (Raise e, m') →
  e = ProtocolError (MissingField (proto.name field))
  ∨ e = ProtocolError (InvalidField (proto.name field)).
Proof.
  unfold proto.pull. intros H. repeat case_match; simplify_eq; eauto.
Qed.

Lemma pull_fields_Raise fields m e m' :
  pull_fields fields m = (Raise e, m') → field_error e.
Proof.
  revert m; induction fields as [|f fields IH]; intros m; simpl; [done|].
  destruct (proto.pull f false m) as [[v|e0] m1] eqn:Hp.
  - destruct (pull_fields fields m1) as [[vs|e1] m2] eqn:Hf; [done|].
    intros ?; simplify_eq. eauto.
  - intros ?; simplify_eq. apply pull_Raise in Hp. by exists (proto.name f).
Qed.

Lemma pull_opt_fields_Raise fields o m e m' :
  pull_opt_fields fields o m = (Raise e, m') → field_error e.
Proof.
  revert o m; induction fields as [|f fields IH]; intros o m; simpl; [done|].
  destruct (proto.pull f true m) as [[v|e0] m1] eqn:Hp.
  - eauto.
  - intros ?; simplify_eq. apply pull_Raise in Hp. by exists (proto.name f).
Qed.



(** No handler raises the error of the final [else]. *)
Lemma call_cb_not_invalid self event args optargs w a b c d :
  (call_cb self event args optargs w).1
  ≠ Raise (ProtocolError (InvalidMessageType a b c d)).
Proof.
  unfold call_cb, invoke, Client_initial_hello_cb, adapter__call__,
    Call__call__, unexpected_keyword, not_a_number.
  repeat case_match; simplify_eq; simpl; done.
Qed.

(** C1, as the code has it. [consume_message] takes ACCEPT in state
    REQUESTING of a multi-response transaction (new state ACCEPTED), NOTIFY
    in state ACCEPTED (state unchanged), COMPLETE in REQUESTING of a
    single-response transaction or in ACCEPTED of a multi-response one (new
    state TERMINATED), and FAIL in every state, TERMINATED included (new
    state TERMINATED): on these the transaction takes the new state and
    the invalid-message-type error is not raised. Every other combination
    raises that protocol error and leaves the transaction, and everything
    else, as it was. *)
Theorem consume_message_legal_combinations self in_msg w kind :
  in_msg !! "ta-cmd"%string = Some (JStr (proto.cmd (ta_type self))) →
  in_msg !! "msg-type"%string = Some (JStr kind) →
  let ia := proto.ia_type (ta_type self) in
  let x := consume_message self in_msg w in
  (∀ event s', legal kind (state self) ia event s' →
     state x.1.1 = s' ∧ x.1.2 ≠ Raise (invalid_message_type self kind))
  ∧ ((∀ event s', ¬ legal kind (state self) ia event s') →
     x = (self, Raise (invalid_message_type self kind), w)).
Proof.
  intros Hcmd Hkind ia x. subst x.
  rewrite (consume_message_header _ _ _ kind) by done.
  destruct (select self (JStr kind)) as [[[[event fields] opt_fields] s0]|]
    eqn:Hsel.
  - apply select_Some in Hsel as [Hl _]. split.
    + intros e1 s1 Hl1.
      destruct (legal_functional _ _ _ _ _ _ _ Hl1 Hl) as [-> ->].
      cbn zeta.
      destruct (pull_fields _ _) as [[args|e] m1] eqn:Hf.
      2:{ split; [done|]. apply pull_fields_Raise in Hf as [n [-> | ->]];
          done. }
      destruct (pull_opt_fields _ _ _) as [[optargs|e] m2] eqn:Ho.
      2:{ split; [done|]. apply pull_opt_fields_Raise in Ho as [n [-> | ->]];
          done. }
      case_bool_decide; [done|].
      split; [done|]. apply call_cb_not_invalid.
    + intros Hno. by destruct (Hno _ _ Hl).
  - split; [|done].
    intros e1 s1 Hl1. by destruct (select_None _ _ Hsel _ _ Hl1).
Qed.






(** ** Requests *)

(** One round of the loop over the optional request fields. *)
Lemma put_optarg_cases m o f :
  (o !! proto.name f = None ∧ put_optarg (m, o) f = (m, o))
  ∨ (is_Some (o !! proto.name f)
     ∧ put_optarg (m, o) f
       = (match o !! proto.python_name f with
          | Some v => if is_None v then m else proto.put f v m
          | None => m
          end, delete (proto.name f) o)).
Proof.
  unfold put_optarg. case_bool_decide as H.
  - right. split; [done|]. by destruct (o !! proto.python_name f).
  - left. split; [|done]. by apply eq_None_not_Some.
Qed.

(** After the loop, the arguments left are those that no field names. *)
Lemma put_optargs_rest fields m o m' o' :
  foldl put_optarg (m, o) fields = (m', o') →
  ∀ k, o' !! k = if decide (k ∈ proto.name <$> fields) then None else o !! k.
Proof.
  revert m o; induction fields as [|f fields IH]; intros m o; cbn [foldl].
  { intros ? k; by simplify_eq. }
  intros Hfold k.
  destruct (put_optarg_cases m o f) as [[Hn E]|[Hs E]]; rewrite E in Hfold;
    rewrite (IH _ _ Hfold k).
  - destruct (decide (k ∈ proto.name <$> fields)) as [Hk|Hk].
    + rewrite decide_True; [done|]. by right.
    + destruct (decide (k = proto.name f)) as [->|Hne].
      * rewrite decide_True; [done|]. by left.
      * rewrite decide_False; [done|]. by intros [?|?]%elem_of_cons.
  - destruct (decide (k ∈ proto.name <$> fields)) as [Hk|Hk].
    + rewrite decide_True; [done|]. by right.
    + destruct (decide (k = proto.name f)) as [->|Hne].
      * rewrite decide_True; [|by left]. apply lookup_delete_eq.
      * rewrite decide_False; [|by intros [?|?]%elem_of_cons].
        by rewrite lookup_delete_ne.
Qed.




(** ** The handshake *)

(** The handler of the handshake turns such a reply into a protocol
    error. *)
Lemma consume_hello_failure reply w :
  handshake_failure reply →
  ∃ t' v,
    consume_message hello_transaction (delete "ta-id"%string reply) w
    = (t', Raise (ProtocolError v), w).
Proof.
  intros (Hid & Hcmd & Hkind).
  destruct Hkind as [[Hkind (v & Hv & Hne)]|Hkind].
  - rewrite (consume_message_header _ _ _ "complete");
      [|by rewrite lookup_delete_ne..].
    change (select hello_transaction (JStr "complete"))
      with (Some (COMPLETE, [proto.FIELD_PROTO_VERSION], @nil proto.Field,
                  TERMINATED)).
    cbn [pull_fields pull_opt_fields]. unfold proto.pull.
    cbn [proto.name proto.FIELD_PROTO_VERSION proto.IntField].
    rewrite !lookup_delete_ne by done. rewrite Hv.
    change (proto.python_type proto.FIELD_PROTO_VERSION (JInt v)) with true.
    cbn beta iota.
    case_bool_decide; [eauto|].
    unfold delivered, call_cb, invoke, Client_initial_hello_cb; simpl.
    rewrite bool_decide_false by done. simpl. eauto.
  - rewrite (consume_message_header _ _ _ "fail");
      [|by rewrite lookup_delete_ne..].
    change (select hello_transaction (JStr "fail"))
      with (Some (FAIL, @nil proto.Field, [proto.FIELD_FAIL_REASON],
                  TERMINATED)).
    cbn [pull_fields pull_opt_fields]. unfold proto.pull.
    cbn [proto.name proto.FIELD_FAIL_REASON proto.StrField].
    destruct (_ !! "fail-reason"%string) as [r|].
    + change (proto.python_type proto.FIELD_FAIL_REASON r)
        with (proto.is_str r).
      destruct (proto.is_str r); cbn beta iota; [|eauto].
      destruct (is_None r); cbn beta iota.
      all: case_bool_decide; [eauto|].
      all: unfold delivered, call_cb, invoke, Client_initial_hello_cb; simpl.
      all: eauto.
    + cbn beta iota. case_bool_decide; [eauto|].
      unfold delivered, call_cb, invoke, Client_initial_hello_cb; simpl. eauto.
Qed.

Lemma try_receive_closed w :
  xcm.closed (conn_sock (client (try_receive w).2))
  = xcm.closed (conn_sock (client w)).
Proof.
  unfold try_receive.
  destruct (xcm.receive (conn_sock (client w))) as [outcome sock] eqn:Hrecv.
  unfold xcm.receive in Hrecv. simplify_eq.
  set (w1 := on_client _ w).
  assert (Hw1 : xcm.closed (conn_sock (client w1))
                = xcm.closed (conn_sock (client w))) by done.
  clearbody w1. rewrite <-Hw1. clear Hw1.
  name_body r w2.
  cbn [snd]. transitivity (xcm.closed (conn_sock (client w2))); [done|].
  repeat case_match; simplify_eq; simpl; try done.
  all: by handler_frame as (-> & _).
Qed.

Lemma try_receive_hello_failure reply rest w :
  handshaking (inl (xcm.Encoded reply) :: rest) w →
  handshake_failure reply →
  ∃ v, (try_receive w).1 = Raise (ProtocolError v).
Proof.
  intros (Ht & _ & _ & _ & Hrecv) Hfail.
  pose proof Hfail as (Hid & _).
  unfold try_receive, xcm.receive, proto.pull. rewrite Hrecv. simpl.
  rewrite Hid. simpl. rewrite Ht. simpl.
  match goal with |- context [consume_message _ _ ?W] =>
    destruct (consume_hello_failure reply W Hfail) as (t' & v & ->) end.
  simpl. eauto.
Qed.

Lemma try_send_sendable w :
  sendable (xcm.sends (conn_sock (client w))) →
  (∃ b, (try_send w).1 = Ok b)
  ∧ sendable (xcm.sends (conn_sock (client (try_send w).2))).
Proof.
  unfold try_send, sendable. intros Hs.
  destruct (out_wire_msgs (client w)) as [|m rest] eqn:Hq; simpl; [eauto|].
  destruct (xcm.sends (conn_sock (client w))) as [|o script]; simpl.
  { eauto. }
  apply Forall_cons in Hs as [[-> | ->] Hs]; simpl; eauto.
Qed.

(** Send attempts do not disturb a connection that waits for its
    handshake, and on such a transport they do not raise. *)
Lemma try_send_handshaking recvs w :
  handshaking recvs w →
  (∃ b, (try_send w).1 = Ok b) ∧ handshaking recvs (try_send w).2.
Proof.
  intros (Ht & Hv & Hr & Hs & Hrecv).
  destruct (try_send_sendable w Hs) as [Hok Hs'].
  destruct (try_send_frame w) as (Ht' & _).
  destruct (try_send_objects w) as (_ & Hrecv' & _ & Hv' & Hr').
  split; [done|]. unfold handshaking.
  by rewrite Ht', Hv', Hr', Hrecv'.
Qed.

Lemma send_round_handshaking recvs n w :
  handshaking recvs w →
  ∃ w', attempts n try_send w = (Ok (), w') ∧ handshaking recvs w'.
Proof.
  revert w; induction n as [|n IH]; intros w Hw; cbn [attempts]; [eauto|].
  destruct (try_send_handshaking recvs w Hw) as [[b Hb] Hw'].
  destruct (try_send w) as [r w1]; cbn [fst snd] in *. subst r.
  destruct b; eauto.
Qed.

Lemma try_receive_would_block rest w :
  handshaking (inr xcm.EAGAIN :: rest) w →
  (try_receive w).1 = Ok false ∧ handshaking rest (try_receive w).2.
Proof.
  intros (Ht & Hv & Hr & Hs & Hrecv).
  unfold try_receive, xcm.receive, handshaking. rewrite Hrecv. simpl.
  by rewrite Ht, Hv, Hr.
Qed.

Lemma process_would_block rest w :
  handshaking (inr xcm.EAGAIN :: rest) w →
  ∃ w', process w = (Ok (), w') ∧ handshaking rest w'.
Proof.
  intros Hw. unfold process.
  destruct (send_round_handshaking _ MAX_MSGS_PER_ROUND w Hw)
    as (w1 & -> & Hw1).
  change MAX_MSGS_PER_ROUND with (S 127). cbn [attempts].
  destruct (try_receive_would_block rest w1 Hw1) as [Hr Hw2].
  destruct (try_receive w1) as [r w2]; cbn [fst snd] in *. subst r. eauto.
Qed.

Lemma process_hello_failure reply rest w :
  handshaking (inl (xcm.Encoded reply) :: rest) w →
  handshake_failure reply →
  ∃ v w', process w = (Raise (ProtocolError v), w').
Proof.
  intros Hw Hfail. unfold process.
  destruct (send_round_handshaking _ MAX_MSGS_PER_ROUND w Hw)
    as (w1 & -> & Hw1).
  change MAX_MSGS_PER_ROUND with (S 127). cbn [attempts].
  destruct (try_receive_hello_failure reply rest w1 Hw1 Hfail) as [v Hr].
  destruct (try_receive w1) as [r w2]; cbn [fst snd] in *. subst r. eauto.
Qed.

(** Each round of the wait uses up one would-block receive; the round
    that gets the reply raises. *)
Lemma wait_hello_failure k reply rest fuel w :
  handshaking (replicate k (inr xcm.EAGAIN) ++ inl (xcm.Encoded reply) :: rest)
              w →
  handshake_failure reply →
  (k < fuel)%nat →
  ∃ v w',
    wait fuel (λ w, negb (is_None (proto_version (client w)))) w
    = (Some (Raise (ProtocolError v)), w').
Proof.
  intros Hw Hfail. revert fuel w Hw.
  induction k as [|k IH]; intros fuel w Hw Hk.
  - destruct fuel as [|fuel]; [lia|]. cbn [wait].
    pose proof Hw as (_ & Hv & _). rewrite Hv. cbn [is_None negb].
    destruct (process_hello_failure reply rest w Hw Hfail) as (v & w' & ->).
    eauto.
  - destruct fuel as [|fuel]; [lia|]. cbn [wait].
    pose proof Hw as (_ & Hv & _). rewrite Hv. cbn [is_None negb].
    destruct (process_would_block _ w Hw) as (w1 & -> & Hw1).
    apply IH; [done|lia].
Qed.

Lemma hello_handshaking cid sock w :
  sendable (xcm.sends sock) →
  let self :=
    {| client_id := cid; conn_sock := sock; ready_cb := None;
       Client_ta_id := 0; out_wire_msgs := []; transactions := ∅;
       proto_version := JNull |} in
  ∃ w', async_request proto.TA_HELLO
          [JInt cid; JInt proto.VERSION; JInt proto.VERSION] ∅
          initial_hello_cb (update (set_client self w)) = (Ok 0, w')
        ∧ handshaking (xcm.receives sock) w'.
Proof.
  intros Hs self. unfold async_request.
  cbn [next_ta_id update set_client on_client client Client_ta_id].
  change (produce_request _ _ _ _)
    with (hello_transaction,
          Ok (foldl (λ m fv, proto.put fv.1 fv.2 m)
                (proto.put proto.FIELD_MSG_TYPE (JStr proto.MSG_TYPE_REQUEST)
                   (proto.put proto.FIELD_TA_ID (JInt 0)
                      (proto.put proto.FIELD_TA_CMD (JStr "hello") ∅)))
                (zip (proto.request_fields proto.TA_HELLO)
                   [JInt cid; JInt proto.VERSION; JInt proto.VERSION]))).
  cbn beta iota zeta.
  match goal with |- context [try_send ?W] => set (w1 := W) end.
  assert (handshaking (xcm.receives sock) w1) as Hw1.
  { subst w1. unfold handshaking. simpl. by rewrite lookup_insert_eq. }
  clearbody w1.
  destruct (try_send_handshaking _ w1 Hw1) as [[b Hb] Hw2].
  destruct (try_send w1) as [r w2]; cbn [fst snd] in *. subst r. eauto.
Qed.

(** C8, as the code has it. Let the connection be made without a readiness
    callback, so that the constructor waits for the handshake, on a
    transport on which no send fails for good. If, after any number of
    would-block receives, the reply to the handshake is a COMPLETE whose
    protocol version is not the one the client requires, or a FAIL, then
    the constructor, given rounds enough to get to the reply, raises a
    protocol error, and it has closed the transport handle before the error
    leaves it: closing is the last thing it asked of the transport. *)
Theorem synchronous_handshake_failure cid sock k reply rest fuel w :
  sendable (xcm.sends sock) →
  xcm.receives sock
  = replicate k (inr xcm.EAGAIN) ++ inl (xcm.Encoded reply) :: rest →
  handshake_failure reply →
  (k < fuel)%nat →
  ∃ v w',
    Client_init cid (inl sock) None fuel w
    = (Some (Raise (ProtocolError v)), w')
    ∧ xcm.closed (conn_sock (client w')) = true
    ∧ last (xcm.calls (conn_sock (client w'))) = Some xcm.Close.
Proof.
  intros Hs Hrecv Hfail Hk. unfold Client_init, initial_hello, hello,
    issue_request.
  destruct (hello_handshaking cid sock w Hs) as (w1 & Hreq & Hw1).
  cbn zeta in Hreq. cbn [client_id client set_client update on_client
    set_conn_sock].
  cbn [client_id client set_client update on_client set_conn_sock] in Hreq.
  rewrite Hreq. pose proof Hw1 as (_ & _ & -> & _).
  rewrite Hrecv in Hw1.
  destruct (wait_hello_failure k reply rest fuel w1 Hw1 Hfail Hk)
    as (v & w2 & ->).
  cbn [is_Error]. exists v, (close w2). split; [done|].
  unfold close; simpl. split; [done|]. by rewrite last_snoc.
Qed.

(** ** Finding the server *)

Lemma lstrip_head s :
  match lstrip s with
  | String c _ => isspace c = false
  | EmptyString => True
  end.
Proof.
  induction s as [|c r IH]; simpl; [done|].
  destruct (isspace c) eqn:Hc; [done|]. simpl. done.
Qed.

Lemma rstrip_idem s : rstrip (rstrip s) = rstrip s.
Proof.
  induction s as [|c r IH]; simpl; [done|].
  destruct (rstrip r) as [|c' r'] eqn:Hr.
  - destruct (isspace c) eqn:Hc; simpl; [done|]. by rewrite Hc.
  - simpl in *. by rewrite IH.
Qed.

(** Stripping on the right keeps a first character that is no white
    space. *)
Lemma rstrip_head c r :
  isspace c = false → ∃ r', rstrip (String c r) = String c r'.
Proof.
  intros Hc. simpl. destruct (rstrip r); [|eauto]. rewrite Hc. eauto.
Qed.

Lemma strip_head s :
  match strip s with
  | String c _ => isspace c = false
  | EmptyString => True
  end.
Proof.
  unfold strip. pose proof (lstrip_head s) as H.
  destruct (lstrip s) as [|c r]; [done|].
  destruct (rstrip_head c r H) as [r' ->]. done.
Qed.

Lemma strip_idem s : strip (strip s) = strip s.
Proof.
  pose proof (strip_head s) as H.
  unfold strip at 1.
  destruct (strip s) as [|c r] eqn:Hs; [done|].
  cbn [lstrip]. rewrite H. rewrite <-Hs. unfold strip. apply rstrip_idem.
Qed.

(** The loop over the lines of a file without empty lines. *)
Lemma read_addrs_spec lines stop addrs :
  Forall (λ line, ¬ empty_line line) lines →
  read_addrs lines stop addrs
  = match stop with
    | EOF => Ok (addrs ++ filter (λ a, comment a = false) (strip <$> lines))
    | IOError => Ok []
    | Failure e => Raise e
    end.
Proof.
  intros Hl. revert addrs.
  induction Hl as [|line lines Hline _ IH]; intros addrs.
  { simpl. destruct stop; by rewrite ?app_nil_r. }
  cbn [read_addrs fmap list_fmap]. unfold empty_line in Hline.
  destruct (strip line) as [|c r] eqn:Hs; [done|].
  rewrite filter_cons.
  case_bool_decide as Hc.
  - rewrite decide_False; [apply IH|]. simpl. by rewrite bool_decide_true.
  - rewrite decide_True by (simpl; by rewrite bool_decide_false).
    rewrite IH. destruct stop; try done. by rewrite <-app_assoc.
Qed.

Lemma read_addrs_empty_line pre line post stop addrs :
  Forall (λ line, ¬ empty_line line) pre →
  empty_line line →
  read_addrs (pre ++ line :: post) stop addrs = Raise IndexError.
Proof.
  intros Hpre Hline. revert addrs.
  induction Hpre as [|l pre Hl _ IH]; intros addrs.
  { simpl. unfold empty_line in Hline. by rewrite Hline. }
  cbn [app read_addrs]. unfold empty_line in Hl.
  destruct (strip l) as [|c r] eqn:Hs; [done|].
  case_bool_decide; apply IH.
Qed.

Lemma read_addrs_clean lines stop addrs res :
  read_addrs lines stop addrs = Ok res →
  Forall clean addrs → Forall clean res.
Proof.
  revert addrs; induction lines as [|line lines IH]; intros addrs; simpl.
  { destruct stop; intros; simplify_eq; [done|constructor]. }
  destruct (strip line) as [|c r] eqn:Hs; [done|].
  case_bool_decide as Hc; [by apply IH|].
  intros Hres Hacc. apply (IH _ Hres).
  apply Forall_app. split; [done|]. constructor; [|constructor].
  split; [done|]. split.
  - simpl. by rewrite bool_decide_false.
  - rewrite <-Hs. apply strip_idem.
Qed.

(** X1. When the file of a domain is read to its end and has no empty
    line, [domain_addrs] gives its lines, stripped of the white space
    around them and without the comments, in the order of the file. The
    file is looked for in the directory that [PAF_DOMAINS] names, and in
    [/run/paf/domains.d] when the variable is not set. *)
Theorem domain_addrs_reads_in_order env domain lines :
  let dir := default "/run/paf/domains.d"%string
                     (environ env !! "PAF_DOMAINS"%string) in
  files env (dir ++ "/" ++ domain)%string = (lines, EOF) →
  Forall (λ line, ¬ empty_line line) lines →
  domain_addrs env domain
  = Ok (filter (λ a, comment a = false) (strip <$> lines)).
Proof.
  intros dir Hfile Hlines. unfold domain_addrs, domains_file.
  change (match environ env !! DOMAINS_ENV with
          | Some d => d
          | None => DEFAULT_DOMAINS_DIR
          end) with dir.
  rewrite Hfile. by rewrite read_addrs_spec.
Qed.

(** X2. An empty line in the file of a domain, or one with white space
    only, makes [domain_addrs] raise [IndexError], however the file goes
    on after it. *)
Theorem domain_addrs_empty_line_raises_IndexError env domain pre line post stop :
  files env (domains_file env domain) = (pre ++ line :: post, stop) →
  Forall (λ line, ¬ empty_line line) pre →
  empty_line line →
  domain_addrs env domain = Raise IndexError.
Proof.
  intros Hfile Hpre Hline. unfold domain_addrs. rewrite Hfile.
  by apply read_addrs_empty_line.
Qed.

(** X3. Every address that [domain_addrs] returns is not empty, is no
    comment, and has no white space around it. *)
Theorem domain_addrs_gives_clean_addresses env domain addrs :
  domain_addrs env domain = Ok addrs → Forall clean addrs.
Proof.
  unfold domain_addrs. destruct (files env _) as [lines stop].
  intros H. eapply read_addrs_clean; [done|constructor].
Qed.



(** X5. When the file of a domain lists servers, [connect] goes to the
    first of them and to no other: if [xcm.connect] fails for the first,
    [connect] raises the transport error and leaves everything as it
    was. *)
Theorem connect_goes_to_the_first_address_only
    env domain lines addr more cid rcb fuel w :
  files env (domains_file env domain) = (lines, EOF) →
  Forall (λ line, ¬ empty_line line) lines →
  filter (λ a, comment a = false) (strip <$> lines) = addr :: more →
  connect env domain (Some cid) rcb fuel w
  = Client_init cid (network env addr) rcb fuel w
  ∧ ∀ errno, network env addr = inr errno →
      connect env domain (Some cid) rcb fuel w
      = (Some (Raise (TransportError errno)), w).
Proof.
  intros Hfile Hlines Haddrs.
  assert (connect env domain (Some cid) rcb fuel w
          = Client_init cid (network env addr) rcb fuel w) as Hc.
  { unfold connect, domain_addr, domain_addrs. rewrite Hfile.
    rewrite read_addrs_spec by done. cbn [app]. rewrite Haddrs.
    rewrite bool_decide_true by (simpl; lia). done. }
  split; [done|]. intros errno Hn. rewrite Hc. unfold Client_init.
  by rewrite Hn.
Qed.

(** ** More on transactions *)

(** X6. A message that does not name the command of the transaction (it
    names another, or none, or what it has for a command is no string) is
    a protocol error; the transaction stays as it was and no handler is
    called. *)
Theorem consume_message_rejects_another_command self in_msg w :
  in_msg !! "ta-cmd"%string ≠ Some (JStr (proto.cmd (ta_type self))) →
  consume_message self in_msg w
  = (self,
     Raise (ProtocolError (command_error self (in_msg !! "ta-cmd"%string))),
     w).
Proof.
  intros Hcmd. unfold consume_message, proto.pull.
  cbn [proto.name proto.FIELD_TA_CMD proto.StrField].
  destruct (in_msg !! "ta-cmd"%string) as [v|]; [|done].
  change (proto.python_type proto.FIELD_TA_CMD v) with (proto.is_str v).
  destruct v as [|b|n|c|l|l]; try done. cbn [proto.is_str eq_str].
  rewrite bool_decide_false by congruence. done.
Qed.

(** What [select] can make of the state. *)
Lemma select_state self msg_type event fields opt_fields s' :
  select self msg_type = Some (event, fields, opt_fields, s') →
  s' = state self
  ∨ (state self = REQUESTING ∧ s' = ACCEPTED
     ∧ proto.ia_type (ta_type self) = proto.MULTI_RESPONSE)
  ∨ s' = TERMINATED.
Proof.
  unfold select. intros H.
  repeat (case_match; simplify_eq); eauto.
  right; left.
  repeat match goal with
         | H : _ && _ = true |- _ => apply andb_prop in H as [? ?]
         | H : bool_decide _ = true |- _ => apply bool_decide_eq_true in H
         end.
  done.
Qed.

Lemma consume_message_identity self in_msg w :
  let self' := (consume_message self in_msg w).1.1 in
  ta_id self' = ta_id self ∧ ta_type self' = ta_type self
  ∧ cb self' = cb self
  ∧ (state self' = state self
     ∨ (state self = REQUESTING ∧ state self' = ACCEPTED
        ∧ proto.ia_type (ta_type self) = proto.MULTI_RESPONSE)
     ∨ state self' = TERMINATED).
Proof.
  unfold consume_message.
  destruct (proto.pull proto.FIELD_TA_CMD false in_msg) as [[c|e] m1];
    [|by auto].
  destruct (negb _); [by auto|].
  destruct (proto.pull proto.FIELD_MSG_TYPE false m1) as [[k|e] m2];
    [|by auto].
  destruct (select self k) as [[[[event fields] opt_fields] s']|] eqn:Hsel;
    [|by auto].
  apply select_state in Hsel.
  assert (let t := set_state s' self in
          ta_id t = ta_id self ∧ ta_type t = ta_type self
          ∧ cb t = cb self
          ∧ (state t = state self
             ∨ (state self = REQUESTING ∧ state t = ACCEPTED
                ∧ proto.ia_type (ta_type self) = proto.MULTI_RESPONSE)
             ∨ state t = TERMINATED)) as Ht by done.
  cbn zeta in *.
  destruct (pull_fields fields m2) as [[args|e] m3]; [|done].
  destruct (pull_opt_fields opt_fields ∅ m3) as [[optargs|e] m4]; [|done].
  case_bool_decide; [done|].
  by destruct (call_cb _ _ _ _ _).
Qed.

(** X7. Whatever the message, [consume_message] leaves the id, the type
    and the handler of the transaction as they are, and the state moves
    forward only: it stays, or goes from REQUESTING to ACCEPTED in a
    multi-response transaction, or becomes TERMINATED. *)
Theorem consume_message_only_moves_forward self in_msg w :
  let self' := (consume_message self in_msg w).1.1 in
  ta_id self' = ta_id self ∧ ta_type self' = ta_type self
  ∧ cb self' = cb self
  ∧ (state self' = state self
     ∨ (state self = REQUESTING ∧ state self' = ACCEPTED
        ∧ proto.ia_type (ta_type self) = proto.MULTI_RESPONSE)
     ∨ state self' = TERMINATED).
Proof. apply consume_message_identity. Qed.

(** The loop of [produce_request] over the mandatory fields. *)
Lemma put_fields_other fields args (m : msg) k :
  k ∉ proto.name <$> fields →
  foldl (λ m fv, proto.put fv.1 fv.2 m) m (zip fields args) !! k = m !! k.
Proof.
  revert args m; induction fields as [|f fields IH]; intros args m Hk;
    [done|].
  destruct args as [|v args]; [done|]. cbn [zip zip_with foldl].
  rewrite fmap_cons, not_elem_of_cons in Hk. destruct Hk as [Hf Hk].
  rewrite IH by done. unfold proto.put. cbn [fst snd].
  by rewrite lookup_insert_ne.
Qed.

Lemma put_fields_lookup fields args (m : msg) :
  NoDup (proto.name <$> fields) →
  length args = length fields →
  Forall2 (λ f v,
             f ∈ fields
             ∧ foldl (λ m fv, proto.put fv.1 fv.2 m) m (zip fields args)
               !! proto.name f = Some v) fields args.
Proof.
  revert args m; induction fields as [|f fields IH]; intros args m Hnd Hlen;
    destruct args as [|v args]; try done.
  rewrite fmap_cons in Hnd. apply NoDup_cons in Hnd as [Hf Hnd].
  cbn [zip zip_with foldl]. constructor.
  - split; [by left|].
    rewrite put_fields_other by done. unfold proto.put. cbn [fst snd].
    by rewrite lookup_insert_eq.
  - eapply Forall2_impl; [apply IH; [done|simpl in Hlen; lia]|].
    simpl. intros f0 v0 [? ?]. split; [by right|done].
Qed.

Lemma put_fields_dom fields args (m : msg) k :
  is_Some (foldl (λ m fv, proto.put fv.1 fv.2 m) m (zip fields args) !! k) →
  is_Some (m !! k) ∨ k ∈ proto.name <$> fields.
Proof.
  destruct (decide (k ∈ proto.name <$> fields)) as [?|Hk]; [by right|].
  rewrite put_fields_other by done. by left.
Qed.

(** The loop over the optional fields puts nothing under another name. *)
Lemma put_optargs_outside fields m o m' o' k :
  foldl put_optarg (m, o) fields = (m', o') →
  k ∉ proto.name <$> fields → m' !! k = m !! k.
Proof.
  revert m o; induction fields as [|f fields IH]; intros m o Hfold Hk.
  { simpl in Hfold. by simplify_eq. }
  rewrite fmap_cons, not_elem_of_cons in Hk. destruct Hk as [Hf Hk].
  cbn [foldl] in Hfold.
  destruct (put_optarg_cases m o f) as [[_ E]|[_ E]]; rewrite E in Hfold.
  - by eapply IH.
  - rewrite (IH _ _ Hfold Hk).
    destruct (o !! proto.python_name f) as [v|]; [|done].
    destruct (is_None v); [done|]. unfold proto.put.
    by rewrite lookup_insert_ne.
Qed.

(** X8. The request that [produce_request] makes, for a schema entry
    whose request fields have names of their own, apart from one another
    and from the three fields of every message: it has the command and the
    id of the transaction, it is marked as a request, each positional
    argument is under the name of its field, and it has no field beside
    these and the optional request fields. *)
Theorem produce_request_builds_the_request self args optargs cb t' m :
  let fields := proto.request_fields (ta_type self) in
  let opt_fields := proto.opt_request_fields (ta_type self) in
  NoDup (header ++ (proto.name <$> fields) ++ (proto.name <$> opt_fields)) →
  produce_request self args optargs cb = (t', Ok m) →
  m !! "ta-cmd"%string = Some (JStr (proto.cmd (ta_type self)))
  ∧ m !! "ta-id"%string = Some (JInt (ta_id self))
  ∧ m !! "msg-type"%string = Some (JStr "request")
  ∧ Forall2 (λ f v, m !! proto.name f = Some v) fields args
  ∧ (∀ k, is_Some (m !! k) →
          k ∈ header ++ (proto.name <$> fields) ++ (proto.name <$> opt_fields)).
Proof.
  intros fields opt_fields Hnd. unfold produce_request.
  case_bool_decide as Hlen; [|done]. cbn [negb].
  match goal with |- context [foldl put_optarg ?acc _] =>
    destruct (foldl put_optarg acc (proto.opt_request_fields (ta_type self)))
      as [m' o'] eqn:Hfold end.
  destruct (negb _); [done|]. intros [= <- <-].
  apply NoDup_app in Hnd as (_ & Hhead & Hnd).
  apply NoDup_app in Hnd as (Hf & Hfo & _).
  fold fields in Hfold, Hlen. fold opt_fields in Hfold.
  assert (∀ k, k ∈ header → k ∉ proto.name <$> opt_fields) as Hho.
  { intros k Hk Hin. apply (Hhead k Hk). apply elem_of_app. by right. }
  assert (∀ k, k ∈ header → k ∉ proto.name <$> fields) as Hhf.
  { intros k Hk Hin. apply (Hhead k Hk). apply elem_of_app. by left. }
  assert (∀ k, k ∈ header ∨ k ∈ proto.name <$> fields →
               m' !! k
               = foldl (λ m fv, proto.put fv.1 fv.2 m)
                   (proto.put proto.FIELD_MSG_TYPE (JStr proto.MSG_TYPE_REQUEST)
                      (proto.put proto.FIELD_TA_ID (JInt (ta_id self))
                         (proto.put proto.FIELD_TA_CMD
                            (JStr (proto.cmd (ta_type self))) ∅)))
                   (zip fields args) !! k) as Hm'.
  { intros k Hk. eapply put_optargs_outside; [exact Hfold|].
    destruct Hk as [Hk|Hk]; [by apply Hho|by apply Hfo]. }
  assert (∀ k, k ∈ header →
               m' !! k
               = proto.put proto.FIELD_MSG_TYPE (JStr proto.MSG_TYPE_REQUEST)
                   (proto.put proto.FIELD_TA_ID (JInt (ta_id self))
                      (proto.put proto.FIELD_TA_CMD
                         (JStr (proto.cmd (ta_type self))) ∅)) !! k) as Hh.
  { intros k Hk. rewrite Hm' by (by left).
    apply put_fields_other. by apply Hhf. }
  split; [|split; [|split; [|split]]].
  - rewrite Hh by (unfold header; set_solver). done.
  - rewrite Hh by (unfold header; set_solver). done.
  - rewrite Hh by (unfold header; set_solver). done.
  - pose proof (put_fields_lookup fields args
                  (proto.put proto.FIELD_MSG_TYPE (JStr proto.MSG_TYPE_REQUEST)
                     (proto.put proto.FIELD_TA_ID (JInt (ta_id self))
                        (proto.put proto.FIELD_TA_CMD
                           (JStr (proto.cmd (ta_type self))) ∅)))
                  Hf Hlen) as Hall.
    eapply Forall2_impl; [exact Hall|]. simpl. intros f v [Hin Hv].
    rewrite Hm'; [done|]. right. apply list_elem_of_fmap. eauto.
  - intros k Hk.
    destruct (decide (k ∈ proto.name <$> opt_fields)) as [?|Ho].
    { apply elem_of_app. right. apply elem_of_app. by right. }
    rewrite (put_optargs_outside _ _ _ _ _ k Hfold Ho) in Hk.
    apply put_fields_dom in Hk as [Hk|Hk].
    + apply elem_of_app. left. unfold proto.put in Hk.
      cbn [proto.name proto.FIELD_MSG_TYPE proto.FIELD_TA_ID
           proto.FIELD_TA_CMD proto.StrField proto.IntField] in Hk.
      unfold header.
      destruct (decide (k = "msg-type"%string)) as [->|?]; [set_solver|].
      destruct (decide (k = "ta-id"%string)) as [->|?]; [set_solver|].
      destruct (decide (k = "ta-cmd"%string)) as [->|?]; [set_solver|].
      rewrite !lookup_insert_ne, lookup_empty in Hk by done.
      by destruct Hk.
    + apply elem_of_app. right. apply elem_of_app. by left.
Qed.

(** ** More on the connection engine *)

(** A send attempt returns, or raises the error of the transport. *)
Lemma try_send_result w :
  (∃ b, (try_send w).1 = Ok b)
  ∨ (∃ errno, errno ≠ xcm.EAGAIN ∧ (try_send w).1 = Raise (TransportError errno)).
Proof.
  unfold try_send.
  destruct (out_wire_msgs (client w)) as [|m rest]; simpl; [eauto|].
  destruct (xcm.sends (conn_sock (client w))) as [|[errno|] script];
    simpl; repeat case_bool_decide; simpl; eauto.
Qed.

Lemma produce_request_Ok self args optargs cb t m :
  produce_request self args optargs cb = (t, Ok m) →
  t = {| ta_id := ta_id self; ta_type := ta_type self; state := REQUESTING;
         cb := Some cb |}.
Proof.
  unfold produce_request. intros H.
  repeat (case_match; simplify_eq). done.
Qed.

Lemma produce_request_Raise self args optargs cb t e :
  produce_request self args optargs cb = (t, Raise e) →
  ∃ c, e = AssertionError c.
Proof.
  unfold produce_request. intros H.
  repeat (case_match; simplify_eq); eauto.
Qed.

(** X9. A request with the wrong number of positional arguments fails an
    assertion, and a request that fails an assertion has used up a
    transaction id and done nothing else: nothing is put on the queue,
    nothing is registered, nothing is asked of the transport. *)
Theorem async_request_failed_assertion_uses_up_the_id ty args optargs cb w :
  let x := async_request ty args optargs cb w in
  (length args ≠ length (proto.request_fields ty) →
   ∃ c, x.1 = Raise (AssertionError c))
  ∧ (∀ c, x.1 = Raise (AssertionError c) →
          x.2 = on_client (set_Client_ta_id (Client_ta_id (client w) + 1)) w).
Proof.
  cbn zeta. unfold async_request. cbn [next_ta_id].
  destruct (produce_request _ args optargs cb) as [t [m|e]] eqn:Hp.
  - split.
    + intros Hlen. unfold produce_request in Hp.
      rewrite bool_decide_false in Hp by done. done.
    + intros c.
      match goal with |- context [try_send ?W] =>
        destruct (try_send_result W) as [[b Hb]|(errno & _ & Hb)];
        destruct (try_send W) as [r w1] end.
      all: cbn [fst] in Hb; subst r; done.
  - split; [|done]. intros _.
    apply produce_request_Raise in Hp as [c ->]. eauto.
Qed.

(** X10. A request that [produce_request] accepts is registered under the
    id that was next, in state REQUESTING and with its handler, and no
    other entry of the registry changes. The request returns that id
    unless the send attempt fails for good; then the transport error is
    raised, and the transaction is registered all the same. *)
Theorem async_request_registers_the_transaction ty args optargs cb w t m :
  produce_request (Transaction_init ty (Client_ta_id (client w)))
                  args optargs cb = (t, Ok m) →
  let x := async_request ty args optargs cb w in
  let id := Client_ta_id (client w) in
  transactions (client x.2)
  = <[id := {| ta_id := id; ta_type := ty; state := REQUESTING;
               cb := Some cb |}]> (transactions (client w))
  ∧ (x.1 = Ok id
     ∨ ∃ errno, errno ≠ xcm.EAGAIN ∧ x.1 = Raise (TransportError errno)).
Proof.
  intros Hp. cbn zeta. unfold async_request. cbn [next_ta_id].
  rewrite Hp. apply produce_request_Ok in Hp as ->.
  match goal with |- context [try_send ?W] =>
    destruct (try_send_result W) as [[b Hb]|(errno & Hne & Hb)];
    destruct (try_send_frame W) as (Ht & _);
    destruct (try_send W) as [r w1] end.
  all: cbn [fst snd] in *; subst r; cbn [fst snd]; rewrite Ht; split; eauto.
Qed.

(** What a send attempt does when the transport takes the message. *)
Lemma try_send_accepted w m rest script :
  out_wire_msgs (client w) = m :: rest →
  xcm.sends (conn_sock (client w)) = None :: script →
  (try_send w).1 = Ok true
  ∧ out_wire_msgs (client (try_send w).2) = rest
  ∧ xcm.sends (conn_sock (client (try_send w).2)) = script
  ∧ io (try_send w).2 = io w ++ [xcm.Send m None]
  ∧ xcm.receives (conn_sock (client (try_send w).2))
    = xcm.receives (conn_sock (client w)).
Proof.
  intros Hq Hs. unfold try_send, io. rewrite Hq. simpl. rewrite Hs. simpl.
  repeat split. rewrite !filter_app. simpl. by rewrite app_nil_r.
Qed.

(** What it does when the transport fails for good: the message is
    gone. *)
Lemma try_send_failed w m rest errno script :
  out_wire_msgs (client w) = m :: rest →
  xcm.sends (conn_sock (client w)) = Some errno :: script →
  errno ≠ xcm.EAGAIN →
  (try_send w).1 = Raise (TransportError errno)
  ∧ out_wire_msgs (client (try_send w).2) = rest
  ∧ io (try_send w).2 = io w ++ [xcm.Send m (Some errno)]
  ∧ xcm.receives (conn_sock (client (try_send w).2))
    = xcm.receives (conn_sock (client w)).
Proof.
  intros Hq Hs Hne. unfold try_send, io. rewrite Hq. simpl. rewrite Hs. simpl.
  rewrite bool_decide_false by done. simpl.
  repeat split. rewrite !filter_app. simpl. by rewrite app_nil_r.
Qed.

Lemma send_round_failure n sent m rest errno script w :
  out_wire_msgs (client w) = sent ++ m :: rest →
  xcm.sends (conn_sock (client w))
  = replicate (length sent) None ++ Some errno :: script →
  errno ≠ xcm.EAGAIN →
  (length sent < n)%nat →
  ∃ w', attempts n try_send w = (Raise (TransportError errno), w')
        ∧ out_wire_msgs (client w') = rest
        ∧ io w' = io w ++ ((λ b, xcm.Send b None) <$> sent)
                       ++ [xcm.Send m (Some errno)]
        ∧ xcm.receives (conn_sock (client w'))
          = xcm.receives (conn_sock (client w)).
Proof.
  intros Hq Hs Hne. revert n w Hq Hs.
  induction sent as [|b sent IH]; intros n w Hq Hs Hn;
    (destruct n as [|n]; [simpl in Hn; lia|]); cbn [attempts].
  - destruct (try_send_failed w m rest errno script Hq Hs Hne)
      as (Hr & Hq' & Hio & Hrecv).
    destruct (try_send w) as [r w1]; cbn [fst snd] in *. subst r.
    exists w1. by repeat split.
  - destruct (try_send_accepted w b (sent ++ m :: rest)
                (replicate (length sent) None ++ Some errno :: script) Hq Hs)
      as (Hr & Hq' & Hs' & Hio & Hrecv).
    destruct (try_send w) as [r w1]; cbn [fst snd] in *. subst r.
    destruct (IH n w1 Hq' Hs') as (w' & Ha & Hq'' & Hio' & Hrecv').
    { simpl in Hn. lia. }
    exists w'. split; [done|]. split; [done|]. split.
    + rewrite Hio', Hio. cbn [fmap list_fmap]. by rewrite <-!app_assoc.
    + by rewrite Hrecv'.
Qed.

(** X11. When a send fails for good in a round, with an error other than
    would-block, [process] raises the transport error at once: the
    messages before the one that failed were sent, that one is gone from
    the queue though it was not sent, those behind it stay on the queue,
    and nothing is received in this round. *)
Theorem process_stops_at_a_failed_send sent m rest errno script w :
  out_wire_msgs (client w) = sent ++ m :: rest →
  xcm.sends (conn_sock (client w))
  = replicate (length sent) None ++ Some errno :: script →
  errno ≠ xcm.EAGAIN →
  (length sent < 128)%nat →
  (process w).1 = Raise (TransportError errno)
  ∧ out_wire_msgs (client (process w).2) = rest
  ∧ io (process w).2
    = io w ++ ((λ b, xcm.Send b None) <$> sent) ++ [xcm.Send m (Some errno)]
  ∧ xcm.receives (conn_sock (client (process w).2))
    = xcm.receives (conn_sock (client w)).
Proof.
  intros Hq Hs Hne Hn. unfold process.
  destruct (send_round_failure MAX_MSGS_PER_ROUND sent m rest errno script w
              Hq Hs Hne Hn) as (w' & -> & ?).
  done.
Qed.

(** A receive attempt on a message for a registered transaction. *)
Lemma try_receive_routed w in_msg rest k t :
  xcm.receives (conn_sock (client w)) = inl (xcm.Encoded in_msg) :: rest →
  in_msg !! "ta-id"%string = Some (JInt k) →
  transactions (client w) !! k = Some t →
  let w1 := on_client (set_conn_sock (xcm.receive (conn_sock (client w))).2)
                      w in
  let x := consume_message t (delete "ta-id"%string in_msg) w1 in
  try_receive w
  = (match x.1.2 with Ok _ => Ok true | Raise e => Raise e end,
     update
       (on_client
          (λ c, set_transactions
                  (match x.1.2 with
                   | Ok _ =>
                       if bool_decide (state x.1.1 = TERMINATED)
                       then delete k (<[k := x.1.1]> (transactions c))
                       else <[k := x.1.1]> (transactions c)
                   | Raise _ => <[k := x.1.1]> (transactions c)
                   end) c)
          x.2)).
Proof.
  intros Hrecv Hid Ht. cbn zeta. unfold try_receive, xcm.receive, proto.pull.
  rewrite Hrecv. simpl. rewrite Hid. simpl. rewrite Ht. simpl.
  destruct (consume_message _ _ _) as [[t' [u|e]] w2]; simpl; [|done].
  by case_bool_decide.
Qed.

(** A receive attempt that hands no message to a transaction does
    nothing but receive and register the interest. *)
Lemma try_receive_unrouted w :
  (∀ in_msg rest k,
     xcm.receives (conn_sock (client w)) = inl (xcm.Encoded in_msg) :: rest →
     in_msg !! "ta-id"%string = Some (JInt k) →
     transactions (client w) !! k = None) →
  (try_receive w).2
  = update (on_client (set_conn_sock (xcm.receive (conn_sock (client w))).2)
                      w).
Proof.
  intros Hno. unfold try_receive, xcm.receive, proto.pull.
  destruct (xcm.receives (conn_sock (client w)))
    as [|[[in_msg| |raw]|errno] rest]; simpl; try done.
  2: by case_bool_decide.
  destruct (in_msg !! "ta-id"%string) as [v|] eqn:Hid; simpl; [|done].
  destruct v as [|b|n|c|l|l]; simpl; try done.
  by rewrite (Hno in_msg rest n).
Qed.

(** The registry after a receive attempt on a message for a registered
    transaction. *)
Lemma try_receive_routed_registry w in_msg rest k t k' :
  xcm.receives (conn_sock (client w)) = inl (xcm.Encoded in_msg) :: rest →
  in_msg !! "ta-id"%string = Some (JInt k) →
  transactions (client w) !! k = Some t →
  k' ≠ k →
  transactions (client (try_receive w).2) !! k'
  = transactions (client w) !! k'.
Proof.
  intros Hrecv Hid Ht Hne.
  rewrite (try_receive_routed w in_msg rest k t) by done. cbn [snd].
  match goal with |- context [update ?W] =>
    destruct (update_engine W) as (_ & -> & _) end.
  match goal with |- context [consume_message t ?m ?W] =>
    destruct (consume_message t m W) as [[t' r] w2] eqn:Hc end.
  handler_frame as (_ & _ & Ht' & _).
  simpl. rewrite Ht'. simpl.
  destruct r as [u|e]; [case_bool_decide|].
  all: rewrite ?lookup_delete_ne by done.
  all: by rewrite lookup_insert_ne.
Qed.

(** X12. A receive attempt changes no entry of the registry but the one
    of the transaction whose id the received message bears. *)
Theorem try_receive_touches_one_transaction w k :
  transactions (client (try_receive w).2) !! k
  ≠ transactions (client w) !! k →
  ∃ in_msg rest,
    xcm.receives (conn_sock (client w)) = inl (xcm.Encoded in_msg) :: rest
    ∧ in_msg !! "ta-id"%string = Some (JInt k).
Proof.
  intros Hne.
  destruct (xcm.receives (conn_sock (client w)))
    as [|[[in_msg| |raw]|errno] rest] eqn:Hrecv.
  2: destruct (in_msg !! "ta-id"%string) as [[|b|n|c|l|l]|] eqn:Hid.
  4: destruct (transactions (client w) !! n) as [t|] eqn:Ht.
  4:{ exists in_msg, rest. split; [done|].
      destruct (decide (k = n)) as [->|Hk]; [done|]. destruct Hne.
      by apply (try_receive_routed_registry w in_msg rest n t). }
  all: destruct Hne; rewrite try_receive_unrouted; [done|].
  all: intros; congruence.
Qed.

Lemma update_untouched w : untouched w (update w).
Proof. by unfold untouched, update. Qed.

(** X13. A receive attempt that gets no message: when the transport
    would block it returns [False]; when the transport fails otherwise it
    raises the transport error; when the payload is empty, the peer having
    closed the connection, or is no JSON, it raises a protocol error. In
    each case the queue, the registry, the id counter and the [Call]
    objects are as before, no handler is called, and the transport handle
    is not closed. *)
Theorem try_receive_without_a_message w :
  let outcome := default (inr xcm.EAGAIN)
                         (head (xcm.receives (conn_sock (client w)))) in
  (∀ in_msg, outcome ≠ inl (xcm.Encoded in_msg)) →
  (try_receive w).1 = no_message outcome
  ∧ untouched w (try_receive w).2
  ∧ out_wire_msgs (client (try_receive w).2) = out_wire_msgs (client w).
Proof.
  cbn zeta. unfold try_receive, xcm.receive.
  destruct (xcm.receives (conn_sock (client w))) as [|[b|errno] rest];
    cbn [head default]; intros Hno.
  - by rewrite bool_decide_true.
  - destruct b as [in_msg| |raw]; [by destruct (Hno in_msg)|done..].
  - unfold no_message. simpl. by case_bool_decide.
Qed.

(** The registry stays well formed. *)
Lemma try_send_well_formed w : well_formed w → well_formed (try_send w).2.
Proof.
  unfold well_formed. by destruct (try_send_frame w) as (-> & _).
Qed.

Lemma try_receive_well_formed w :
  well_formed w → well_formed (try_receive w).2.
Proof.
  intros Hw k t' Hk.
  destruct (xcm.receives (conn_sock (client w)))
    as [|[[in_msg| |raw]|errno] rest] eqn:Hrecv.
  2: destruct (in_msg !! "ta-id"%string) as [[|b|n|c|l|l]|] eqn:Hid.
  4: destruct (transactions (client w) !! n) as [t|] eqn:Ht.
  4:{ destruct (decide (k = n)) as [->|Hne].
      2:{ rewrite (try_receive_routed_registry w in_msg rest n t) in Hk
            by done. by apply Hw. }
      rewrite (try_receive_routed w in_msg rest n t) in Hk by done.
      cbn [snd] in Hk.
      match type of Hk with context [update ?W] =>
        destruct (update_engine W) as (_ & E & _); rewrite E in Hk; clear E
      end.
      match type of Hk with context [consume_message t ?m ?W] =>
        pose proof (consume_message_identity t m W) as (Hid1 & _ & Hid3 & Hst);
        destruct (consume_message t m W) as [[t1 r] w2] end.
      cbn [fst snd] in *. apply Hw in Ht as (Hr1 & Hr2 & Hr3).
      assert (ta_id t1 = n ∧ state t1 ≠ IDLE ∧ is_Some (cb t1)) as Hok.
      { split; [congruence|]. split; [|congruence].
        destruct Hst as [E|[(_ & E & _)|E]]; rewrite E; done. }
      simpl in Hk. destruct r as [u|e]; [case_bool_decide|].
      - by rewrite lookup_delete_eq in Hk.
      - rewrite lookup_insert_eq in Hk. by simplify_eq.
      - rewrite lookup_insert_eq in Hk. by simplify_eq. }
  all: rewrite try_receive_unrouted in Hk; [by apply Hw|].
  all: intros; congruence.
Qed.

Lemma process_well_formed w : well_formed w → well_formed (process w).2.
Proof.
  intros Hw. unfold process. generalize MAX_MSGS_PER_ROUND; intros n.
  pose proof (attempts_closure (λ a b, well_formed a → well_formed b)
                try_send (λ _ H, H) (λ _ _ _ f g H, g (f H))
                try_send_well_formed n w Hw) as H1.
  destruct (attempts n try_send w) as [[[]|e] w1]; cbn [snd] in *; [|done].
  by apply (attempts_closure (λ a b, well_formed a → well_formed b)
              try_receive (λ _ H, H) (λ _ _ _ f g H, g (f H))
              try_receive_well_formed).
Qed.

Lemma wait_well_formed fuel criteria w :
  well_formed w → well_formed (wait fuel criteria w).2.
Proof.
  revert w; induction fuel as [|fuel IH]; intros w Hw; cbn [wait];
    destruct (criteria w); cbn [snd]; try done.
  pose proof (process_well_formed w Hw) as Hp.
  destruct (process w) as [[[]|e] w1]; cbn [snd] in *; eauto.
Qed.

Lemma async_request_well_formed ty args optargs cb w :
  well_formed w → well_formed (async_request ty args optargs cb w).2.
Proof.
  intros Hw. unfold async_request. cbn [next_ta_id].
  destruct (produce_request _ args optargs cb) as [t [m|e]] eqn:Hp;
    [|done].
  apply produce_request_Ok in Hp as ->.
  match goal with |- context [try_send ?W] =>
    assert (well_formed W) as Hw1 end.
  { intros k t. simpl. rewrite lookup_insert. case_decide.
    - intros [= <-]. subst. simpl. eauto.
    - apply Hw. }
  match goal with |- context [try_send ?W] =>
    pose proof (try_send_well_formed W Hw1) as Hw2;
    destruct (try_send W) as [[b|e] w2] end; done.
Qed.

Lemma get_well_formed ref fuel w :
  well_formed w → well_formed (get ref fuel w).2.
Proof.
  intros Hw. unfold get, Call_get.
  pose proof (wait_well_formed fuel (terminal ref) w Hw) as H1.
  destruct (wait fuel (terminal ref) w) as [[[[]|e]|] w1]; cbn [snd] in *.
  all: repeat case_match; simplify_eq; cbn [snd]; done.
Qed.

Lemma issue_request_well_formed ty args optargs c cb fuel w :
  well_formed w → well_formed (issue_request ty args optargs c cb fuel w).2.
Proof.
  intros Hw. unfold issue_request. destruct cb as [cb|].
  - pose proof (async_request_well_formed ty args optargs cb w Hw) as H1.
    by destruct (async_request ty args optargs cb w) as [[id|e] w1].
  - destruct c as [c|]; [|done]. unfold sync_request.
    set (ref := fresh (dom (objects w))).
    set (w0 := set_objects _ w).
    pose proof (async_request_well_formed ty args optargs (call_object ref)
                  w0 Hw) as H1.
    destruct (async_request ty args optargs (call_object ref) w0)
      as [[id|e] w1]; cbn [snd] in *; [|done].
    by apply get_well_formed.
Qed.

Lemma perform_well_formed o w : well_formed w → well_formed (perform o w).2.
Proof.
  intros Hw.
  destruct o as [|ty args optargs cb|ty args optargs c cb fuel| | |];
    cbn [perform].
  - done.
  - destruct (returning_spec RId (async_request ty args optargs cb w))
      as (-> & _). by apply async_request_well_formed.
  - by apply issue_request_well_formed.
  - destruct (returning_spec RBool (try_send w)) as (-> & _).
    by apply try_send_well_formed.
  - destruct (returning_spec RBool (try_receive w)) as (-> & _).
    by apply try_receive_well_formed.
  - destruct (returning_spec (λ _, RNone) (process w)) as (-> & _).
    by apply process_well_formed.
Qed.

Lemma run_well_formed ops w : well_formed w → well_formed (run ops w).2.
Proof.
  revert w; induction ops as [|o ops IH]; intros w Hw; [done|].
  rewrite run_cons. pose proof (perform_well_formed o w Hw) as Hp.
  destruct (perform o w).1; cbn [snd]; eauto.
Qed.

Lemma Client_init_well_formed cid sock rcb fuel w :
  well_formed (Client_init cid (inl sock) rcb fuel w).2.
Proof.
  unfold Client_init.
  match goal with |- context [initial_hello fuel ?W] =>
    assert (well_formed W) as Hw1;
    [|set (w1 := W) in *; clearbody w1] end.
  { intros k t. simpl. by rewrite lookup_empty. }
  assert (well_formed (initial_hello fuel w1).2) as Hih.
  { unfold initial_hello, hello, issue_request.
    pose proof (async_request_well_formed proto.TA_HELLO
                [JInt (client_id (client w1)); JInt proto.VERSION;
                 JInt proto.VERSION] ∅ initial_hello_cb w1 Hw1) as Hr.
    destruct (async_request _ _ _ _ w1) as [[id|e] w2]; cbn [snd] in *;
      [|done].
    destruct (ready_cb (client w2)); [done|]. by apply wait_well_formed. }
  destruct (initial_hello fuel w1) as [[[u|e]|] w2]; cbn [snd] in *;
    try done.
  by destruct (is_Error e).
Qed.

(** X14. The registry of a connection is well formed: the constructor
    leaves it so, and every call keeps it so. Each transaction is
    registered under its own id, none is in state IDLE, and each has its
    handler. *)
Theorem the_registry_stays_well_formed :
  (∀ client_id sock ready_cb fuel w,
     well_formed (Client_init client_id (inl sock) ready_cb fuel w).2)
  ∧ (∀ ops w, well_formed w → well_formed (run ops w).2).
Proof. split; [apply Client_init_well_formed | apply run_well_formed]. Qed.

(** ** Waiting *)

Lemma wait_criterion fuel criteria w :
  let x := wait fuel criteria w in
  (x.1 = Some (Ok ()) → criteria x.2 = true)
  ∧ (x.1 = None → criteria x.2 = false)
  ∧ (∀ e, x.1 = Some (Raise e) →
          ∃ w0, criteria w0 = false ∧ process w0 = (Raise e, x.2)).
Proof.
  revert w; induction fuel as [|fuel IH]; intros w; cbn [wait];
    destruct (criteria w) eqn:Hc; cbn [fst snd]; try by eauto.
  destruct (process w) as [[[]|e] w1] eqn:Hp; [apply IH|].
  cbn [fst snd]. split; [done|]. split; [done|].
  intros ? [= <-]. eauto.
Qed.

(** Once the wait has ended, more rounds than it took change nothing. *)
Lemma wait_fuel fuel fuel' criteria w :
  (fuel ≤ fuel')%nat →
  (wait fuel criteria w).1 ≠ None →
  wait fuel' criteria w = wait fuel criteria w.
Proof.
  revert fuel' w; induction fuel as [|fuel IH]; intros fuel' w Hle;
    cbn [wait].
  - destruct (criteria w) eqn:Hc; [|done]. intros _.
    destruct fuel'; cbn [wait]; by rewrite Hc.
  - destruct fuel' as [|fuel']; [lia|]. cbn [wait].
    destruct (criteria w); [done|].
    destruct (process w) as [[[]|e] w1]; [|done].
    apply IH. lia.
Qed.

(** X15. [wait] returns only when its criterion holds, and at once when
    it holds already; an exception that leaves it is one that [process]
    raised in a round that began with the criterion not holding. The
    rounds allowed matter only as long as the wait has not ended. *)
Theorem wait_ends_when_the_criterion_holds fuel criteria w :
  let x := wait fuel criteria w in
  (x.1 = Some (Ok ()) → criteria x.2 = true)
  ∧ (x.1 = None → criteria x.2 = false)
  ∧ (criteria w = true → x = (Some (Ok ()), w))
  ∧ (∀ e, x.1 = Some (Raise e) →
          ∃ w0, criteria w0 = false ∧ process w0 = (Raise e, x.2))
  ∧ (∀ fuel', (fuel ≤ fuel')%nat → x.1 ≠ None → wait fuel' criteria w = x).
Proof.
  cbn zeta. destruct (wait_criterion fuel criteria w) as (H1 & H2 & H3).
  split; [done|]. split; [done|]. split; [|split; [done|]].
  - intros Hc. destruct fuel; cbn [wait]; by rewrite Hc.
  - intros fuel' Hle Hx. by apply wait_fuel.
Qed.

Lemma untouched_refl w : untouched w w.
Proof. by unfold untouched. Qed.

Lemma untouched_trans a b c : untouched a b → untouched b c → untouched a c.
Proof.
  unfold untouched. intros (?&?&?&?&?&?&?&?&?) (?&?&?&?&?&?&?&?&?).
  repeat split; congruence.
Qed.

Lemma try_send_untouched w :
  untouched w (try_send w).2
  ∧ xcm.receives (conn_sock (client (try_send w).2))
    = xcm.receives (conn_sock (client w)).
Proof.
  unfold try_send, untouched.
  destruct (out_wire_msgs (client w)) as [|m rest] eqn:Hq; simpl; [done|].
  destruct (xcm.sends (conn_sock (client w))) as [|[errno|] script];
    simpl; repeat case_bool_decide; done.
Qed.

(** A round of send attempts on a transport that does not fail for
    good. *)
Lemma send_round_sendable n w :
  sendable (xcm.sends (conn_sock (client w))) →
  ∃ w', attempts n try_send w = (Ok (), w')
        ∧ untouched w w'
        ∧ sendable (xcm.sends (conn_sock (client w')))
        ∧ xcm.receives (conn_sock (client w'))
          = xcm.receives (conn_sock (client w)).
Proof.
  revert w; induction n as [|n IH]; intros w Hs; cbn [attempts].
  { exists w. split; [done|]. split; [apply untouched_refl|done]. }
  destruct (try_send_sendable w Hs) as [[b Hb] Hs'].
  destruct (try_send_untouched w) as [Hu Hr].
  destruct (try_send w) as [r w1]; cbn [fst snd] in *. subst r.
  destruct b; [|by eauto].
  destruct (IH w1 Hs') as (w' & -> & Hu' & Hs'' & Hr').
  exists w'. split; [done|]. split; [by eapply untouched_trans|].
  split; [done|]. by rewrite Hr'.
Qed.

(** A receive attempt when the transport would block. *)
Lemma try_receive_blocked w :
  coming w = inr xcm.EAGAIN →
  (try_receive w).1 = Ok false
  ∧ untouched w (try_receive w).2
  ∧ xcm.sends (conn_sock (client (try_receive w).2))
    = xcm.sends (conn_sock (client w))
  ∧ xcm.receives (conn_sock (client (try_receive w).2))
    = tail (xcm.receives (conn_sock (client w))).
Proof.
  unfold coming, try_receive, xcm.receive.
  destruct (xcm.receives (conn_sock (client w))) as [|o rest]; simpl.
  - done.
  - intros ->. simpl. done.
Qed.

(** A round in which the transport has nothing to deliver. *)
Lemma process_blocked w :
  sendable (xcm.sends (conn_sock (client w))) →
  coming w = inr xcm.EAGAIN →
  ∃ w', process w = (Ok (), w')
        ∧ untouched w w'
        ∧ sendable (xcm.sends (conn_sock (client w')))
        ∧ xcm.receives (conn_sock (client w'))
          = tail (xcm.receives (conn_sock (client w))).
Proof.
  intros Hs Hc. unfold process.
  destruct (send_round_sendable MAX_MSGS_PER_ROUND w Hs)
    as (w1 & -> & Hu & Hs1 & Hr1).
  change MAX_MSGS_PER_ROUND with (S 127). cbn [attempts].
  destruct (try_receive_blocked w1) as (Hr & Hu' & Hs' & Hr').
  { unfold coming. by rewrite Hr1. }
  destruct (try_receive w1) as [r w2]; cbn [fst snd] in *. subst r.
  exists w2. split; [done|]. split; [by eapply untouched_trans|].
  split; [by rewrite Hs'|]. by rewrite Hr', Hr1.
Qed.

(** Each round of a wait uses up one would-block receive. *)
Lemma wait_blocked k recvs fuel criteria w :
  (∀ a b, untouched a b → criteria b = criteria a) →
  criteria w = false →
  sendable (xcm.sends (conn_sock (client w))) →
  xcm.receives (conn_sock (client w))
  = replicate k (inr xcm.EAGAIN) ++ recvs →
  ∃ w', untouched w w'
        ∧ sendable (xcm.sends (conn_sock (client w')))
        ∧ xcm.receives (conn_sock (client w')) = recvs
        ∧ wait (k + fuel) criteria w = wait fuel criteria w'.
Proof.
  intros Hcrit. revert w; induction k as [|k IH]; intros w Hc Hs Hr.
  { exists w. split; [apply untouched_refl|done]. }
  cbn [Nat.add wait]. rewrite Hc.
  destruct (process_blocked w Hs) as (w1 & -> & Hu & Hs1 & Hr1).
  { unfold coming. by rewrite Hr. }
  rewrite Hr in Hr1. cbn [replicate app tail] in Hr1.
  destruct (IH w1) as (w' & Hu' & Hs' & Hr' & Hw); [|done..|].
  { by rewrite (Hcrit w w1). }
  exists w'. split; [by eapply untouched_trans|done].
Qed.

(** A round in which the transport delivers one message, for a registered
    transaction, and then would block: the handler sees the connection
    as it was, and the registry is brought up to date. *)
Lemma process_delivers w in_msg after k t :
  sendable (xcm.sends (conn_sock (client w))) →
  xcm.receives (conn_sock (client w)) = inl (xcm.Encoded in_msg) :: after →
  default (inr xcm.EAGAIN) (head after) = inr xcm.EAGAIN →
  in_msg !! "ta-id"%string = Some (JInt k) →
  transactions (client w) !! k = Some t →
  ∃ w1, untouched w w1
    ∧ let x := consume_message t (delete "ta-id"%string in_msg) w1 in
      (process w).1 = match x.1.2 with Ok _ => Ok () | Raise e => Raise e end
      ∧ transactions (client (process w).2)
        = routed_registry k x.1.1 x.1.2 (transactions (client w))
      ∧ Client_ta_id (client (process w).2) = Client_ta_id (client w)
      ∧ proto_version (client (process w).2) = proto_version (client x.2)
      ∧ objects (process w).2 = objects x.2
      ∧ user_calls (process w).2 = user_calls x.2
      ∧ xcm.closed (conn_sock (client (process w).2))
        = xcm.closed (conn_sock (client w))
      ∧ sendable (xcm.sends (conn_sock (client (process w).2)))
      ∧ (x.1.2 = Ok () →
         xcm.receives (conn_sock (client (process w).2)) = tail after).
Proof.
  intros Hs Hr Hafter Hid Ht. unfold process.
  destruct (send_round_sendable MAX_MSGS_PER_ROUND w Hs)
    as (w1 & -> & Hu & Hs1 & Hr1).
  change MAX_MSGS_PER_ROUND with (S (S 126)). cbn [attempts].
  pose proof Hu as (Hu1 & Hu2 & _ & _ & _ & _ & _ & _ & Hu9).
  rewrite Hr in Hr1. rewrite <-Hu1 in Ht.
  rewrite (try_receive_routed w1 in_msg after k t Hr1 Hid Ht).
  set (w1' := on_client _ w1).
  assert (untouched w w1') as Hu'.
  { eapply untouched_trans; [exact Hu|]. by unfold untouched. }
  exists w1'. split; [done|]. cbn zeta.
  destruct (consume_message t (delete "ta-id"%string in_msg) w1')
    as [[t' r] w2] eqn:Hc.
  pose proof Hc as Hc'.
  apply consume_message_engine, engine_inv in Hc' as (Es & Eq & Et & Ei).
  cbn [fst snd].
  assert (xcm.sends (conn_sock (client w2))
          = xcm.sends (conn_sock (client w1))) as Hsends by (by rewrite Es).
  assert (xcm.receives (conn_sock (client w2)) = after) as Hrecv.
  { rewrite Es. subst w1'. simpl. by rewrite Hr1. }
  assert (xcm.closed (conn_sock (client w2))
          = xcm.closed (conn_sock (client w))) as Hclosed.
  { rewrite Es. subst w1'. simpl. done. }
  assert (transactions (client w2) = transactions (client w)) as Htr.
  { rewrite Et. subst w1'. simpl. done. }
  assert (Client_ta_id (client w2) = Client_ta_id (client w)) as Hta.
  { rewrite Ei. subst w1'. simpl. done. }
  destruct r as [[]|e].
  - match goal with |- context [try_receive ?W] => set (w3 := W) end.
    assert (transactions (client w3)
            = routed_registry k t' (Ok ()) (transactions (client w))
            ∧ Client_ta_id (client w3) = Client_ta_id (client w)
            ∧ proto_version (client w3) = proto_version (client w2)
            ∧ objects w3 = objects w2 ∧ user_calls w3 = user_calls w2
            ∧ xcm.closed (conn_sock (client w3))
              = xcm.closed (conn_sock (client w))
            ∧ xcm.sends (conn_sock (client w3))
              = xcm.sends (conn_sock (client w1))
            ∧ xcm.receives (conn_sock (client w3)) = after)
      as (E1 & E2 & E3 & E4 & E5 & E6 & E7 & E8).
    { subst w3. unfold routed_registry. simpl.
      rewrite Htr, Hta, Hclosed, Hsends, Hrecv.
      case_bool_decide; [|done]. by rewrite delete_insert_eq. }
    clearbody w3.
    destruct (try_receive_blocked w3) as (Hrb & Hub & Hsb & Hrcb).
    { unfold coming. by rewrite E8. }
    destruct (try_receive w3) as [r w4]; cbn [fst snd] in *. subst r.
    destruct Hub as (U1 & U2 & U3 & _ & _ & U6 & U7 & _ & U9).
    cbn [fst snd].
    rewrite U1, U2, U3, U6, U7, U9, Hsb, Hrcb, E1, E2, E3, E4, E5, E6, E7, E8.
    done.
  - cbn [fst snd]. unfold routed_registry. simpl.
    rewrite Htr, Hta, Hclosed, Hsends. done.
Qed.

(** ** More on the handshake *)

(** The handshake request: the transaction 0 is registered and nothing
    has been received. *)
Lemma hello_requested cid sock rcb w :
  sendable (xcm.sends sock) →
  ∃ w', async_request proto.TA_HELLO
          [JInt cid; JInt proto.VERSION; JInt proto.VERSION] ∅
          initial_hello_cb (update (set_client (new_client cid sock rcb) w))
        = (Ok 0, w')
        ∧ untouched
            (set_client
               {| client_id := cid; conn_sock := sock; ready_cb := rcb;
                  Client_ta_id := 1; out_wire_msgs := [];
                  transactions := {[0 := hello_transaction]};
                  proto_version := JNull |} w) w'
        ∧ sendable (xcm.sends (conn_sock (client w')))
        ∧ xcm.receives (conn_sock (client w')) = xcm.receives sock.
Proof.
  intros Hs. unfold async_request.
  cbn [next_ta_id update set_client on_client client Client_ta_id new_client].
  change (produce_request _ _ _ _)
    with (hello_transaction,
          Ok (foldl (λ m fv, proto.put fv.1 fv.2 m)
                (proto.put proto.FIELD_MSG_TYPE (JStr proto.MSG_TYPE_REQUEST)
                   (proto.put proto.FIELD_TA_ID (JInt 0)
                      (proto.put proto.FIELD_TA_CMD (JStr "hello") ∅)))
                (zip (proto.request_fields proto.TA_HELLO)
                   [JInt cid; JInt proto.VERSION; JInt proto.VERSION]))).
  cbn beta iota zeta.
  match goal with |- context [try_send ?W] => set (w1 := W) end.
  destruct (try_send_sendable w1 Hs) as [[b Hb] Hs'].
  destruct (try_send_untouched w1) as [Hu Hr].
  destruct (try_send w1) as [r w2]; cbn [fst snd] in *. subst r.
  exists w2. split; [done|]. split; [|done].
  eapply untouched_trans; [|exact Hu]. subst w1. unfold untouched. simpl.
  by rewrite insert_empty.
Qed.

(** The handler of the handshake on the COMPLETE that selects the version
    the client requires. *)
Lemma consume_hello_complete w :
  consume_message hello_transaction
    (delete "ta-id"%string (hello_complete proto.VERSION [])) w
  = (set_state TERMINATED hello_transaction, Ok (), greeted w).
Proof.
  rewrite (consume_message_header _ _ _ "complete") by done.
  change (select hello_transaction (JStr "complete"))
    with (Some (COMPLETE, [proto.FIELD_PROTO_VERSION], @nil proto.Field,
                TERMINATED)).
  cbn beta iota zeta.
  change (pull_fields [proto.FIELD_PROTO_VERSION] _)
    with (@Ok (list json) [JInt proto.VERSION], (∅ : msg)).
  cbn [pull_opt_fields]. rewrite bool_decide_false by (rewrite map_size_empty; lia).
  unfold delivered, call_cb, invoke, Client_initial_hello_cb, greeted. simpl.
  by destruct (ready_cb (client w)).
Qed.

Lemma greeted_spec w :
  user_calls (greeted w)
  = user_calls w ++ match ready_cb (client w) with
                    | Some h => [Ready h]
                    | None => []
                    end
  ∧ proto_version (client (greeted w)) = JInt proto.VERSION
  ∧ transactions (client (greeted w)) = transactions (client w)
  ∧ objects (greeted w) = objects w.
Proof.
  unfold greeted. simpl. destruct (ready_cb (client w)); simpl; [done|].
  by rewrite app_nil_r.
Qed.

(** X16. Let the connection be made without a readiness callback, on a
    transport on which no send fails for good. If, after any number of
    would-block receives, the server completes the handshake with the
    protocol version that the client requires, and the transport has
    nothing more for now, then the constructor, given rounds enough to get
    to the reply, returns: the version is recorded, the handshake
    transaction has left the registry, the next transaction id is 1, no
    handler of the caller was called, and the transport handle is as open
    as [xcm.connect] gave it. *)
Theorem synchronous_handshake_success cid sock k after fuel w :
  sendable (xcm.sends sock) →
  xcm.receives sock
  = replicate k (inr xcm.EAGAIN)
    ++ inl (xcm.Encoded (hello_complete proto.VERSION [])) :: after →
  default (inr xcm.EAGAIN) (head after) = inr xcm.EAGAIN →
  (k < fuel)%nat →
  let x := Client_init cid (inl sock) None fuel w in
  x.1 = Some (Ok ())
  ∧ proto_version (client x.2) = JInt proto.VERSION
  ∧ transactions (client x.2) = ∅
  ∧ Client_ta_id (client x.2) = 1
  ∧ user_calls x.2 = user_calls w
  ∧ objects x.2 = objects w
  ∧ xcm.closed (conn_sock (client x.2)) = xcm.closed sock.
Proof.
  intros Hs Hrecv Hafter Hk. cbn zeta.
  unfold Client_init, initial_hello, hello, issue_request.
  change {| client_id := cid; conn_sock := sock; ready_cb := None;
            Client_ta_id := 0; out_wire_msgs := []; transactions := ∅;
            proto_version := JNull |} with (new_client cid sock None).
  destruct (hello_requested cid sock None w Hs) as (w1 & Hreq & Hu & Hs1 & Hr1).
  cbn [client_id client set_client update on_client set_conn_sock new_client]
    in Hreq |- *.
  rewrite Hreq.
  pose proof Hu as (U1 & U2 & U3 & U4 & _ & U6 & U7 & _ & U9).
  cbn [client set_client transactions Client_ta_id proto_version ready_cb
       objects user_calls conn_sock] in U1, U2, U3, U4, U6, U7, U9.
  rewrite U4.
  replace fuel with (k + S (fuel - S k))%nat by lia.
  set (criteria := λ w : World, negb (is_None (proto_version (client w)))).
  destruct (wait_blocked k
              (inl (xcm.Encoded (hello_complete proto.VERSION [])) :: after)
              (S (fuel - S k)) criteria w1)
    as (w2 & Hu2 & Hs2 & Hr2 & ->).
  { intros a b (_ & _ & E & _). unfold criteria. by rewrite E. }
  { unfold criteria. by rewrite U3. }
  { done. }
  { by rewrite Hr1. }
  pose proof Hu2 as (V1 & V2 & V3 & V4 & _ & V6 & V7 & _ & V9).
  cbn [wait]. replace (criteria w2) with false
    by (unfold criteria; by rewrite V3, U3).
  destruct (process_delivers w2 (hello_complete proto.VERSION []) after 0
              hello_transaction Hs2 Hr2 Hafter eq_refl)
    as (w3 & Hu3 & Hp).
  { rewrite V1, U1. apply lookup_singleton_eq. }
  cbn zeta in Hp. rewrite consume_hello_complete in Hp. cbn [fst snd] in Hp.
  destruct Hp as (P1 & P2 & P3 & P4 & P5 & P6 & P7 & _).
  destruct (process w2) as [r w4]; cbn [fst snd] in *. subst r.
  pose proof Hu3 as (W1 & W2 & W3 & W4 & _ & W6 & W7 & _ & W9).
  assert (proto_version (client w4) = JInt proto.VERSION) as Hv.
  { rewrite P4. unfold greeted. simpl. by destruct (ready_cb (client w3)). }
  assert (criteria w4 = true) as Hc by (unfold criteria; by rewrite Hv).
  destruct (fuel - S k)%nat; cbn [wait]; rewrite Hc; cbn [fst snd].
  all: split; [done|]; split; [done|].
  all: rewrite P2, P3, P5, P6, P7, V1, V2, V9, U1, U2, U9.
  all: unfold greeted, routed_registry; cbn [client set_client ready_cb
         set_proto_version state set_state bool_decide decide_rel].
  all: rewrite W4, V4, U4; cbn [user_calls objects set_client].
  all: rewrite W7, V7, U7, W6, V6, U6.
  all: rewrite bool_decide_true by done.
  all: by rewrite delete_singleton_eq.
Qed.

(** X17. With a readiness callback the constructor does not wait for the
    handshake: on a transport on which no send fails for good it returns
    whatever the rounds allowed, with the handshake transaction
    registered, no protocol version yet, and nothing received. *)
Theorem asynchronous_constructor_does_not_wait cid sock h fuel w :
  sendable (xcm.sends sock) →
  let x := Client_init cid (inl sock) (Some h) fuel w in
  x.1 = Some (Ok ())
  ∧ transactions (client x.2) = {[0 := hello_transaction]}
  ∧ proto_version (client x.2) = JNull
  ∧ Client_ta_id (client x.2) = 1
  ∧ user_calls x.2 = user_calls w
  ∧ xcm.receives (conn_sock (client x.2)) = xcm.receives sock
  ∧ xcm.closed (conn_sock (client x.2)) = xcm.closed sock.
Proof.
  intros Hs. cbn zeta.
  unfold Client_init, initial_hello, hello, issue_request.
  change {| client_id := cid; conn_sock := sock; ready_cb := Some h;
            Client_ta_id := 0; out_wire_msgs := []; transactions := ∅;
            proto_version := JNull |} with (new_client cid sock (Some h)).
  destruct (hello_requested cid sock (Some h) w Hs)
    as (w1 & Hreq & Hu & Hs1 & Hr1).
  cbn [client_id client set_client update on_client set_conn_sock new_client]
    in Hreq |- *.
  rewrite Hreq.
  destruct Hu as (U1 & U2 & U3 & U4 & _ & U6 & U7 & _ & U9).
  cbn [client set_client transactions Client_ta_id proto_version ready_cb
       objects user_calls conn_sock] in U1, U2, U3, U4, U6, U7, U9.
  rewrite U4. cbn [fst snd]. done.
Qed.

(** X18. The receive attempt that gets the COMPLETE of the handshake, with
    the protocol version that the client requires, records the version,
    takes the handshake transaction out of the registry, and calls the
    readiness callback, once. *)
Theorem ready_cb_is_called_when_the_handshake_completes w h rest :
  transactions (client w) !! 0 = Some hello_transaction →
  ready_cb (client w) = Some h →
  xcm.receives (conn_sock (client w))
  = inl (xcm.Encoded (hello_complete proto.VERSION [])) :: rest →
  let x := try_receive w in
  x.1 = Ok true
  ∧ user_calls x.2 = user_calls w ++ [Ready h]
  ∧ proto_version (client x.2) = JInt proto.VERSION
  ∧ transactions (client x.2) = delete 0 (transactions (client w)).
Proof.
  intros Ht Hcb Hrecv. cbn zeta.
  rewrite (try_receive_routed w (hello_complete proto.VERSION []) rest 0
             hello_transaction Hrecv eq_refl Ht).
  rewrite consume_hello_complete. cbn [fst snd].
  match goal with |- context [greeted ?W] =>
    destruct (greeted_spec W) as (G1 & G2 & G3 & _); set (g := greeted W) in *
  end.
  clearbody g. simpl in G1, G3. rewrite Hcb in G1.
  rewrite bool_decide_true by done. simpl.
  rewrite G1, G2, G3. by rewrite delete_insert_eq.
Qed.

(** The handler of the handshake on the replies that end it badly. *)
Lemma consume_hello_fail w :
  consume_message hello_transaction (delete "ta-id"%string hello_fail) w
  = (set_state TERMINATED hello_transaction,
     Raise (ProtocolError (EstablishmentFailed (JStr "reason unknown"))), w).
Proof. vm_compute. reflexivity. Qed.

Lemma consume_hello_fail_reason r w :
  consume_message hello_transaction
    (delete "ta-id"%string
       (message 0 "hello" "fail" [("fail-reason"%string, JStr r)])) w
  = (set_state TERMINATED hello_transaction,
     Raise (ProtocolError (EstablishmentFailed (JStr r))), w).
Proof. vm_compute. reflexivity. Qed.

Lemma consume_hello_version v w :
  v ≠ proto.VERSION →
  consume_message hello_transaction
    (delete "ta-id"%string (hello_complete v [])) w
  = (set_state TERMINATED hello_transaction,
     Raise (ProtocolError (UnsupportedVersion (JInt v) proto.VERSION)), w).
Proof.
  intros Hv.
  rewrite (consume_message_header _ _ _ "complete") by done.
  change (select hello_transaction (JStr "complete"))
    with (Some (COMPLETE, [proto.FIELD_PROTO_VERSION], @nil proto.Field,
                TERMINATED)).
  cbn beta iota zeta.
  change (pull_fields [proto.FIELD_PROTO_VERSION] _)
    with (@Ok (list json) [JInt v], (∅ : msg)).
  cbn [pull_opt_fields].
  rewrite bool_decide_false by (rewrite map_size_empty; lia).
  unfold delivered, call_cb, invoke, Client_initial_hello_cb. simpl.
  rewrite bool_decide_false by done. done.
Qed.

(** X19. The protocol error of a handshake that ends badly says why: a
    FAIL gives the reason of the server, or [reason unknown] when it has
    none, and a COMPLETE with another version than the client requires
    gives the two versions. The receive attempt raises it; no version is
    recorded, the readiness callback is not called, and the handshake
    transaction stays in the registry, TERMINATED. *)
Theorem handshake_failure_says_why w reply rest v :
  transactions (client w) !! 0 = Some hello_transaction →
  xcm.receives (conn_sock (client w)) = inl (xcm.Encoded reply) :: rest →
  (reply = hello_fail ∧ v = EstablishmentFailed (JStr "reason unknown"))
  ∨ (∃ r, reply = message 0 "hello" "fail" [("fail-reason"%string, JStr r)]
          ∧ v = EstablishmentFailed (JStr r))
  ∨ (∃ n, n ≠ proto.VERSION ∧ reply = hello_complete n []
          ∧ v = UnsupportedVersion (JInt n) proto.VERSION) →
  let x := try_receive w in
  x.1 = Raise (ProtocolError v)
  ∧ proto_version (client x.2) = proto_version (client w)
  ∧ user_calls x.2 = user_calls w
  ∧ transactions (client x.2)
    = <[0 := set_state TERMINATED hello_transaction]> (transactions (client w)).
Proof.
  intros Ht Hrecv Hreply. cbn zeta.
  assert (consume_message hello_transaction (delete "ta-id"%string reply)
            (on_client (set_conn_sock (xcm.receive (conn_sock (client w))).2)
                       w)
          = (set_state TERMINATED hello_transaction,
             Raise (ProtocolError v),
             on_client (set_conn_sock (xcm.receive (conn_sock (client w))).2)
                       w)) as Hc.
  { destruct Hreply as [[-> ->]|[(r & -> & ->)|(n & Hn & -> & ->)]].
    - apply consume_hello_fail.
    - apply consume_hello_fail_reason.
    - by apply consume_hello_version. }
  assert (reply !! "ta-id"%string = Some (JInt 0)) as Hid.
  { by destruct Hreply as [[-> ->]|[(r & -> & ->)|(n & Hn & -> & ->)]]. }
  rewrite (try_receive_routed w reply rest 0 hello_transaction Hrecv Hid Ht).
  rewrite Hc. cbn [fst snd]. done.
Qed.

(** X20. When the send of the handshake request fails for good, the
    constructor raises the transport error, with or without a readiness
    callback, and it has closed the transport handle; it has not tried to
    receive. *)
Theorem constructor_closes_after_a_failed_send
    cid sock rcb errno script fuel w :
  xcm.sends sock = Some errno :: script →
  errno ≠ xcm.EAGAIN →
  let x := Client_init cid (inl sock) rcb fuel w in
  x.1 = Some (Raise (TransportError errno))
  ∧ xcm.closed (conn_sock (client x.2)) = true
  ∧ last (xcm.calls (conn_sock (client x.2))) = Some xcm.Close
  ∧ xcm.receives (conn_sock (client x.2)) = xcm.receives sock.
Proof.
  intros Hs Hne. cbn zeta.
  unfold Client_init, initial_hello, hello, issue_request, async_request.
  cbn [next_ta_id update set_client on_client client Client_ta_id client_id].
  change (produce_request _ _ _ _)
    with (hello_transaction,
          Ok (foldl (λ m fv, proto.put fv.1 fv.2 m)
                (proto.put proto.FIELD_MSG_TYPE (JStr proto.MSG_TYPE_REQUEST)
                   (proto.put proto.FIELD_TA_ID (JInt 0)
                      (proto.put proto.FIELD_TA_CMD (JStr "hello") ∅)))
                (zip (proto.request_fields proto.TA_HELLO)
                   [JInt cid; JInt proto.VERSION; JInt proto.VERSION]))).
  cbn beta iota zeta.
  match goal with |- context [try_send ?W] => set (w1 := W) end.
  destruct (try_send_failed w1 _ [] errno script eq_refl Hs Hne)
    as (Hr & _ & _ & Hrecv).
  destruct (try_send_untouched w1) as [(_ & _ & _ & _ & _ & _ & _ & _ & Hc) _].
  destruct (try_send w1) as [r w2]; cbn [fst snd] in *. subst r.
  cbn [is_Error fst snd]. unfold close; simpl.
  split; [done|]. split; [done|]. split; [by rewrite last_snoc|].
  by rewrite Hrecv.
Qed.

(** ** Attributes are assigned before they are read *)

Lemma persist_refl w : persist w w.
Proof. intros ref o H. eauto. Qed.

Lemma persist_trans a b c : persist a b → persist b c → persist a c.
Proof.
  intros H1 H2 ref o Ho.
  destruct (H1 ref o Ho) as (o1 & Ho1 & E1).
  destruct (H2 ref o1 Ho1) as (o2 & Ho2 & E2).
  exists o2. split; [done|congruence].
Qed.

Lemma untouched_persist w w' : untouched w w' → persist w w'.
Proof.
  intros (_ & _ & _ & _ & _ & E & _) ref o Ho. rewrite E. eauto.
Qed.

(** [Call.__call__] assigns the reason with the result FAIL and raises
    nothing but the errors of its assertions. *)
Lemma Call__call___ok self ta_id event optargs :
  let x := Call__call__ self ta_id event optargs in
  cls x.2 = cls self
  ∧ latency x.2 = latency self
  ∧ complete x.2 = complete self
  ∧ notifications x.2 = notifications self
  ∧ fine x.1
  ∧ ((Call_result self = Some FAIL → is_Some (reason self)) →
     Call_result x.2 = Some FAIL → is_Some (reason x.2))
  ∧ (Call_result x.2 = Call_result self ∨ Call_result x.2 = Some event).
Proof.
  unfold Call__call__, fine. cbn zeta.
  destruct (Call_ta_id self) as [own|]; [|by auto 10].
  case_bool_decide; cbn [negb fst snd]; [|by auto 10].
  cbn [cls latency complete notifications Call_result reason].
  repeat split; try done; [|by right].
  intros _ [= ->]. rewrite bool_decide_true by done. eauto.
Qed.

Lemma Call__call___adapter_ok self ta_id event optargs :
  adapter_ok self →
  (cls self = LatencyCall → event = COMPLETE → is_Some (latency self)) →
  (cls self = CompleteCall → event = COMPLETE → is_Some (complete self)) →
  let x := Call__call__ self ta_id event optargs in
  adapter_ok x.2 ∧ cls x.2 = cls self ∧ fine x.1.
Proof.
  intros (H1 & H2 & H3) HL HC.
  destruct (Call__call___ok self ta_id event optargs)
    as (E1 & E2 & E3 & _ & Hf & Hr & Hres).
  cbn zeta. split; [|done]. split; [by apply Hr|].
  rewrite E1, E2, E3.
  split; intros Hcls Hc; (destruct Hres as [Hres|Hres]; rewrite Hres in Hc);
    [by apply H2|apply HL; congruence|by apply H3|apply HC; congruence].
Qed.

Lemma adapter__call___ok self now ta_id event args optargs :
  adapter_ok self →
  let x := adapter__call__ self now ta_id event args optargs in
  adapter_ok x.2 ∧ cls x.2 = cls self ∧ fine x.1.
Proof.
  intros Hself. pose proof Hself as (H1 & H2 & H3).
  unfold adapter__call__. cbn zeta.
  destruct (cls self) eqn:Hcls.
  - rewrite <-Hcls. apply Call__call___adapter_ok; [done|congruence..].
  - case_bool_decide; cbn [negb fst snd].
    2:{ split; [done|]. split; [done|]. by intros a. }
    case_bool_decide as Hev.
    + match goal with |- context [Call__call__ ?S _ _ _] =>
        change LatencyCall with (cls S) at 3;
        apply (Call__call___adapter_ok S) end; simpl; try done.
    + rewrite <-Hcls. apply Call__call___adapter_ok; [done|done|congruence].
  - case_bool_decide as Hev.
    + match goal with |- context [Call__call__ ?S _ _ _] =>
        change NotifyCall with (cls S) at 3;
        apply (Call__call___adapter_ok S) end; simpl; try done.
    + rewrite <-Hcls. apply Call__call___adapter_ok; [done|congruence..].
  - case_bool_decide; cbn [negb fst snd].
    2:{ split; [done|]. split; [done|]. by intros a. }
    case_bool_decide as Hev.
    + match goal with |- context [Call__call__ ?S _ _ _] =>
        change CompleteCall with (cls S) at 3;
        apply (Call__call___adapter_ok S) end; simpl; try done.
    + rewrite <-Hcls. apply Call__call___adapter_ok; [done|congruence|done].
Qed.

(** A handler that is there to be called keeps the [Call] objects in
    order and reads no attribute that is not assigned. *)
Lemma invoke_sound handler ta_id event args optargs w :
  callable w handler →
  (∀ ref o, objects w !! ref = Some o → adapter_ok o) →
  let x := invoke handler ta_id event args optargs w in
  (∀ ref o, objects x.2 !! ref = Some o → adapter_ok o)
  ∧ persist w x.2
  ∧ fine x.1.
Proof.
  intros Hcb Hok. unfold invoke. cbn zeta.
  destruct handler as [|ref|h].
  - unfold Client_initial_hello_cb.
    repeat case_match; cbn [fst snd objects record_call set_client];
      (split; [done|]); (split; [unfold persist; simpl; by eauto|]);
      by intros a.
  - destruct Hcb as [self Hself]. rewrite Hself.
    destruct (adapter__call___ok self (now w) ta_id event args optargs
                (Hok _ _ Hself)) as (H1 & H2 & H3).
    destruct (adapter__call__ self (now w) ta_id event args optargs)
      as [r self']. cbn [fst snd objects set_objects] in *.
    split; [|split; [|done]].
    + intros ref' o. rewrite lookup_insert. case_decide.
      * by intros [= <-].
      * apply Hok.
    + intros ref' o Ho. simpl. rewrite lookup_insert. case_decide.
      * subst. rewrite Hself in Ho. simplify_eq. eauto.
      * eauto.
  - cbn [fst snd objects record_call].
    split; [done|]. split; [unfold persist; simpl; by eauto|]. by intros a.
Qed.

Lemma field_error_fine {A} e : field_error e → fine (@Raise A e).
Proof. intros [n [-> | ->]] a; done. Qed.

Lemma consume_message_sound self in_msg w handler :
  cb self = Some handler →
  callable w handler →
  (∀ ref o, objects w !! ref = Some o → adapter_ok o) →
  let x := consume_message self in_msg w in
  (∀ ref o, objects x.2 !! ref = Some o → adapter_ok o)
  ∧ persist w x.2
  ∧ fine x.1.2.
Proof.
  intros Hcb Hcall Hok. cbn zeta.
  assert (∀ e, (∀ a, e ≠ AttributeError a) →
               (∀ ref o, objects w !! ref = Some o → adapter_ok o)
               ∧ persist w w ∧ fine (@Raise unit e)) as Hraise.
  { intros e He. split; [done|]. split; [apply persist_refl|].
    intros a [= ->]. by destruct (He a). }
  unfold consume_message.
  destruct (proto.pull proto.FIELD_TA_CMD false in_msg) as [[c|e] m1] eqn:Hp1.
  2:{ apply pull_Raise in Hp1 as [-> | ->]; by apply Hraise. }
  destruct (negb _); [by apply Hraise|].
  destruct (proto.pull proto.FIELD_MSG_TYPE false m1) as [[k|e] m2] eqn:Hp2.
  2:{ apply pull_Raise in Hp2 as [-> | ->]; by apply Hraise. }
  destruct (select self k) as [[[[event fields] opt_fields] s']|];
    [|by apply Hraise].
  cbn zeta.
  destruct (pull_fields fields m2) as [[args|e] m3] eqn:Hf.
  2:{ apply pull_fields_Raise in Hf as [n [-> | ->]]; by apply Hraise. }
  destruct (pull_opt_fields opt_fields ∅ m3) as [[optargs|e] m4] eqn:Ho.
  2:{ apply pull_opt_fields_Raise in Ho as [n [-> | ->]]; by apply Hraise. }
  case_bool_decide; [by apply Hraise|].
  unfold call_cb. cbn [cb set_state]. rewrite Hcb.
  pose proof (invoke_sound handler (ta_id self) event args optargs w Hcall Hok)
    as Hinv.
  cbn zeta in Hinv. cbn [ta_id set_state].
  by destruct (invoke handler (ta_id self) event args optargs w).
Qed.

Lemma callable_persist w w' handler :
  persist w w' → callable w handler → callable w' handler.
Proof.
  intros Hp. destruct handler as [|ref|h]; simpl; try done.
  intros [o Ho]. destruct (Hp ref o Ho) as (o' & -> & _). eauto.
Qed.

Lemma untouched_sound w w' : untouched w w' → sound w → sound w'.
Proof.
  intros Hu (Hwf & Hok & Hcb). pose proof Hu as (Et & _ & _ & _ & _ & Eo & _).
  split; [|split].
  - unfold well_formed. by rewrite Et.
  - by rewrite Eo.
  - intros k t handler. rewrite Et. intros Hk Hh.
    eapply callable_persist; [by apply untouched_persist|]. eauto.
Qed.

Lemma try_send_sound w :
  sound w →
  sound (try_send w).2 ∧ persist w (try_send w).2 ∧ fine (try_send w).1.
Proof.
  intros Hw. destruct (try_send_untouched w) as [Hu _].
  split; [by eapply untouched_sound|]. split; [by apply untouched_persist|].
  intros a. by destruct (try_send_result w) as [[b ->]|(errno & _ & ->)].
Qed.

Lemma try_receive_unrouted_fine w :
  (∀ in_msg rest k,
     xcm.receives (conn_sock (client w)) = inl (xcm.Encoded in_msg) :: rest →
     in_msg !! "ta-id"%string = Some (JInt k) →
     transactions (client w) !! k = None) →
  fine (try_receive w).1.
Proof.
  intros Hno a. unfold try_receive, xcm.receive, proto.pull.
  destruct (xcm.receives (conn_sock (client w)))
    as [|[[in_msg| |raw]|errno] rest]; simpl; try done.
  2: by case_bool_decide.
  destruct (in_msg !! "ta-id"%string) as [v|] eqn:Hid; simpl; [|done].
  destruct v as [|b|n|c|l|l]; simpl; try done.
  by rewrite (Hno in_msg rest n).
Qed.

Lemma received_untouched w :
  untouched w
    (update (on_client (set_conn_sock (xcm.receive (conn_sock (client w))).2)
                       w)).
Proof. unfold untouched, update, xcm.receive. simpl. done. Qed.

Lemma try_receive_sound w :
  sound w →
  sound (try_receive w).2 ∧ persist w (try_receive w).2
  ∧ fine (try_receive w).1.
Proof.
  intros Hw. pose proof Hw as (Hwf & Hok & Hcb).
  destruct (xcm.receives (conn_sock (client w)))
    as [|[[in_msg| |raw]|errno] rest] eqn:Hrecv.
  2: destruct (in_msg !! "ta-id"%string) as [[|b|n|c|l|l]|] eqn:Hid.
  4: destruct (transactions (client w) !! n) as [t|] eqn:Ht.
  4:{ pose proof (try_receive_well_formed w Hwf) as Hwf'.
      pose proof (λ k' Hne,
                    try_receive_routed_registry w in_msg rest n t k'
                      Hrecv Hid Ht Hne) as Hother.
      revert Hwf' Hother.
      rewrite (try_receive_routed w in_msg rest n t) by done.
      cbn [fst snd].
      set (w1 := on_client _ w).
      destruct (Hwf n t Ht) as (_ & _ & [handler Hh]).
      destruct (consume_message_sound t (delete "ta-id"%string in_msg) w1
                  handler Hh) as (Hok' & Hp & Hf).
      { apply (Hcb n t handler Ht Hh). }
      { done. }
      pose proof (consume_message_identity t (delete "ta-id"%string in_msg) w1)
        as (_ & _ & Hcb' & _).
      destruct (consume_message t (delete "ta-id"%string in_msg) w1)
        as [[t' r] w2]. cbn [fst snd] in *.
      intros Hwf' Hother.
      assert (persist w w2) as Hp' by done.
      match goal with |- context [update ?W] => set (w3 := W) in * end.
      assert (objects (update w3) = objects w2) as Eo by done.
      assert (persist w (update w3)) as Hp3.
      { intros ref o Ho. rewrite Eo. by apply Hp'. }
      split; [|split; [done|]].
      - split; [done|]. split; [by rewrite Eo|].
        intros k t1 h1 Hk Hh1.
        eapply callable_persist; [exact Hp3|].
        destruct (decide (k = n)) as [->|Hne].
        + apply (Hcb n t h1 Ht). rewrite <-Hcb', <-Hh1. f_equal.
          revert Hk. destruct (update_engine w3) as (_ & -> & _).
          subst w3. simpl. destruct r as [u|e]; [case_bool_decide|].
          * by rewrite lookup_delete_eq.
          * rewrite lookup_insert_eq. congruence.
          * rewrite lookup_insert_eq. congruence.
        + rewrite (Hother k Hne) in Hk. by apply (Hcb k t1 h1).
      - destruct r as [u|e]; [by intros a|]. intros a [= ->]. by apply (Hf a). }
  all: split; [|split; [|apply try_receive_unrouted_fine; intros; congruence]].
  all: rewrite try_receive_unrouted by (intros; congruence).
  all: try (apply (untouched_sound w); [apply received_untouched|done]).
  all: apply untouched_persist, received_untouched.
Qed.

(** What every attempt keeps, a round of attempts keeps. *)
Section rounds.
Variable P : World → Prop.
Variable attempt : World → result bool * World.
Hypothesis step :
  ∀ w, P w → P (attempt w).2 ∧ persist w (attempt w).2 ∧ fine (attempt w).1.

Lemma attempts_sound n w :
  P w →
  P (attempts n attempt w).2 ∧ persist w (attempts n attempt w).2
  ∧ fine (attempts n attempt w).1.
Proof.
  revert w; induction n as [|n IH]; intros w Hw; cbn [attempts].
  { split; [done|]. split; [apply persist_refl|]. by intros a. }
  destruct (step w Hw) as (H1 & H2 & H3).
  destruct (attempt w) as [[[]|e] w1]; cbn [fst snd] in *.
  - destruct (IH w1 H1) as (I1 & I2 & I3).
    split; [done|]. split; [by eapply persist_trans|done].
  - split; [done|]. split; [done|]. by intros a.
  - split; [done|]. split; [done|]. intros a [= ->]. by apply (H3 a).
Qed.
End rounds.

Lemma process_sound w :
  sound w →
  sound (process w).2 ∧ persist w (process w).2 ∧ fine (process w).1.
Proof.
  intros Hw. unfold process. generalize MAX_MSGS_PER_ROUND; intros n.
  destruct (attempts_sound sound try_send try_send_sound n w Hw)
    as (H1 & H2 & H3).
  destruct (attempts n try_send w) as [[[]|e] w1]; cbn [fst snd] in *.
  - destruct (attempts_sound sound try_receive try_receive_sound n w1 H1)
      as (I1 & I2 & I3).
    split; [done|]. split; [by eapply persist_trans|done].
  - split; [done|]. split; [done|]. intros a [= ->]. by apply (H3 a).
Qed.

Lemma wait_sound fuel criteria w :
  sound w →
  sound (wait fuel criteria w).2 ∧ persist w (wait fuel criteria w).2
  ∧ ∀ a, (wait fuel criteria w).1 ≠ Some (Raise (AttributeError a)).
Proof.
  revert w; induction fuel as [|fuel IH]; intros w Hw; cbn [wait];
    destruct (criteria w); cbn [fst snd];
    try (split; [done|]; split; [apply persist_refl|done]).
  destruct (process_sound w Hw) as (H1 & H2 & H3).
  destruct (process w) as [[[]|e] w1]; cbn [fst snd] in *.
  - destruct (IH w1 H1) as (I1 & I2 & I3).
    split; [done|]. split; [by eapply persist_trans|done].
  - split; [done|]. split; [done|]. intros a [= ->]. by apply (H3 a).
Qed.

Lemma TransactionError_init_fine reason a :
  TransactionError_init reason ≠ AttributeError a.
Proof.
  unfold TransactionError_init, percent.
  repeat case_match; simplify_eq; done.
Qed.

(** [get()] of a [Call] object that is there. *)
Lemma get_sound ref fuel w :
  sound w →
  is_Some (objects w !! ref) →
  sound (get ref fuel w).2 ∧ persist w (get ref fuel w).2
  ∧ ∀ a, (get ref fuel w).1 ≠ Some (Raise (AttributeError a)).
Proof.
  intros Hw [o Ho]. unfold get, Call_get.
  destruct (wait_sound fuel (terminal ref) w Hw) as (H1 & H2 & H3).
  destruct (wait_criterion fuel (terminal ref) w) as (Hc & _).
  destruct (wait fuel (terminal ref) w) as [[[[]|e]|] w1]; cbn [fst snd] in *.
  2,3: by (split; [done|]; split; [done|]; intros a [= ->]; apply (H3 a)).
  specialize (Hc eq_refl). unfold terminal in Hc.
  destruct (H2 ref o Ho) as (self & Hself & Hcls). rewrite Hself in Hc |- *.
  destruct H1 as (Hwf & Hok & Hcb).
  destruct (Hok ref self Hself) as (A1 & A2 & A3).
  destruct (decide (Call_result self = Some FAIL)) as [Hfail|Hfail].
  - rewrite bool_decide_true by done.
    destruct (A1 Hfail) as [r ->]. cbn [fst snd].
    split; [by split|]. split; [done|].
    intros a [= Ha]. by apply TransactionError_init_fine in Ha.
  - rewrite bool_decide_false by done. rewrite Hself.
    rewrite (bool_decide_false (_ = Some FAIL)), orb_false_r in Hc by done.
    apply bool_decide_eq_true in Hc.
    destruct (cls self) eqn:Ec.
    + by split; [split|].
    + destruct (A2 eq_refl Hc) as [l ->]. by split; [split|].
    + by split; [split|].
    + destruct (A3 eq_refl Hc) as [l ->]. by split; [split|].
Qed.

Lemma async_request_sound ty args optargs handler w :
  sound w → callable w handler →
  let x := async_request ty args optargs handler w in
  sound x.2 ∧ persist w x.2 ∧ objects x.2 = objects w ∧ fine x.1.
Proof.
  intros Hw Hcall. pose proof Hw as (Hwf & Hok & Hcb).
  pose proof (async_request_well_formed ty args optargs handler w Hwf) as Hwf'.
  revert Hwf'. cbn zeta. unfold async_request. cbn [next_ta_id].
  destruct (produce_request _ args optargs handler) as [t [m|e]] eqn:Hp.
  - apply produce_request_Ok in Hp as ->.
    match goal with |- context [try_send ?W] => set (w1 := W) end.
    destruct (try_send_untouched w1) as [Hu _].
    pose proof Hu as (Et & _ & _ & _ & _ & Eo & _).
    destruct (try_send_result w1) as [[b Hb]|(errno & _ & Hb)];
      destruct (try_send w1) as [r w2]; cbn [fst snd] in *; subst r;
      cbn [fst snd]; intros Hwf'.
    all: assert (objects w2 = objects w) as Eo' by (by rewrite Eo).
    all: assert (persist w w2) as Hpers
           by (intros ref o Ho; rewrite Eo'; eauto).
    all: split; [|split; [done|split; [done|by intros a]]].
    all: split; [done|]; split; [by rewrite Eo'|].
    all: intros k t h; rewrite Et; subst w1; simpl.
    all: rewrite lookup_insert; case_decide.
    all: try (intros [= <-]; simpl; intros [= <-];
              by apply (callable_persist w)).
    all: intros Hk Hh; apply (callable_persist w); [done|]; eauto.
  - cbn [fst snd]. intros Hwf'.
    apply produce_request_Raise in Hp as [c ->].
    split; [|split; [|split; [done|by intros a]]].
    + by split.
    + intros ref o Ho. eauto.
Qed.

Lemma sync_request_sound ty args optargs c fuel w :
  sound w →
  let x := sync_request ty args optargs c fuel w in
  sound x.2 ∧ persist w x.2
  ∧ ∀ a, x.1 ≠ Some (Raise (AttributeError a)).
Proof.
  intros Hw. pose proof Hw as (Hwf & Hok & Hcb).
  cbn zeta. unfold sync_request.
  set (ref := fresh (dom (objects w))).
  assert (objects w !! ref = None) as Hfresh.
  { apply not_elem_of_dom. apply is_fresh. }
  set (w0 := set_objects _ w).
  assert (persist w w0) as Hp0.
  { intros r o Ho. subst w0. simpl. rewrite lookup_insert. case_decide.
    - subst. congruence.
    - eauto. }
  assert (sound w0) as Hw0.
  { split; [done|]. split.
    - intros r o. subst w0. simpl. rewrite lookup_insert. case_decide.
      + intros [= <-]. by split.
      + apply Hok.
    - intros k t h Hk Hh. apply (callable_persist w); [done|]. eauto. }
  destruct (async_request_sound ty args optargs (call_object ref) w0 Hw0)
    as (H1 & H2 & H3 & H4).
  { subst w0. simpl. rewrite lookup_insert_eq. eauto. }
  destruct (async_request ty args optargs (call_object ref) w0)
    as [[id|e] w1]; cbn [fst snd] in *.
  2:{ split; [done|]. split; [by eapply persist_trans|].
      intros a [= ->]. by apply (H4 a). }
  set (w2 := set_objects _ w1).
  assert (persist w1 w2) as Hp2.
  { intros r o Ho. subst w2. simpl. rewrite lookup_alter. case_decide.
    - subst. rewrite Ho. simpl. eauto.
    - eauto. }
  assert (sound w2) as Hw2.
  { destruct H1 as (Hwf1 & Hok1 & Hcb1). split; [done|]. split.
    - intros r o. subst w2. simpl. rewrite lookup_alter. case_decide.
      + subst. destruct (objects w1 !! ref) as [o1|] eqn:Ho1; [|done].
        simpl. intros [= <-]. apply (Hok1 _ _ Ho1).
      + apply Hok1.
    - intros k t h Hk Hh. apply (callable_persist w1); [done|]. eauto. }
  destruct (get_sound ref fuel w2 Hw2) as (G1 & G2 & G3).
  { subst w2. simpl. rewrite lookup_alter_eq, H3. subst w0. simpl.
    rewrite lookup_insert_eq. simpl. eauto. }
  split; [done|]. split; [|done].
  eapply persist_trans; [exact Hp0|].
  eapply persist_trans; [exact H2|].
  eapply persist_trans; [exact Hp2|done].
Qed.

Lemma own_handler_callable w handler : own_handler handler → callable w handler.
Proof. by destruct handler. Qed.

Lemma returning_fine {A} (f : A → retval) (x : result A * World) :
  fine x.1 → ∀ a, (returning f x).1 ≠ Some (Raise (AttributeError a)).
Proof. destruct x as [[v|e] w]; simpl; [done|]. intros H a [= ->]. by apply (H a). Qed.

Lemma issue_request_sound ty args optargs c handler fuel w :
  sound w →
  (∀ h, handler = Some h → own_handler h) →
  let x := issue_request ty args optargs c handler fuel w in
  sound x.2 ∧ ∀ a, x.1 ≠ Some (Raise (AttributeError a)).
Proof.
  intros Hw Hown. cbn zeta. unfold issue_request.
  destruct handler as [h|].
  - destruct (async_request_sound ty args optargs h w Hw)
      as (H1 & _ & _ & H4).
    { apply own_handler_callable. by apply Hown. }
    destruct (async_request ty args optargs h w) as [[id|e] w1];
      cbn [fst snd] in *; [done|].
    split; [done|]. intros a [= ->]. by apply (H4 a).
  - destruct c as [c|]; [|done].
    destruct (sync_request_sound ty args optargs c fuel w Hw) as (H1 & _ & H3).
    done.
Qed.

Lemma perform_sound o w :
  sound w → own_handlers o →
  sound (perform o w).2
  ∧ ∀ a, (perform o w).1 ≠ Some (Raise (AttributeError a)).
Proof.
  intros Hw Ho.
  destruct o as [|ty args optargs cb|ty args optargs c cb fuel| | |];
    cbn [perform own_handlers] in *.
  - split; [exact Hw|done].
  - destruct (async_request_sound ty args optargs cb w Hw
                (own_handler_callable w cb Ho)) as (H1 & _ & _ & H4).
    destruct (returning_spec RId (async_request ty args optargs cb w))
      as (-> & _). split; [done|]. by apply returning_fine.
  - apply issue_request_sound; [done|]. intros h ->. done.
  - destruct (try_send_sound w Hw) as (H1 & _ & H3).
    destruct (returning_spec RBool (try_send w)) as (-> & _).
    split; [done|]. by apply returning_fine.
  - destruct (try_receive_sound w Hw) as (H1 & _ & H3).
    destruct (returning_spec RBool (try_receive w)) as (-> & _).
    split; [done|]. by apply returning_fine.
  - destruct (process_sound w Hw) as (H1 & _ & H3).
    destruct (returning_spec (λ _, RNone) (process w)) as (-> & _).
    split; [done|]. by apply returning_fine.
Qed.

Lemma run_sound ops w :
  sound w → Forall own_handlers ops →
  sound (run ops w).2
  ∧ ∀ a, Some (Raise (AttributeError a)) ∉ (run ops w).1.
Proof.
  intros Hw Hops. revert w Hw.
  induction Hops as [|o ops Ho _ IH]; intros w Hw.
  { split; [done|]. intros a. apply not_elem_of_nil. }
  rewrite run_cons. destruct (perform_sound o w Hw Ho) as (H1 & H2).
  destruct (perform o w).1 as [r|]; cbn [fst snd].
  - destruct (IH _ H1) as (I1 & I2). split; [done|].
    intros a. apply not_elem_of_cons. split; [|done].
    intros [= <-]. by apply (H2 a).
  - split; [done|]. intros a.
    apply not_elem_of_cons. split; [done|apply not_elem_of_nil].
Qed.

Lemma Client_init_sound cid sock rcb fuel w :
  (∀ ref o, objects w !! ref = Some o → adapter_ok o) →
  let x := Client_init cid (inl sock) rcb fuel w in
  sound x.2 ∧ ∀ a, x.1 ≠ Some (Raise (AttributeError a)).
Proof.
  intros Hok. cbn zeta. unfold Client_init.
  match goal with |- context [initial_hello fuel ?W] =>
    assert (sound W) as Hw1;
    [|set (w1 := W) in *; clearbody w1] end.
  { split; [|split; [done|]].
    - intros k t. simpl. by rewrite lookup_empty.
    - intros k t h. simpl. by rewrite lookup_empty. }
  assert (sound (initial_hello fuel w1).2
          ∧ ∀ a, (initial_hello fuel w1).1 ≠ Some (Raise (AttributeError a)))
    as [Hs Hf].
  { unfold initial_hello, hello, issue_request.
    destruct (async_request_sound proto.TA_HELLO
                [JInt (client_id (client w1)); JInt proto.VERSION;
                 JInt proto.VERSION] ∅ initial_hello_cb w1 Hw1 I)
      as (H1 & _ & _ & H4).
    destruct (async_request _ _ _ _ w1) as [[id|e] w2]; cbn [fst snd] in *.
    2:{ split; [done|]. intros a [= ->]. by apply (H4 a). }
    destruct (ready_cb (client w2)); [done|].
    destruct (wait_sound fuel
                (λ w, negb (is_None (proto_version (client w)))) w2 H1)
      as (W1 & _ & W3). done. }
  destruct (initial_hello fuel w1) as [[[u|e]|] w2]; cbn [fst snd] in *;
    try done.
  destruct (is_Error e); cbn [fst snd]; [|done].
  split; [exact Hs|done].
Qed.

(** X21. No attribute is read before it is assigned. The constructor
    leaves a connection in which the handler of every registered
    transaction is set and every [Call] object has the attributes that go
    with its result, and the calls on the connection keep it so, as long
    as the handlers that the caller passes are its own: neither the
    constructor nor any call of a run raises [AttributeError]. *)
Theorem no_attribute_is_read_before_it_is_assigned :
  (∀ client_id sock ready_cb fuel a,
     (Client_init client_id (inl sock) ready_cb fuel blank).1
     ≠ Some (Raise (AttributeError a))
     ∧ sound (Client_init client_id (inl sock) ready_cb fuel blank).2)
  ∧ (∀ ops w a,
       sound w → Forall own_handlers ops →
       Some (Raise (AttributeError a)) ∉ (run ops w).1).
Proof.
  split.
  - intros cid sock rcb fuel a.
    destruct (Client_init_sound cid sock rcb fuel blank) as [H1 H2].
    { intros ref o. simpl. by rewrite lookup_empty. }
    split; [apply H2|exact H1].
  - intros ops w a Hw Hops. by apply run_sound.
Qed.

(** ** Requests that are waited for *)

(** X22. A [NotifyCall] keeps every NOTIFY event that it is called with,
    in the order of the calls, whatever the other calls are; it does so
    before the assertions on the transaction id, so also when they
    fail. *)
Theorem NotifyCall_keeps_every_notification now self calls :
  cls self = NotifyCall →
  notifications (called now self calls)
  = notifications self ++ notified calls.
Proof.
  unfold called, notified. revert self.
  induction calls as [|[[[ta_id event] args] optargs] calls IH];
    intros self Hcls.
  { simpl. by rewrite app_nil_r. }
  cbn [foldl omap list_omap fst snd].
  assert (cls (adapter__call__ self now ta_id event args optargs).2
          = NotifyCall
          ∧ notifications (adapter__call__ self now ta_id event args optargs).2
            = notifications self
              ++ (if bool_decide (event = NOTIFY)
                  then [notification args optargs] else [])) as [Hc Hn].
  { unfold adapter__call__. rewrite Hcls.
    match goal with |- context [Call__call__ ?S _ _ _] =>
      destruct (Call__call___ok S ta_id event optargs)
        as (E1 & _ & _ & E4 & _) end.
    cbn zeta in E1, E4. rewrite E1, E4.
    case_bool_decide; simpl; [done|]. by rewrite app_nil_r. }
  rewrite IH by done. rewrite Hn.
  case_bool_decide; simpl; [|by rewrite app_nil_r].
  by rewrite <-app_assoc.
Qed.

(** [get()] of a [Call] object that is there, when it returns. *)
Lemma get_value ref fuel w o v :
  sound w →
  objects w !! ref = Some o →
  (get ref fuel w).1 = Some (Ok v) →
  ∃ self, objects (get ref fuel w).2 !! ref = Some self
          ∧ cls self = cls o
          ∧ Call_result self = Some COMPLETE
          ∧ returned self v.
Proof.
  intros Hw Ho. unfold get, Call_get.
  destruct (wait_sound fuel (terminal ref) w Hw) as (_ & H2 & _).
  destruct (wait_criterion fuel (terminal ref) w) as (Hc & _).
  destruct (wait fuel (terminal ref) w) as [[[[]|e]|] w1]; cbn [fst snd] in *;
    try done.
  specialize (Hc eq_refl). unfold terminal in Hc.
  destruct (H2 ref o Ho) as (self & Hself & Hcls). rewrite Hself in Hc |- *.
  destruct (decide (Call_result self = Some FAIL)) as [Hfail|Hfail].
  { rewrite bool_decide_true by done. by destruct (reason self). }
  rewrite bool_decide_false by done. rewrite Hself.
  rewrite (bool_decide_false (_ = Some FAIL)), orb_false_r in Hc by done.
  apply bool_decide_eq_true in Hc.
  unfold returned.
  destruct (cls self) eqn:Ec; cbn [fst snd].
  - intros [= <-]. exists self. rewrite Ec. done.
  - destruct (latency self) as [l|] eqn:El; [|done]. cbn [fst snd].
    intros [= <-]. exists self. rewrite Ec. eauto 10.
  - intros [= <-]. exists self. rewrite Ec. done.
  - destruct (complete self) as [l|] eqn:El; [|done]. cbn [fst snd].
    intros [= <-]. exists self. rewrite Ec. eauto 10.
Qed.

(** X23. A request that is waited for returns only when its transaction
    has been completed: the [Call] object that was made for it has got
    the event COMPLETE, and what is returned is what goes with the class
    of the object: nothing, the latency, the notifications, or the
    arguments of the COMPLETE. *)
Theorem sync_request_returns_after_COMPLETE_only ty args optargs c fuel w v :
  sound w →
  let x := sync_request ty args optargs c fuel w in
  x.1 = Some (Ok v) →
  ∃ self, objects x.2 !! fresh (dom (objects w)) = Some self
          ∧ cls self = c
          ∧ Call_result self = Some COMPLETE
          ∧ returned self v.
Proof.
  intros Hw. pose proof Hw as (Hwf & Hok & Hcb).
  cbn zeta. unfold sync_request.
  set (ref := fresh (dom (objects w))).
  set (w0 := set_objects _ w).
  assert (sound w0) as Hw0.
  { assert (persist w w0) as Hp0.
    { intros r o Ho. subst w0. simpl. rewrite lookup_insert. case_decide.
      - subst. assert (objects w !! ref = None) as Hfresh
          by (apply not_elem_of_dom, is_fresh).
        congruence.
      - eauto. }
    split; [done|]. split.
    - intros r o. subst w0. simpl. rewrite lookup_insert. case_decide.
      + intros [= <-]. by split.
      + apply Hok.
    - intros k t h Hk Hh. apply (callable_persist w); [done|]. eauto. }
  destruct (async_request_sound ty args optargs (call_object ref) w0 Hw0)
    as (H1 & H2 & H3 & H4).
  { subst w0. simpl. rewrite lookup_insert_eq. eauto. }
  destruct (async_request ty args optargs (call_object ref) w0)
    as [[id|e] w1]; cbn [fst snd] in *; [|done].
  set (w2 := set_objects _ w1).
  assert (sound w2) as Hw2.
  { destruct H1 as (Hwf1 & Hok1 & Hcb1).
    assert (persist w1 w2) as Hp2.
    { intros r o Ho. subst w2. simpl. rewrite lookup_alter. case_decide.
      - subst. rewrite Ho. simpl. eauto.
      - eauto. }
    split; [done|]. split.
    - intros r o. subst w2. simpl. rewrite lookup_alter. case_decide.
      + subst. destruct (objects w1 !! ref) as [o1|] eqn:Ho1; [|done].
        simpl. intros [= <-]. apply (Hok1 _ _ Ho1).
      + apply Hok1.
    - intros k t h Hk Hh. apply (callable_persist w1); [done|]. eauto. }
  intros Hv.
  destruct (get_value ref fuel w2 (set_Call_ta_id id (Call_init c (now w))) v
              Hw2) as (self & Hself & Hcls & Hres & Hret); [|done|by eauto].
  subst w2. simpl. rewrite lookup_alter_eq, H3. subst w0. simpl.
  by rewrite lookup_insert_eq.
Qed.
Lemma put_optargs_none fields (m : msg) :
  foldl put_optarg (m, ∅) fields = (m, ∅).
Proof.
  induction fields as [|f fields IH]; [done|]. cbn [foldl].
  unfold put_optarg at 2. rewrite lookup_empty.
  rewrite bool_decide_false by (by intros [? ?]). done.
Qed.

(** A request without optional arguments, on a transport on which no send
    fails for good. *)
Lemma async_request_sent ty args handler w :
  length args = length (proto.request_fields ty) →
  sendable (xcm.sends (conn_sock (client w))) →
  let id := Client_ta_id (client w) in
  ∃ w1, async_request ty args ∅ handler w = (Ok id, w1)
        ∧ untouched
            (on_client
               (λ c, set_transactions
                       (<[id := {| ta_id := id; ta_type := ty;
                                   state := REQUESTING;
                                   cb := Some handler |}]> (transactions c))
                       (set_Client_ta_id (id + 1) c)) w) w1
        ∧ sendable (xcm.sends (conn_sock (client w1)))
        ∧ xcm.receives (conn_sock (client w1))
          = xcm.receives (conn_sock (client w)).
Proof.
  intros Hlen Hs. cbn zeta. unfold async_request. cbn [next_ta_id].
  unfold produce_request. cbn [ta_type ta_id Transaction_init].
  rewrite bool_decide_true by done. cbn [negb].
  rewrite put_optargs_none.
  rewrite bool_decide_true by apply map_size_empty. cbn [negb].
  match goal with |- context [try_send ?W] => set (w1 := W) end.
  destruct (try_send_sendable w1 Hs) as [[b Hb] Hs'].
  destruct (try_send_untouched w1) as [Hu Hr].
  destruct (try_send w1) as [r w2]; cbn [fst snd] in *. subst r.
  exists w2. split; [done|]. split; [|done].
  eapply untouched_trans; [|exact Hu]. by unfold untouched.
Qed.

(** [select] takes every legal combination. *)
Lemma select_legal self kind event s' :
  legal kind (state self) (proto.ia_type (ta_type self)) event s' →
  select self (JStr kind)
  = Some (event, (fields_of (ta_type self) event).1,
          (fields_of (ta_type self) event).2, s').
Proof.
  unfold select, eq_str. intros Hl.
  destruct (state self) eqn:Hs, (proto.ia_type (ta_type self)) eqn:Hia;
    inversion Hl; subst; simpl.
  all: repeat (case_bool_decide; simpl; try done).
  all: done.
Qed.

Lemma header_only id cmd kind :
  delete "msg-type"%string
    (delete "ta-cmd"%string (delete "ta-id"%string (message id cmd kind [])))
  = ∅.
Proof. by vm_compute. Qed.

Lemma reason_only id cmd kind r :
  delete "fail-reason"%string
    (delete "msg-type"%string
       (delete "ta-cmd"%string
          (delete "ta-id"%string
             (message id cmd kind [("fail-reason"%string, r)]))))
  = ∅.
Proof. by vm_compute. Qed.

(** The handler of a request that is waited for with the plain adapter,
    on the three replies that end it. *)
Lemma consume_plain_complete ty w W :
  plain ty →
  objects W !! fresh (dom (objects w)) = Some (waiting w) →
  consume_message (waited_for ty w)
    (delete "ta-id"%string
       (message (Client_ta_id (client w)) (proto.cmd ty) "complete" [])) W
  = (set_state TERMINATED (waited_for ty w), Ok (),
     set_objects (<[fresh (dom (objects w))
                    := ended COMPLETE None (waiting w)]> (objects W)) W).
Proof.
  intros (Hia & Hcf & Hco & _) Ho.
  rewrite (consume_message_header _ _ _ "complete") by done.
  rewrite (select_legal _ _ COMPLETE TERMINATED)
    by (cbn [state ta_type waited_for]; rewrite Hia; constructor).
  cbn [fields_of fst snd ta_type waited_for]. rewrite Hcf, Hco.
  cbn [pull_fields pull_opt_fields]. rewrite header_only.
  rewrite bool_decide_false by (rewrite map_size_empty; lia).
  unfold delivered, call_cb, invoke. cbn [cb set_state waited_for ta_id].
  rewrite Ho. unfold adapter__call__, Call__call__.
  cbn [cls waiting set_Call_ta_id Call_init Call_ta_id].
  rewrite bool_decide_true by done. cbn [negb fst snd].
  rewrite bool_decide_false by done. done.
Qed.

Lemma consume_plain_fail ty w W :
  plain ty →
  objects W !! fresh (dom (objects w)) = Some (waiting w) →
  consume_message (waited_for ty w)
    (delete "ta-id"%string
       (message (Client_ta_id (client w)) (proto.cmd ty) "fail" [])) W
  = (set_state TERMINATED (waited_for ty w), Ok (),
     set_objects (<[fresh (dom (objects w))
                    := ended FAIL (Some JNull) (waiting w)]> (objects W)) W).
Proof.
  intros (_ & _ & _ & Hff & Hfo) Ho.
  rewrite (consume_message_header _ _ _ "fail") by done.
  rewrite (select_legal _ _ FAIL TERMINATED) by constructor.
  cbn [fields_of fst snd ta_type waited_for]. rewrite Hff, Hfo.
  cbn [pull_fields pull_opt_fields]. unfold proto.pull.
  cbn [proto.name proto.FIELD_FAIL_REASON proto.StrField].
  rewrite header_only, lookup_empty. cbn [is_None].
  rewrite bool_decide_false by (rewrite map_size_empty; lia).
  unfold delivered, call_cb, invoke. cbn [cb set_state waited_for ta_id].
  rewrite Ho. unfold adapter__call__, Call__call__.
  cbn [cls waiting set_Call_ta_id Call_init Call_ta_id].
  rewrite bool_decide_true by done. cbn [negb fst snd].
  rewrite bool_decide_true by done. rewrite lookup_empty. done.
Qed.

Lemma consume_plain_fail_reason ty w W r :
  plain ty →
  objects W !! fresh (dom (objects w)) = Some (waiting w) →
  consume_message (waited_for ty w)
    (delete "ta-id"%string
       (message (Client_ta_id (client w)) (proto.cmd ty) "fail"
                [("fail-reason"%string, JStr r)])) W
  = (set_state TERMINATED (waited_for ty w), Ok (),
     set_objects (<[fresh (dom (objects w))
                    := ended FAIL (Some (JStr r)) (waiting w)]> (objects W))
                 W).
Proof.
  intros (_ & _ & _ & Hff & Hfo) Ho.
  rewrite (consume_message_header _ _ _ "fail") by done.
  rewrite (select_legal _ _ FAIL TERMINATED) by constructor.
  cbn [fields_of fst snd ta_type waited_for]. rewrite Hff, Hfo.
  cbn [pull_fields pull_opt_fields]. unfold proto.pull.
  cbn [proto.name proto.FIELD_FAIL_REASON proto.StrField].
  replace (delete "msg-type"%string
             (delete "ta-cmd"%string
                (delete "ta-id"%string
                   (message (Client_ta_id (client w)) (proto.cmd ty) "fail"
                      [("fail-reason"%string, JStr r)])))
           !! "fail-reason"%string) with (Some (JStr r)) by done.
  rewrite reason_only.
  change (proto.python_type proto.FIELD_FAIL_REASON (JStr r)) with true.
  cbn beta iota. cbn [is_None].
  rewrite bool_decide_false by (rewrite map_size_empty; lia).
  unfold delivered, call_cb, invoke. cbn [cb set_state waited_for ta_id].
  rewrite Ho. unfold adapter__call__, Call__call__.
  cbn [cls waiting set_Call_ta_id Call_init Call_ta_id].
  rewrite bool_decide_true by done. cbn [negb fst snd].
  rewrite bool_decide_true by done.
  cbn [proto.python_name proto.FIELD_FAIL_REASON proto.StrField].
  rewrite lookup_insert_eq. done.
Qed.
Lemma wait_done fuel ref w o :
  objects w !! ref = Some o →
  Call_result o = Some COMPLETE ∨ Call_result o = Some FAIL →
  wait fuel (terminal ref) w = (Some (Ok ()), w).
Proof.
  intros Ho Hres.
  assert (terminal ref w = true) as Ht.
  { unfold terminal. rewrite Ho.
    destruct Hres as [-> | ->]; [done|]. apply orb_true_r. }
  destruct fuel; cbn [wait]; by rewrite Ht.
Qed.

(** [get()] of a plain [Call] object that has its result. *)
Lemma get_ended ref fuel w o :
  objects w !! ref = Some o →
  cls o = Call →
  (Call_result o = Some COMPLETE → get ref fuel w = (Some (Ok RNone), w))
  ∧ (∀ r, Call_result o = Some FAIL → reason o = Some r →
          get ref fuel w = (Some (Raise (TransactionError_init r)), w)).
Proof.
  intros Ho Hcls. split.
  - intros Hres. unfold get, Call_get.
    rewrite (wait_done fuel ref w o) by eauto. rewrite Ho.
    rewrite bool_decide_false by congruence. by rewrite Ho, Hcls.
  - intros r Hres Hr. unfold get, Call_get.
    rewrite (wait_done fuel ref w o) by eauto. rewrite Ho.
    rewrite bool_decide_true by done. by rewrite Hr.
Qed.

(** A request that is waited for, when the reply that ends its transaction
    comes after a number of would-block receives: the wait ends in the
    round that receives the reply, with the transaction out of the
    registry. *)
Lemma sync_request_delivered ty args k reply after fuel w t' o' :
  length args = length (proto.request_fields ty) →
  sendable (xcm.sends (conn_sock (client w))) →
  xcm.receives (conn_sock (client w))
  = replicate k (inr xcm.EAGAIN) ++ inl (xcm.Encoded reply) :: after →
  default (inr xcm.EAGAIN) (head after) = inr xcm.EAGAIN →
  (k < fuel)%nat →
  reply !! "ta-id"%string = Some (JInt (Client_ta_id (client w))) →
  (∀ W, objects W !! fresh (dom (objects w)) = Some (waiting w) →
        consume_message (waited_for ty w) (delete "ta-id"%string reply) W
        = (t', Ok (),
           set_objects (<[fresh (dom (objects w)) := o']> (objects W)) W)) →
  state t' = TERMINATED →
  Call_result o' = Some COMPLETE ∨ Call_result o' = Some FAIL →
  ∃ w', sync_request ty args ∅ Call fuel w
        = get (fresh (dom (objects w))) 0 w'
        ∧ objects w' !! fresh (dom (objects w)) = Some o'
        ∧ transactions (client w')
          = delete (Client_ta_id (client w)) (transactions (client w))
        ∧ user_calls w' = user_calls w.
Proof.
  intros Hlen Hs Hrecv Hafter Hk Hid Hcons Hterm Hres.
  unfold sync_request.
  set (ref := fresh (dom (objects w))) in *.
  set (w0 := set_objects _ w).
  destruct (async_request_sent ty args (call_object ref) w0 Hlen Hs)
    as (w1 & Hreq & Hu1 & Hs1 & Hr1).
  cbn zeta in Hreq, Hu1.
  change (Client_ta_id (client w0)) with (Client_ta_id (client w)) in *.
  rewrite Hreq.
  set (id := Client_ta_id (client w)) in *.
  set (w2 := set_objects _ w1).
  destruct Hu1 as (U1 & U2 & U3 & U4 & U5 & U6 & U7 & U8 & U9).
  cbn [client on_client set_client set_transactions set_Client_ta_id
       transactions objects user_calls now proto_version ready_cb
       set_objects w0] in U1, U6, U7.
  assert (objects w2 !! ref = Some (waiting w)) as Ho2.
  { subst w2. cbn [objects set_objects]. rewrite lookup_alter_eq, U6.
    subst w0. cbn [objects set_objects]. by rewrite lookup_insert_eq. }
  assert (transactions (client w2)
          = <[id := waited_for ty w]> (transactions (client w))) as Ht2
    by (exact U1).
  assert (terminal ref w2 = false) as Hc2.
  { unfold terminal. by rewrite Ho2. }
  replace fuel with (k + S (fuel - S k))%nat by lia.
  destruct (wait_blocked k (inl (xcm.Encoded reply) :: after)
              (S (fuel - S k)) (terminal ref) w2)
    as (w3 & Hu3 & Hs3 & Hr3 & Hw3).
  { intros a b (_ & _ & _ & _ & _ & E & _). unfold terminal. by rewrite E. }
  { done. }
  { exact Hs1. }
  { change (xcm.receives (conn_sock (client w2)))
      with (xcm.receives (conn_sock (client w1))).
    rewrite Hr1. exact Hrecv. }
  pose proof Hu3 as (V1 & _ & _ & _ & _ & V6 & V7 & _).
  assert (terminal ref w3 = false) as Hc3.
  { unfold terminal. by rewrite V6, Ho2. }
  destruct (process_delivers w3 reply after id (waited_for ty w) Hs3 Hr3
              Hafter Hid) as (w3' & Hu3' & Hp).
  { rewrite V1, Ht2. apply lookup_insert_eq. }
  pose proof Hu3' as (_ & _ & _ & _ & _ & W6 & W7 & _).
  cbn zeta in Hp. rewrite Hcons in Hp by (by rewrite W6, V6).
  cbn [fst snd] in Hp.
  destruct Hp as (P1 & P2 & _ & _ & P5 & P6 & _).
  exists (process w3).2.
  assert (objects (process w3).2 !! ref = Some o') as Ho4.
  { rewrite P5. cbn [objects set_objects]. apply lookup_insert_eq. }
  split; [|split; [done|split]].
  - unfold get, Call_get.
    rewrite (wait_done 0 ref (process w3).2 o') by done.
    rewrite Hw3. cbn [wait]. rewrite Hc3.
    destruct (process w3) as [r w4]. cbn [fst snd] in *. subst r.
    by rewrite (wait_done (fuel - S k) ref w4 o').
  - rewrite P2, V1, Ht2. unfold routed_registry.
    rewrite bool_decide_true by done. apply delete_insert_eq.
  - rewrite P6. cbn [user_calls set_objects]. by rewrite W7, V7.
Qed.

(** X24. A request that is waited for with the plain [Call] adapter, for
    a schema entry whose transactions end with a COMPLETE without fields
    or with a FAIL, on a transport on which no send fails for good. When,
    after any number of would-block receives, the server completes the
    transaction and the transport has nothing more for now, the request,
    given rounds enough to get to the reply, returns [None]; its
    transaction has left the registry and no handler of the caller was
    called. *)
Theorem a_blocking_request_returns_when_completed ty args k after fuel w :
  plain ty →
  length args = length (proto.request_fields ty) →
  sendable (xcm.sends (conn_sock (client w))) →
  xcm.receives (conn_sock (client w))
  = replicate k (inr xcm.EAGAIN)
    ++ inl (xcm.Encoded (message (Client_ta_id (client w)) (proto.cmd ty)
                                 "complete" [])) :: after →
  default (inr xcm.EAGAIN) (head after) = inr xcm.EAGAIN →
  (k < fuel)%nat →
  let x := sync_request ty args ∅ Call fuel w in
  x.1 = Some (Ok RNone)
  ∧ transactions (client x.2)
    = delete (Client_ta_id (client w)) (transactions (client w))
  ∧ user_calls x.2 = user_calls w.
Proof.
  intros Hty Hlen Hs Hrecv Hafter Hk. cbn zeta.
  destruct (sync_request_delivered ty args k _ after fuel w
              (set_state TERMINATED (waited_for ty w))
              (ended COMPLETE None (waiting w)) Hlen Hs Hrecv Hafter Hk)
    as (w' & -> & Ho & Ht & Hu); [done| |done|by left|].
  { intros W HW. by apply consume_plain_complete. }
  destruct (get_ended (fresh (dom (objects w))) 0 w' _ Ho eq_refl) as [-> _];
    done.
Qed.

(** X25. Such a request, when the server fails the transaction: with a
    reason, the request raises the [TransactionError] that carries the
    reason; without one, it raises a [TypeError], which comes from
    formatting the message of the [TransactionError]. Either way the
    transaction has left the registry. *)
Theorem a_blocking_request_raises_when_failed ty args k reply e after fuel w :
  plain ty →
  length args = length (proto.request_fields ty) →
  sendable (xcm.sends (conn_sock (client w))) →
  xcm.receives (conn_sock (client w))
  = replicate k (inr xcm.EAGAIN) ++ inl (xcm.Encoded reply) :: after →
  default (inr xcm.EAGAIN) (head after) = inr xcm.EAGAIN →
  (k < fuel)%nat →
  (∃ r, reply = message (Client_ta_id (client w)) (proto.cmd ty) "fail"
                        [("fail-reason"%string, JStr r)]
        ∧ e = TransactionError
                (Fmt "Protocol transaction failed: '%s'." (JStr r)))
  ∨ (reply = message (Client_ta_id (client w)) (proto.cmd ty) "fail" []
     ∧ e = TypeError "not all arguments converted during string formatting") →
  let x := sync_request ty args ∅ Call fuel w in
  x.1 = Some (Raise e)
  ∧ transactions (client x.2)
    = delete (Client_ta_id (client w)) (transactions (client w)).
Proof.
  intros Hty Hlen Hs Hrecv Hafter Hk Hreply. cbn zeta.
  destruct Hreply as [(r & -> & ->)|[-> ->]].
  - destruct (sync_request_delivered ty args k _ after fuel w
                (set_state TERMINATED (waited_for ty w))
                (ended FAIL (Some (JStr r)) (waiting w))
                Hlen Hs Hrecv Hafter Hk)
      as (w' & -> & Ho & Ht & Hu); [done| |done|by right|].
    { intros W HW. by apply consume_plain_fail_reason. }
    destruct (get_ended (fresh (dom (objects w))) 0 w' _ Ho eq_refl)
      as [_ Hg].
    by rewrite (Hg (JStr r)).
  - destruct (sync_request_delivered ty args k _ after fuel w
                (set_state TERMINATED (waited_for ty w))
                (ended FAIL (Some JNull) (waiting w))
                Hlen Hs Hrecv Hafter Hk)
      as (w' & -> & Ho & Ht & Hu); [done| |done|by right|].
    { intros W HW. by apply consume_plain_fail. }
    destruct (get_ended (fresh (dom (objects w))) 0 w' _ Ho eq_refl)
      as [_ Hg].
    by rewrite (Hg JNull).
Qed.

(** ** More on requests and rounds *)

Lemma put_optargs_null fields (m o : msg) :
  (∀ k v, o !! k = Some v → v = JNull) →
  (foldl put_optarg (m, o) fields).1 = m.
Proof.
  revert o; induction fields as [|f fields IH]; intros o Hnull; [done|].
  cbn [foldl].
  destruct (put_optarg_cases m o f) as [[_ ->]|[_ ->]]; [by apply IH|].
  assert (match o !! proto.python_name f with
          | Some v => if is_None v then m else proto.put f v m
          | None => m
          end = m) as ->.
  { destruct (o !! proto.python_name f) as [v|] eqn:Hv; [|done].
    by rewrite (Hnull _ _ Hv). }
  apply IH. intros k v. rewrite lookup_delete_Some. intros [_ Hk]. eauto.
Qed.

(** X26. An optional argument that is given as [None] is taken for
    absent: when every optional argument of a request is [None] and is
    named after an optional request field, [produce_request] succeeds, and
    the request is the one that it makes without optional arguments. *)
Theorem produce_request_leaves_out_null_arguments self args optargs cb :
  length args = length (proto.request_fields (ta_type self)) →
  (∀ k v, optargs !! k = Some v →
          v = JNull
          ∧ k ∈ proto.name <$> proto.opt_request_fields (ta_type self)) →
  produce_request self args optargs cb = produce_request self args ∅ cb
  ∧ ∃ m, produce_request self args optargs cb
         = ({| ta_id := ta_id self; ta_type := ta_type self;
               state := REQUESTING; cb := Some cb |}, Ok m).
Proof.
  intros Hlen Hnull. unfold produce_request.
  rewrite bool_decide_true by done. cbn [negb]. rewrite put_optargs_none.
  match goal with |- context [foldl put_optarg (?M, optargs) ?F] =>
    pose proof (put_optargs_null F M optargs) as Hm;
    pose proof (put_optargs_rest F M optargs) as Hrest;
    destruct (foldl put_optarg (M, optargs) F) as [m' o'] end.
  cbn [fst] in Hm.
  rewrite Hm by (intros k v Hk; by destruct (Hnull k v Hk)).
  assert (o' = ∅) as ->.
  { apply map_empty. intros k. rewrite (Hrest _ _ eq_refl).
    case_decide as Hk; [done|].
    destruct (optargs !! k) as [v|] eqn:Ho; [|done].
    destruct Hk. by destruct (Hnull k v Ho). }
  rewrite bool_decide_true by apply map_size_empty. cbn [negb]. eauto.
Qed.

(** X27. A round on a connection with nothing to send, on a transport
    that has nothing to deliver: [process] returns, having made one
    receive attempt and no send attempt, and nothing has changed. *)
Theorem an_idle_round_changes_nothing w :
  out_wire_msgs (client w) = [] →
  coming w = inr xcm.EAGAIN →
  (process w).1 = Ok ()
  ∧ untouched w (process w).2
  ∧ out_wire_msgs (client (process w).2) = []
  ∧ io (process w).2 = io w ++ [xcm.Receive (inr xcm.EAGAIN)].
Proof.
  intros Hq Hc. unfold process.
  change MAX_MSGS_PER_ROUND with (S 127). cbn [attempts].
  assert (try_send w = (Ok false, update w)) as ->.
  { unfold try_send. by rewrite Hq. }
  assert (try_receive (update w)
          = (Ok false,
             update (on_client
                       (set_conn_sock
                          (xcm.receive (conn_sock (client (update w)))).2)
                       (update w)))) as ->.
  { unfold try_receive, xcm.receive. unfold coming in Hc.
    change (xcm.receives (conn_sock (client (update w))))
      with (xcm.receives (conn_sock (client w))).
    destruct (xcm.receives (conn_sock (client w))) as [|o rest];
      simpl in Hc |- *; [done|]. by rewrite Hc. }
  cbn [fst snd]. split; [done|]. split; [by unfold untouched|].
  split; [done|].
  unfold io, xcm.receive, coming in *.
  change (xcm.receives (conn_sock (client (update w))))
    with (xcm.receives (conn_sock (client w))).
  destruct (xcm.receives (conn_sock (client w))) as [|o rest];
    simpl in Hc |- *; [|rewrite Hc].
  all: rewrite !filter_app; simpl; by rewrite !app_nil_r.
Qed.











(** ** The properties on concrete connections *)

(** C1, the claim as stated fails: a FAIL for a transaction in state
    TERMINATED is not rejected; the handler is called with it. *)
Lemma FAIL_is_taken_when_TERMINATED :
  (consume_message ended_transaction (routed hello_fail) blank).1.2 = Ok ()
  ∧ user_calls (consume_message ended_transaction (routed hello_fail) blank).2
    = [Handled 0 0 FAIL [] ∅].
Proof. split; reflexivity. Qed.

Lemma consume_message_legal_combinations_witness :
  routed (hello_complete 2 []) !! "ta-cmd"%string = Some (JStr "hello")
  ∧ routed (hello_complete 2 []) !! "msg-type"%string = Some (JStr "complete")
  ∧ state (consume_message hello_transaction (routed (hello_complete 2 []))
                           blank).1.1 = TERMINATED.
Proof.
  split; [reflexivity|]. split; [reflexivity|].
  apply (proj1 (consume_message_legal_combinations
                  hello_transaction (routed (hello_complete 2 [])) blank
                  "complete" eq_refl eq_refl) COMPLETE TERMINATED).
  constructor.
Defined.

(** C2, the claim as stated fails: when [consume_message] raises after it
    has set the state (here on an unknown field), the transaction is
    TERMINATED and still registered, and the next message that bears its id
    is not an error: it is handed to the transaction and its handler is
    called. *)
Lemma terminated_transaction_stays_registered :
  (try_receive (unsubscribing bogus_then_fail)).1
  = Raise (ProtocolError (UnknownFields ["bogus"%string]))
  ∧ state <$> transactions
                (client (try_receive (unsubscribing bogus_then_fail)).2) !! 1
    = Some TERMINATED
  ∧ (try_receive (try_receive (unsubscribing bogus_then_fail)).2).1 = Ok true
  ∧ user_calls (try_receive (try_receive (unsubscribing bogus_then_fail)).2).2
    = [Ready 0; Handled 1 1 FAIL [] ∅].
Proof. split; [|split; [|split]]; vm_compute; reflexivity. Qed.

(** C2, on a connection: the handshake ends well and its transaction leaves
    the registry; the connection makes a send attempt; a message that
    bears the id of the handshake then raises the unknown-transaction
    error. *)
Lemma after_handshake_registry_ok next : registry_ok (after_handshake next).
Proof.
  apply (quiet_registry_ok _ _ (try_receive_quiet _)).
  apply Client_init_registry_ok.
Qed.

Lemma terminated_transactions_are_unknown_witness :
  registry_ok (after_handshake [inl (xcm.Encoded hello_fail)])
  ∧ (try_receive
       (run [do_try_send] (after_handshake [inl (xcm.Encoded hello_fail)])).2).1
    = Raise (ProtocolError (UnknownTransaction (JInt 0))).
Proof.
  split; [apply after_handshake_registry_ok|].
  apply (proj1 (proj2 (terminated_transactions_are_unknown
                         (after_handshake [inl (xcm.Encoded hello_fail)])
                         (after_handshake_registry_ok _)))
           0 [do_try_send] hello_fail []).
  - vm_compute. reflexivity.
  - vm_compute. reflexivity.
  - vm_compute. reflexivity.
  - vm_compute. reflexivity.
Defined.


(** C4: the handshake went well, the connection unsubscribes and waits, and
    the server fails the transaction without a reason: [get()] raises a
    [TypeError], which comes from formatting the message of the
    [TransactionError]. *)
Lemma get_raises_TypeError_when_FAIL_has_no_reason :
  (unsubscribe 5 None 3 (before_unsubscribe [])).1
  = Some (Raise (TypeError
                   "not all arguments converted during string formatting")).
Proof. vm_compute. reflexivity. Qed.

(** With a reason, [get()] raises the transaction error that carries it. *)
Lemma get_raises_TransactionError_with_the_reason :
  (unsubscribe 5 None 3
     (before_unsubscribe
        [("fail-reason"%string, JStr "no-such-subscription")])).1
  = Some (Raise (TransactionError
                   (Fmt "Protocol transaction failed: '%s'."
                        (JStr "no-such-subscription")))).
Proof. vm_compute. reflexivity. Qed.

(** The adapter of the handshake's blocking form, [CompleteCall], takes no
    keyword arguments: a reason makes [__call__] raise. *)
Lemma CompleteCall_raises_TypeError_on_a_reason :
  let w := (try_receive
              (connected (Some 0%nat)
                 [inl (xcm.Encoded (hello_complete proto.VERSION []));
                  inl (xcm.Encoded
                         (message 1 "hello" "fail"
                            [("fail-reason"%string, JStr "busy")]))])).2 in
  (hello None 3 w).1
  = Some (Raise (TypeError "__call__() got an unexpected keyword argument")).
Proof. vm_compute. reflexivity. Qed.

(** C8, the claim as stated fails: with a readiness callback the
    constructor returns before the reply is there; the version mismatch is
    raised by the [process] call that receives the reply, and the transport
    handle stays open. *)
Lemma asynchronous_handshake_failure_leaves_open :
  let sock := socket_of [None] [inl (xcm.Encoded (hello_complete 3 []))] in
  (Client_init 7 (inl sock) (Some 0%nat) 0 blank).1 = Some (Ok ())
  ∧ (process (connected (Some 0%nat) (xcm.receives sock))).1
    = Raise (ProtocolError (UnsupportedVersion (JInt 3) proto.VERSION))
  ∧ xcm.closed
      (conn_sock
         (client (process (connected (Some 0%nat) (xcm.receives sock))).2))
    = false.
Proof. split; [|split]; vm_compute; reflexivity. Qed.

Lemma synchronous_handshake_failure_witness :
  sendable (xcm.sends version_3_socket)
  ∧ handshake_failure (hello_complete 3 [])
  ∧ ∃ v w',
      Client_init 7 (inl version_3_socket) None 2 blank
      = (Some (Raise (ProtocolError v)), w')
      ∧ xcm.closed (conn_sock (client w')) = true
      ∧ last (xcm.calls (conn_sock (client w'))) = Some xcm.Close.
Proof.
  assert (sendable (xcm.sends version_3_socket)) as Hs.
  { constructor; [by right|]. constructor; [by left|]. constructor. }
  assert (handshake_failure (hello_complete 3 [])) as Hf.
  { split; [reflexivity|]. split; [reflexivity|]. left.
    split; [reflexivity|]. exists 3. split; [reflexivity|done]. }
  split; [exact Hs|]. split; [exact Hf|].
  apply (synchronous_handshake_failure 7 version_3_socket 1
           (hello_complete 3 []) [] 2 blank Hs eq_refl Hf).
  lia.
Defined.


(** Two requests on a transport that takes nothing more: the ids go up, and
    the requests wait on the queue in the order of their issue. *)
Lemma two_requests_wait_in_order :
  let ops := [do_async_request proto.TA_UNSUBSCRIBE [JInt 5] ∅ (user_handler 1);
              do_async_request proto.TA_UNSUBSCRIBE [JInt 6] ∅ (user_handler 2);
              do_process] in
  ids (run ops (after_handshake [])).1 = [1; 2]
  ∧ out_wire_msgs (client (run ops (after_handshake [])).2)
    = issued ops (after_handshake []).
Proof. split; vm_compute; reflexivity. Qed.

(** A request that is waited for, in a run: its reply comes after one
    would-block, the request after it gets the next id, and the transport
    is given both in the order of their issue. *)
Lemma a_blocking_request_in_a_run :
  let ops := [do_issue_request proto.TA_UNSUBSCRIBE [JInt 5] ∅ (Some Call)
                               None 3;
              do_issue_request proto.TA_UNSUBSCRIBE [JInt 6] ∅ (Some Call)
                               (Some (user_handler 1)) 0] in
  let sock :=
    socket_of [None; None; None]
      [inl (xcm.Encoded (hello_complete proto.VERSION []));
       inr xcm.EAGAIN;
       inl (xcm.Encoded (message 1 "unsubscribe" "complete" []))] in
  let w := (Client_init 7 (inl sock) None 1 blank).2 in
  (run ops w).1 = [Some (Ok RNone); Some (Ok (RId 2))]
  ∧ out_wire_msgs (client (run ops w).2) = []
  ∧ xcm.transmitted (xcm.calls (conn_sock (client (run ops w).2)))
    = xcm.transmitted (xcm.calls (conn_sock (client w))) ++ issued ops w.
Proof. split; [|split]; vm_compute; reflexivity. Qed.

(** The domains file of the lab, read. *)
Lemma lab_lines_not_empty :
  Forall (λ line, ¬ empty_line line)
    ["# the servers of the lab"%string; "  tls:10.0.0.1:4711 "%string;
     "tls:10.0.0.2:4711"%string].
Proof. repeat constructor; by vm_compute. Qed.

Lemma domain_addrs_reads_in_order_witness :
  domain_addrs lab_env "lab"
  = Ok ["tls:10.0.0.1:4711"%string; "tls:10.0.0.2:4711"%string].
Proof.
  apply (domain_addrs_reads_in_order lab_env "lab" _ eq_refl
           lab_lines_not_empty).
Defined.

Lemma domain_addrs_empty_line_raises_IndexError_witness :
  let env :=
    {| environ := ∅;
       files := λ _, (["tcp:192.168.1.1:4711"%string; "   "%string;
                       "tcp:192.168.1.2:4711"%string], EOF);
       network := λ _, inr ECONNREFUSED;
       draw := 0 |} in
  domain_addrs env "home" = Raise IndexError.
Proof.
  intros env.
  apply (domain_addrs_empty_line_raises_IndexError env "home"
           ["tcp:192.168.1.1:4711"%string] "   "
           ["tcp:192.168.1.2:4711"%string] EOF eq_refl).
  - repeat constructor; by vm_compute.
  - reflexivity.
Defined.

Lemma domain_addrs_gives_clean_addresses_witness :
  Forall clean ["tls:10.0.0.1:4711"%string; "tls:10.0.0.2:4711"%string].
Proof.
  apply (domain_addrs_gives_clean_addresses lab_env "lab"). reflexivity.
Defined.


Lemma connect_goes_to_the_first_address_only_witness :
  connect lab_env "lab" (Some 7) None 0 blank
  = (Some (Raise (TransportError ECONNREFUSED)), blank).
Proof.
  apply (proj2 (connect_goes_to_the_first_address_only lab_env "lab" _
                  "tls:10.0.0.1:4711" ["tls:10.0.0.2:4711"%string]
                  7 None 0 blank eq_refl lab_lines_not_empty eq_refl)).
  reflexivity.
Defined.

Lemma consume_message_rejects_another_command_witness :
  consume_message hello_transaction
    (routed (message 0 "ping" "complete" [])) blank
  = (hello_transaction,
     Raise (ProtocolError (WrongCommand 0 "hello" (JStr "ping"))), blank).
Proof.
  apply (consume_message_rejects_another_command hello_transaction
           (routed (message 0 "ping" "complete" [])) blank).
  vm_compute. congruence.
Defined.

Lemma subscribe_names_NoDup :
  NoDup (header ++ (proto.name <$> proto.request_fields proto.TA_SUBSCRIBE)
         ++ (proto.name <$> proto.opt_request_fields proto.TA_SUBSCRIBE)).
Proof. apply (bool_decide_unpack _). vm_compute. reflexivity. Qed.

Lemma produce_request_builds_the_request_witness :
  ∃ t m, produce_request (Transaction_init proto.TA_SUBSCRIBE 3) [JInt 9]
           filter_optargs (user_handler 0) = (t, Ok m)
         ∧ m !! "ta-cmd"%string = Some (JStr "subscribe")
         ∧ m !! "ta-id"%string = Some (JInt 3)
         ∧ m !! "subscription-id"%string = Some (JInt 9).
Proof.
  assert (∃ t m, produce_request (Transaction_init proto.TA_SUBSCRIBE 3)
                   [JInt 9] filter_optargs (user_handler 0) = (t, Ok m))
    as (t & m & Hp) by (eexists _, _; vm_compute; reflexivity).
  exists t, m. split; [exact Hp|].
  destruct (produce_request_builds_the_request
              (Transaction_init proto.TA_SUBSCRIBE 3) [JInt 9] filter_optargs
              (user_handler 0) t m subscribe_names_NoDup Hp)
    as (Hcmd & Hid & _ & Hargs & _).
  split; [exact Hcmd|]. split; [exact Hid|].
  apply Forall2_cons_1 in Hargs as [Harg _]. exact Harg.
Defined.

Lemma async_request_registers_the_transaction_witness :
  transactions
    (client (async_request proto.TA_UNSUBSCRIBE [JInt 5] ∅ (user_handler 1)
                           (after_handshake [])).2)
  = <[1 := {| ta_id := 1; ta_type := proto.TA_UNSUBSCRIBE;
              state := REQUESTING; cb := Some (user_handler 1) |}]>
      (transactions (client (after_handshake []))).
Proof.
  refine (proj1 (async_request_registers_the_transaction
                   proto.TA_UNSUBSCRIBE [JInt 5] ∅ (user_handler 1)
                   (after_handshake []) _ _ _)).
  vm_compute. reflexivity.
Defined.

Lemma process_stops_at_a_failed_send_witness :
  (process congested).1 = Raise (TransportError EPIPE)
  ∧ out_wire_msgs (client (process congested).2) = [].
Proof.
  destruct (process_stops_at_a_failed_send
              (take 1 (out_wire_msgs (client congested)))
              (default xcm.Empty (out_wire_msgs (client congested) !! 1%nat))
              [] EPIPE [] congested) as (Hr & Hq & _).
  - vm_compute. reflexivity.
  - vm_compute. reflexivity.
  - unfold EPIPE, xcm.EAGAIN. lia.
  - vm_compute. lia.
  - split; [exact Hr|exact Hq].
Defined.

Lemma try_receive_touches_one_transaction_witness :
  ∃ in_msg rest,
    xcm.receives
      (conn_sock
         (client (connected (Some 0%nat)
                    [inl (xcm.Encoded (hello_complete proto.VERSION []))])))
    = inl (xcm.Encoded in_msg) :: rest
    ∧ in_msg !! "ta-id"%string = Some (JInt 0).
Proof.
  apply (try_receive_touches_one_transaction
           (connected (Some 0%nat)
              [inl (xcm.Encoded (hello_complete proto.VERSION []))]) 0).
  vm_compute. discriminate.
Defined.

Lemma try_receive_without_a_message_witness :
  (try_receive (after_handshake [inl xcm.Empty])).1
  = Raise (ProtocolError ServerClosed)
  ∧ transactions (client (try_receive (after_handshake [inl xcm.Empty])).2)
    = transactions (client (after_handshake [inl xcm.Empty])).
Proof.
  destruct (try_receive_without_a_message (after_handshake [inl xcm.Empty]))
    as (Hr & (Ht & _) & _).
  - vm_compute. discriminate.
  - split; [|exact Ht]. rewrite Hr. vm_compute. reflexivity.
Defined.

Lemma version_2_socket_sendable : sendable (xcm.sends version_2_socket).
Proof. constructor; [by right|]. constructor; [by left|]. constructor. Qed.

Lemma synchronous_handshake_success_witness :
  (Client_init 7 (inl version_2_socket) None 2 blank).1 = Some (Ok ())
  ∧ proto_version (client (Client_init 7 (inl version_2_socket) None 2
                                       blank).2)
    = JInt proto.VERSION.
Proof.
  destruct (synchronous_handshake_success 7 version_2_socket 1 [] 2 blank
              version_2_socket_sendable eq_refl eq_refl)
    as (Hr & Hv & _); [lia|].
  split; [exact Hr|exact Hv].
Defined.

Lemma asynchronous_constructor_does_not_wait_witness :
  (Client_init 7 (inl version_2_socket) (Some 0%nat) 0 blank).1
  = Some (Ok ())
  ∧ xcm.receives
      (conn_sock (client (Client_init 7 (inl version_2_socket) (Some 0%nat) 0
                                      blank).2))
    = xcm.receives version_2_socket.
Proof.
  destruct (asynchronous_constructor_does_not_wait 7 version_2_socket 0 0
              blank version_2_socket_sendable)
    as (Hr & _ & _ & _ & _ & Hrecv & _).
  split; [exact Hr|exact Hrecv].
Defined.

Lemma ready_cb_is_called_when_the_handshake_completes_witness :
  let w := connected (Some 0%nat)
             [inl (xcm.Encoded (hello_complete proto.VERSION []))] in
  (try_receive w).1 = Ok true
  ∧ user_calls (try_receive w).2 = user_calls w ++ [Ready 0].
Proof.
  intros w.
  destruct (ready_cb_is_called_when_the_handshake_completes w 0 [])
    as (Hr & Hu & _).
  - vm_compute. reflexivity.
  - vm_compute. reflexivity.
  - vm_compute. reflexivity.
  - split; [exact Hr|exact Hu].
Defined.

Lemma handshake_failure_says_why_witness :
  (try_receive (connected None [inl (xcm.Encoded hello_fail)])).1
  = Raise (ProtocolError (EstablishmentFailed (JStr "reason unknown"))).
Proof.
  refine (proj1 (handshake_failure_says_why
                   (connected None [inl (xcm.Encoded hello_fail)])
                   hello_fail [] _ _ _ (or_introl (conj eq_refl eq_refl)))).
  - vm_compute. reflexivity.
  - vm_compute. reflexivity.
Defined.

Lemma constructor_closes_after_a_failed_send_witness :
  (Client_init 7 (inl (socket_of [Some EPIPE] [])) None 0 blank).1
  = Some (Raise (TransportError EPIPE))
  ∧ xcm.closed
      (conn_sock (client (Client_init 7 (inl (socket_of [Some EPIPE] []))
                                      None 0 blank).2))
    = true.
Proof.
  destruct (constructor_closes_after_a_failed_send 7
              (socket_of [Some EPIPE] []) None EPIPE [] 0 blank eq_refl)
    as (Hr & Hc & _).
  - unfold EPIPE, xcm.EAGAIN. lia.
  - split; [exact Hr|exact Hc].
Defined.

Lemma NotifyCall_keeps_every_notification_witness :
  notifications
    (called 0 (Call_init NotifyCall 0)
       [(1, NOTIFY, [JStr "appeared"], ∅); (1, ACCEPT, [], ∅);
        (1, NOTIFY, [JStr "disappeared"], ∅)])
  = [] ++ notified [(1, NOTIFY, [JStr "appeared"], ∅); (1, ACCEPT, [], ∅);
                    (1, NOTIFY, [JStr "disappeared"], ∅)].
Proof.
  apply (NotifyCall_keeps_every_notification 0 (Call_init NotifyCall 0)).
  reflexivity.
Defined.

Lemma after_handshake_sound next : sound (after_handshake next).
Proof.
  unfold after_handshake, connected.
  apply try_receive_sound. apply Client_init_sound.
  intros ref o. simpl. by rewrite lookup_empty.
Qed.

Lemma unsubscribe_plain : plain proto.TA_UNSUBSCRIBE.
Proof. by repeat split. Qed.

Lemma replying_sendable kind fields :
  sendable (xcm.sends (conn_sock (client (replying kind fields)))).
Proof. vm_compute. constructor. Qed.

Lemma sync_request_returns_after_COMPLETE_only_witness :
  ∃ self,
    objects (sync_request proto.TA_UNSUBSCRIBE [JInt 5] ∅ Call 2
                          (replying "complete" [])).2
    !! fresh (dom (objects (replying "complete" []))) = Some self
    ∧ cls self = Call
    ∧ Call_result self = Some COMPLETE
    ∧ returned self RNone.
Proof.
  apply (sync_request_returns_after_COMPLETE_only proto.TA_UNSUBSCRIBE
           [JInt 5] ∅ Call 2 (replying "complete" []) RNone
           (after_handshake_sound _)).
  vm_compute. reflexivity.
Defined.

Lemma a_blocking_request_returns_when_completed_witness :
  (sync_request proto.TA_UNSUBSCRIBE [JInt 5] ∅ Call 2
                (replying "complete" [])).1
  = Some (Ok RNone).
Proof.
  refine (proj1 (a_blocking_request_returns_when_completed
                   proto.TA_UNSUBSCRIBE [JInt 5] 1 [] 2
                   (replying "complete" []) unsubscribe_plain eq_refl
                   (replying_sendable _ _) _ eq_refl _)).
  - vm_compute. reflexivity.
  - lia.
Defined.

Lemma a_blocking_request_raises_when_failed_witness :
  (sync_request proto.TA_UNSUBSCRIBE [JInt 5] ∅ Call 2
                (replying "fail" [])).1
  = Some (Raise (TypeError
                   "not all arguments converted during string formatting")).
Proof.
  refine (proj1 (a_blocking_request_raises_when_failed
                   proto.TA_UNSUBSCRIBE [JInt 5] 1
                   (message 1 "unsubscribe" "fail" []) _ [] 2
                   (replying "fail" []) unsubscribe_plain eq_refl
                   (replying_sendable _ _) _ eq_refl _
                   (or_intror (conj _ eq_refl)))).
  - vm_compute. reflexivity.
  - lia.
  - vm_compute. reflexivity.
Defined.

Lemma produce_request_leaves_out_null_arguments_witness :
  produce_request (Transaction_init proto.TA_SUBSCRIBE 3) [JInt 9]
                  {[ "filter"%string := JNull ]} (user_handler 0)
  = produce_request (Transaction_init proto.TA_SUBSCRIBE 3) [JInt 9] ∅
                    (user_handler 0).
Proof.
  apply (produce_request_leaves_out_null_arguments
           (Transaction_init proto.TA_SUBSCRIBE 3) [JInt 9]
           {[ "filter"%string := JNull ]} (user_handler 0) eq_refl).
  intros k v Hk. apply lookup_singleton_Some in Hk as [<- <-].
  split; [done|]. by left.
Defined.

Lemma an_idle_round_changes_nothing_witness :
  (process (after_handshake [])).1 = Ok ()
  ∧ io (process (after_handshake [])).2
    = io (after_handshake []) ++ [xcm.Receive (inr xcm.EAGAIN)].
Proof.
  destruct (an_idle_round_changes_nothing (after_handshake []))
    as (Hr & _ & _ & Hio).
  - vm_compute. reflexivity.
  - vm_compute. reflexivity.
  - split; [exact Hr|exact Hio].
Defined.
